(** * Jogo das Cores: the grid game of [src/JogodasCores/DesafioModulo3.cpp]

    A shallow embedding of the game logic of the colour-matching game and the
    properties of its specification.

    - Numbers are the program's: [float] is IEEE-754 binary32 and [double]
      binary64, both taken from the Standard Library's executable
      specification [SpecFloat] (round to nearest, ties to even, one rounding
      per operation); [int] values are [Z].
    - The process-wide statics ([grid], [attempts], [score], [gameOver],
      [iSelected]) and the C library's [rand] state form one [State] record
      that every operation threads explicitly.
    - The window, the shaders, the console output and the window title are
      outputs only: no operation of the game reads them back, and the game's
      operations leave them out.  The last part of the file puts the title,
      the close flag, the console and the frames drawn around the game
      (module [App]); the shaders and the OpenGL objects stay out. *)

From Stdlib Require Import ZArith Lia Bool List.
From Stdlib Require Import Floats.SpecFloat.
From stdpp Require Import base list.

Local Open Scope Z_scope.

(** ** Floating-point formats *)

(** [float]: IEEE-754 binary32. *)
Module F32.
Definition prec : Z := 24.
Definition emax : Z := 128.
Definition of_int (n : Z) : spec_float := binary_normalize prec emax n 0 false.
Definition add := SFadd prec emax.
Definition sub := SFsub prec emax.
Definition mul := SFmul prec emax.
Definition div := SFdiv prec emax.
Definition sqrt := SFsqrt prec emax.
Definition valid := valid_binary prec emax.
End F32.

(** [double]: IEEE-754 binary64. *)
Module F64.
Definition prec : Z := 53.
Definition emax : Z := 1024.
Definition of_int (n : Z) : spec_float := binary_normalize prec emax n 0 false.
Definition sub := SFsub prec emax.
Definition div := SFdiv prec emax.
Definition valid := valid_binary prec emax.
End F64.

(** The integer a finite float denotes when it denotes one. *)
Definition SF2Z (f : spec_float) : option Z :=
  match f with
  | S754_zero _ => Some 0
  | S754_finite s m (Zneg p) =>
      if Z.pos m mod 2 ^ Z.pos p =? 0
      then Some (cond_Zopp s (Z.pos m / 2 ^ Z.pos p)) else None
  | S754_finite s m e => Some (cond_Zopp s (Z.pos m * 2 ^ e))
  | _ => None
  end.

(** ** 32-bit integers *)

Definition INT_MIN : Z := - 2 ^ 31.
Definition INT_MAX : Z := 2 ^ 31 - 1.

(** Conversion to [unsigned int] and back to [int]: reduction modulo 2^32. *)
Definition to_uint (n : Z) : Z := n mod 2 ^ 32.
Definition to_int (n : Z) : Z :=
  let u := n mod 2 ^ 32 in if u <? 2 ^ 31 then u else u - 2 ^ 32.

(** The magnitude of a finite float with its fraction discarded. *)
Definition SFtrunc (f : spec_float) : option Z :=
  match f with
  | S754_zero _ => Some 0
  | S754_finite s m (Zneg p) => Some (cond_Zopp s (Z.pos m / 2 ^ Z.pos p))
  | S754_finite s m e => Some (cond_Zopp s (Z.pos m * 2 ^ e))
  | _ => None
  end.

(** [static_cast<int>(d)] truncates toward zero.  C++ leaves the conversion
    undefined when the truncated value is not an [int] (and for NaN and the
    infinities); the model returns [INT_MIN] there, the value the x86-64
    conversion instruction delivers. *)
Definition static_cast_int (d : spec_float) : Z :=
  match SFtrunc d with
  | Some t => if (INT_MIN <=? t) && (t <=? INT_MAX) then t else INT_MIN
  | None => INT_MIN
  end.

(** ** Constants of the program *)

Definition QUAD_W : Z := 100.
Definition QUAD_H : Z := 100.

(** [dMax = sqrt(3.0f)]. *)
Definition dMax : spec_float := F32.sqrt (F32.of_int 3).

(** [COLOR_TOLERANCE = 0.2f]: the binary32 value nearest to 1/5. *)
Definition COLOR_TOLERANCE : spec_float := S754_finite false 13421773 (-26).

(** GLFW's codes for the left button, a press, and the two keys. *)
Definition GLFW_MOUSE_BUTTON_LEFT : Z := 0.
Definition GLFW_PRESS : Z := 1.
Definition GLFW_KEY_ESCAPE : Z := 256.
Definition GLFW_KEY_R : Z := 82.

(** ** Data model *)

(** [glm::vec3]; the colour accessors [r], [g], [b] alias [x], [y], [z]. *)
Record vec3 := mkvec3 { v_x : spec_float; v_y : spec_float; v_z : spec_float }.

Definition v_r := v_x.
Definition v_g := v_y.
Definition v_b := v_z.

Record Quad := mkQuad {
  position : vec3;
  dimensions : vec3;
  color : vec3;
  eliminated : bool
}.

Definition Quad_set_eliminated (b : bool) (q : Quad) : Quad :=
  mkQuad (position q) (dimensions q) (color q) b.

(** A zero-initialised cell, as in static storage. *)
Definition zero3 : vec3 := mkvec3 (S754_zero false) (S754_zero false) (S754_zero false).
Definition Quad0 : Quad := mkQuad zero3 zero3 zero3 false.

#[global] Instance Quad_inhabited : Inhabited Quad := populate Quad0.

(** [grid[ROWS][COLS]]: a list of rows. *)
Abbreviation Grid := (list (list Quad)).

(** [grid[i][j]] and [grid[i][j] = q]. *)
Definition grid_at (g : Grid) (i j : nat) : Quad := (g !!! i) !!! j.
Definition grid_set (g : Grid) (i j : nat) (q : Quad) : Grid :=
  <[i := <[j := q]> (g !!! i)]> g.

(** ** Control flow and arithmetic shared by the operations *)

(** [for (int i = 0; i < n; i++) body(i)] over a loop state. *)
Definition for_range {S : Type} (n : nat) (body : nat -> S -> S) (s : S) : S :=
  fold_left (fun acc i => body i acc) (seq 0 n) s.

(** [sqrtf(dr*dr + dg*dg + db*db) / dMax] for the colour [c] and the target. *)
Definition normalizedDist (c target : vec3) : spec_float :=
  let dr := F32.sub (v_r c) (v_r target) in
  let dg := F32.sub (v_g c) (v_g target) in
  let db := F32.sub (v_b c) (v_b target) in
  let dist := F32.sqrt (F32.add (F32.add (F32.mul dr dr) (F32.mul dg dg)) (F32.mul db db)) in
  F32.div dist dMax.

(** The level of a colour channel: [rand() % 256].  [rand()] is not
    negative, so [%] is [Z.rem] and agrees with [mod]. *)
Definition level (n : Z) : Z := Z.rem n 256.

(** One colour channel: [float(rand() % 256) / 255.0f]. *)
Definition channel (n : Z) : spec_float :=
  F32.div (F32.of_int (level n)) (F32.of_int 255).

(** [static_cast<int>((pos - QUAD / 2) / QUAD)]: the halving is the integer
    division of [GLuint], the subtraction and the division are [double]. *)
Definition cell_index (pos : spec_float) (quad : Z) : Z :=
  static_cast_int
    (F64.div (F64.sub pos (F64.of_int (quad / 2))) (F64.of_int quad)).

(** The centre of the cell in row [i], column [j]:
    [vec3(j * float(QUAD_W) + float(QUAD_W) / 2.0f,
          i * float(QUAD_H) + float(QUAD_H) / 2.0f, 0.0f)]. *)
Definition center (i j : nat) : vec3 :=
  mkvec3
    (F32.add (F32.mul (F32.of_int (Z.of_nat j)) (F32.of_int QUAD_W))
             (F32.div (F32.of_int QUAD_W) (F32.of_int 2)))
    (F32.add (F32.mul (F32.of_int (Z.of_nat i)) (F32.of_int QUAD_H))
             (F32.div (F32.of_int QUAD_H) (F32.of_int 2)))
    (S754_zero false).

(** ** Loops *)

Lemma for_range_S {S : Type} (n : nat) (body : nat -> S -> S) (s : S) :
  for_range (Datatypes.S n) body s = body n (for_range n body s).
Proof.
  unfold for_range. rewrite seq_S, fold_left_app. reflexivity.
Qed.

(** Loop invariants: [P k] holds before iteration [k]. *)
Lemma for_range_ind {S : Type} (P : nat -> S -> Prop) (n : nat)
    (body : nat -> S -> S) (s : S) :
  P 0%nat s ->
  (forall k t, (k < n)%nat -> P k t -> P (Datatypes.S k) (body k t)) ->
  P n (for_range n body s).
Proof.
  intros H0 Hstep.
  assert (forall k, (k <= n)%nat -> P k (for_range k body s)) as H.
  { induction k as [|k IH]; intros Hk; [exact H0|].
    rewrite for_range_S. apply Hstep; [lia|]. apply IH. lia. }
  apply H. lia.
Qed.

(** ** The grid as an array *)

Definition wf_grid (ROWS COLS : nat) (g : Grid) : Prop :=
  length g = ROWS /\ forall i, (i < ROWS)%nat -> length (g !!! i) = COLS.

Lemma grid_set_wf ROWS COLS g i j q :
  wf_grid ROWS COLS g -> wf_grid ROWS COLS (grid_set g i j q).
Proof.
  intros [Hl Hr]. unfold grid_set. split.
  - rewrite length_insert. exact Hl.
  - intros k Hk. destruct (decide (i = k)) as [->|Hne].
    + rewrite list_lookup_total_insert_eq by lia.
      rewrite length_insert. apply Hr, Hk.
    + rewrite list_lookup_total_insert_ne by exact Hne. apply Hr, Hk.
Qed.

Lemma grid_at_set_eq ROWS COLS g i j q :
  wf_grid ROWS COLS g -> (i < ROWS)%nat -> (j < COLS)%nat ->
  grid_at (grid_set g i j q) i j = q.
Proof.
  intros [Hl Hr] Hi Hj. unfold grid_at, grid_set.
  rewrite list_lookup_total_insert_eq by lia.
  apply list_lookup_total_insert_eq. rewrite Hr by exact Hi. exact Hj.
Qed.

Lemma grid_at_set_ne g i j i' j' q :
  (i, j) <> (i', j') -> grid_at (grid_set g i j q) i' j' = grid_at g i' j'.
Proof.
  intros Hne. unfold grid_at, grid_set.
  destruct (decide (i = i')) as [->|Hi].
  - destruct (decide (i' < length g)%nat) as [Hlt|Hge].
    + rewrite list_lookup_total_insert_eq by exact Hlt.
      apply list_lookup_total_insert_ne. congruence.
    + rewrite list_insert_ge by lia. reflexivity.
  - rewrite list_lookup_total_insert_ne by exact Hi. reflexivity.
Qed.

(** Two grids of the same shape with the same cells are the same grid. *)
Lemma grid_ext ROWS COLS (g g' : Grid) :
  wf_grid ROWS COLS g -> wf_grid ROWS COLS g' ->
  (forall i j, (i < ROWS)%nat -> (j < COLS)%nat -> grid_at g i j = grid_at g' i j) ->
  g = g'.
Proof.
  intros [Hl Hr] [Hl' Hr'] Hcell.
  apply list_eq_same_length with ROWS; [exact Hl'| exact Hl|].
  intros i r r' Hi Hg Hg'.
  apply list_eq_same_length with COLS.
  - rewrite <- (Hr' i Hi). f_equal. symmetry. apply list_lookup_total_correct, Hg'.
  - rewrite <- (Hr i Hi). f_equal. symmetry. apply list_lookup_total_correct, Hg.
  - intros j q q' Hj Hq Hq'.
    specialize (Hcell i j Hi Hj). unfold grid_at in Hcell.
    rewrite (list_lookup_total_correct _ _ _ Hg) in Hcell.
    rewrite (list_lookup_total_correct _ _ _ Hg') in Hcell.
    rewrite (list_lookup_total_correct _ _ _ Hq) in Hcell.
    rewrite (list_lookup_total_correct _ _ _ Hq') in Hcell.
    exact Hcell.
Qed.

(** ** Facts of single precision settled by evaluation *)

(** [f] holds of [0], ..., [n - 1]. *)
Definition check_below (f : Z -> bool) (n : positive) : bool :=
  snd (Pos.iter (fun acc => (fst acc + 1, snd acc && f (fst acc))) (0, true) n).

Lemma check_below_iter f n z0 ok0 :
  let r := Pos.iter (fun acc => (fst acc + 1, snd acc && f (fst acc))) (z0, ok0) n in
  fst r = z0 + Z.pos n
  /\ (snd r = true -> ok0 = true /\ forall z, z0 <= z < z0 + Z.pos n -> f z = true).
Proof.
  induction n as [|n IH] using Pos.peano_ind.
  - simpl. split; [reflexivity|].
    intros [-> Hf]%andb_true_iff. split; [reflexivity|].
    intros z Hz. assert (z = z0) as -> by lia. exact Hf.
  - rewrite Pos.iter_succ. cbv zeta in IH |- *.
    destruct (Pos.iter _ (z0, ok0) n) as [z ok]. simpl in *.
    destruct IH as [-> IH]. split; [lia|].
    intros [Hok Hf]%andb_true_iff. destruct (IH Hok) as [-> Hall].
    split; [reflexivity|].
    intros z Hz. destruct (Z.eq_dec z (z0 + Z.pos n)) as [->|Hne]; [exact Hf|].
    apply Hall. lia.
Qed.

Lemma check_below_spec f n :
  check_below f n = true -> forall z, 0 <= z < Z.pos n -> f z = true.
Proof.
  intros H z Hz. unfold check_below in H.
  destruct (check_below_iter f n 0 true) as [_ Hall].
  apply Hall; [exact H|lia].
Qed.

(** A bound on the rows and columns for which the facts below are settled
    by evaluation, cell by cell.  (The cell centres [100 * n + 50] stop being
    single-precision numbers only at [n = 335544].) *)
Definition exact_dim : positive := 3355.

(** The coordinate [n * 100.0f + 100.0f / 2.0f] of a centre denotes the
    integer [100 * n + 50]. *)
Definition center_exact (n : Z) : bool :=
  match SF2Z (F32.add (F32.mul (F32.of_int n) (F32.of_int 100))
                      (F32.div (F32.of_int 100) (F32.of_int 2))) with
  | Some v => v =? n * 100 + 50
  | None => false
  end.

Lemma center_exact_below n :
  0 <= n < Z.pos exact_dim -> center_exact n = true.
Proof.
  apply check_below_spec. vm_cast_no_check (eq_refl true).
Qed.

Lemma center_coordinates (i j : nat) :
  Z.of_nat i < Z.pos exact_dim -> Z.of_nat j < Z.pos exact_dim ->
  SF2Z (v_x (center i j)) = Some (Z.of_nat j * 100 + 50)
  /\ SF2Z (v_y (center i j)) = Some (Z.of_nat i * 100 + 50)
  /\ SF2Z (v_z (center i j)) = Some 0.
Proof.
  intros Hi Hj.
  pose proof (center_exact_below (Z.of_nat i) ltac:(lia)) as Ei.
  pose proof (center_exact_below (Z.of_nat j) ltac:(lia)) as Ej.
  unfold center_exact in Ei, Ej. unfold center, QUAD_W, QUAD_H. simpl.
  destruct (SF2Z (F32.add (F32.mul (F32.of_int (Z.of_nat i)) _) _)) as [vi|];
    [|discriminate].
  destruct (SF2Z (F32.add (F32.mul (F32.of_int (Z.of_nat j)) _) _)) as [vj|];
    [|discriminate].
  apply Z.eqb_eq in Ei, Ej. subst. auto.
Qed.

(** A channel level [k] of 0..255 gives a colour channel [k / 255.0f]
    between 0 and 1. *)
Definition level_in_unit (k : Z) : bool :=
  let c := F32.div (F32.of_int k) (F32.of_int 255) in
  SFleb (S754_zero false) c && SFleb c (F32.of_int 1).

Lemma level_in_unit_below k : 0 <= k < 256 -> level_in_unit k = true.
Proof.
  apply (check_below_spec level_in_unit 256). vm_compute. reflexivity.
Qed.

(** [rand() % 256] is a level of 0..255, as [rand()] is not negative. *)
Lemma channel_level n :
  0 <= n ->
  exists k, k = level n /\ 0 <= k <= 255
    /\ channel n = F32.div (F32.of_int k) (F32.of_int 255)
    /\ SFleb (S754_zero false) (channel n) = true
    /\ SFleb (channel n) (F32.of_int 1) = true.
Proof.
  intros Hn. exists (n mod 256).
  assert (0 <= n mod 256 < 256) as Hk by (apply Z.mod_pos_bound; lia).
  assert (level n = n mod 256) as Hrem by (apply Z.rem_mod_nonneg; lia).
  unfold channel. rewrite Hrem.
  pose proof (level_in_unit_below _ Hk) as Hu. unfold level_in_unit in Hu.
  apply andb_true_iff in Hu. repeat split; try lia; apply Hu.
Qed.


(** The levels are balanced: among the values [0], ..., [256 * q - 1] of
    [rand()] each level occurs [q] times. *)
Definition level_count (k : Z) (n : nat) : nat :=
  length (List.filter (fun r => level r =? k) (map Z.of_nat (seq 0 n))).

Lemma level_block (q i : nat) :
  (i < 256)%nat -> level (Z.of_nat (256 * q + i)) = Z.of_nat i.
Proof.
  intros Hi. unfold level. rewrite Z.rem_mod_nonneg by lia.
  symmetry. apply (Z.mod_unique _ _ (Z.of_nat q)); lia.
Qed.

Lemma level_count_block k q len start :
  (start + len <= 256)%nat ->
  length (List.filter (fun r => level r =? k)
            (map Z.of_nat (seq (256 * q + start) len)))
  = length (List.filter (fun r => r =? k) (map Z.of_nat (seq start len))).
Proof.
  revert start. induction len as [|len IH]; intros start Hle; [reflexivity|].
  cbn [seq map List.filter]. rewrite level_block by lia.
  replace (Datatypes.S (256 * q + start)) with (256 * q + Datatypes.S start)%nat
    by lia.
  destruct (Z.of_nat start =? k); cbn [length]; rewrite IH by lia; reflexivity.
Qed.

Lemma one_cycle k :
  0 <= k <= 255 ->
  length (List.filter (fun r => r =? k) (map Z.of_nat (seq 0 256))) = 1%nat.
Proof.
  intros Hk.
  set (g := fun k => length (List.filter (fun r => r =? k)
                               (map Z.of_nat (seq 0 256)))).
  assert (check_below (fun k => Nat.eqb (g k) 1) 256 = true) as H
    by (vm_compute; reflexivity).
  change (g k = 1%nat). clearbody g. apply Nat.eqb_eq.
  apply (check_below_spec (fun k => Nat.eqb (g k) 1) 256 H). lia.
Qed.

Lemma level_count_cycles k q :
  0 <= k <= 255 -> level_count k (256 * q) = q.
Proof.
  intros Hk. unfold level_count. induction q as [|q IH]; [reflexivity|].
  replace (256 * Datatypes.S q)%nat with (256 * q + 256)%nat by lia.
  rewrite seq_app, map_app, List.filter_app, length_app, IH.
  replace (0 + 256 * q)%nat with (256 * q + 0)%nat by lia.
  rewrite level_count_block by lia.
  rewrite (one_cycle k Hk). apply Nat.add_1_r.
Qed.

(** ** Rounding to nearest: the order of the results *)

(** *** Powers of two and binary digits *)

Lemma pow2_pos k : 0 <= k -> 0 < 2 ^ k.
Proof. intros. apply Z.pow_pos_nonneg; lia. Qed.

Lemma pow2_le a b : 0 <= a <= b -> 2 ^ a <= 2 ^ b.
Proof. intros. apply Z.pow_le_mono_r; lia. Qed.

Lemma pow2_lt_inv a b : 0 <= b -> 2 ^ a < 2 ^ b -> a < b.
Proof. intros Hb H. apply (Z.pow_lt_mono_r_iff 2); lia. Qed.

Lemma pow2_split a b : 0 <= a <= b -> 2 ^ b = 2 ^ (b - a) * 2 ^ a.
Proof. intros. rewrite <- Z.pow_add_r by lia. f_equal. lia. Qed.

(** The number of binary digits of a positive integer. *)
Lemma digits2_pos_bounds p :
  2 ^ (Z.pos (digits2_pos p) - 1) <= Z.pos p < 2 ^ Z.pos (digits2_pos p).
Proof.
  induction p as [p IH|p IH|]; simpl digits2_pos.
  - rewrite Pos2Z.inj_succ.
    replace (Z.succ (Z.pos (digits2_pos p)) - 1) with (Z.succ (Z.pos (digits2_pos p) - 1)) by lia.
    rewrite !Z.pow_succ_r by lia. lia.
  - rewrite Pos2Z.inj_succ.
    replace (Z.succ (Z.pos (digits2_pos p)) - 1) with (Z.succ (Z.pos (digits2_pos p) - 1)) by lia.
    rewrite !Z.pow_succ_r by lia. lia.
  - simpl. lia.
Qed.

Lemma Zdigits2_bounds n :
  0 < n -> 2 ^ (Zdigits2 n - 1) <= n < 2 ^ Zdigits2 n.
Proof.
  destruct n as [|p|p]; try lia. intros _. apply digits2_pos_bounds.
Qed.

Lemma Zdigits2_nonneg n : 0 <= Zdigits2 n.
Proof. destruct n; simpl; lia. Qed.

Lemma Zdigits2_pos n : 0 < n -> 0 < Zdigits2 n.
Proof. destruct n; simpl; lia. Qed.

Lemma Zdigits2_lt_pow n d : 0 <= d -> 0 <= n < 2 ^ d -> Zdigits2 n <= d.
Proof.
  intros Hd [Hn Hlt]. destruct (Z.eq_dec n 0) as [->|Hne]; [simpl; lia|].
  destruct (Zdigits2_bounds n ltac:(lia)) as [Hlo _].
  assert (Zdigits2 n - 1 < d); [|lia].
  apply pow2_lt_inv; lia.
Qed.

Lemma Zdigits2_ge_pow n d : 2 ^ d <= n -> 0 <= d -> d < Zdigits2 n.
Proof.
  intros Hle Hd. assert (0 < n) by (pose proof (pow2_pos d Hd); lia).
  destruct (Zdigits2_bounds n ltac:(lia)) as [_ Hhi].
  apply pow2_lt_inv; [apply Zdigits2_nonneg|lia].
Qed.

(** The position of a real on the grid of the integers, four codes per
    unit: [4 m] at the integer [m], [4 m + 1] below the midpoint of
    [m, m + 1], [4 m + 2] at the midpoint, [4 m + 3] above it. *)
Definition loc_code (l : location) : Z :=
  match l with
  | loc_Exact => 0
  | loc_Inexact Lt => 1
  | loc_Inexact Eq => 2
  | loc_Inexact Gt => 3
  end.

Definition rec_code (r : shr_record) : Z :=
  4 * shr_m r + (if shr_r r then 2 else 0) + (if shr_s r then 1 else 0).

(** The code of the fraction [A / D]. *)
Definition frac_code (A D : Z) : Z :=
  4 * (A / D)
  + (if A mod D =? 0 then 0
     else match 2 * (A mod D) ?= D with Lt => 1 | Eq => 2 | Gt => 3 end).

(** The code on the grid twice as coarse. *)
Definition halve (c : Z) : Z := 2 * (c / 4) + (if c mod 4 =? 0 then 0 else 1).

(** Rounding to the nearest integer, ties to even, from the code. *)
Definition rne (c : Z) : Z :=
  match c mod 4 with
  | 0 | 1 => c / 4
  | 2 => if Z.even (c / 4) then c / 4 else c / 4 + 1
  | _ => c / 4 + 1
  end.

Lemma loc_code_range l : 0 <= loc_code l <= 3.
Proof. destruct l as [|[]]; simpl; lia. Qed.

Lemma code_div c m k :
  c = 4 * m + k -> 0 <= k <= 3 -> c / 4 = m /\ c mod 4 = k.
Proof.
  intros -> Hk. pose proof (Z.div_mod (4 * m + k) 4 ltac:(lia)).
  pose proof (Z.mod_pos_bound (4 * m + k) 4 ltac:(lia)). lia.
Qed.

Lemma rec_code_of_loc m l : rec_code (shr_record_of_loc m l) = 4 * m + loc_code l.
Proof. destruct l as [|[]]; simpl; unfold rec_code; simpl; lia. Qed.

Lemma rec_code_split r :
  rec_code r / 4 = shr_m r
  /\ rec_code r mod 4 = loc_code (loc_of_shr_record r).
Proof.
  destruct r as [m [] []]; unfold rec_code; simpl;
    [apply (code_div _ m 3) | apply (code_div _ m 2)
    | apply (code_div _ m 1) | apply (code_div _ m 0)]; lia.
Qed.

Lemma rne_record r :
  round_nearest_even (shr_m r) (loc_of_shr_record r) = rne (rec_code r).
Proof.
  unfold rne. destruct (rec_code_split r) as [-> ->].
  destruct (loc_of_shr_record r) as [|[]]; reflexivity.
Qed.

Lemma rec_code_shr_1 r :
  0 <= shr_m r ->
  rec_code (shr_1 r) = halve (rec_code r) /\ 0 <= shr_m (shr_1 r).
Proof.
  intros Hm. unfold halve. destruct (rec_code_split r) as [-> ->].
  destruct r as [m rb sb]. simpl in Hm.
  destruct m as [|[p|p|]|p]; try lia; destruct rb, sb; simpl;
    unfold rec_code; simpl; split; lia.
Qed.

Lemma halve_mono c1 c2 : c1 <= c2 -> halve c1 <= halve c2.
Proof.
  intros H. unfold halve.
  pose proof (Z.div_mod c1 4 ltac:(lia)). pose proof (Z.div_mod c2 4 ltac:(lia)).
  pose proof (Z.mod_pos_bound c1 4 ltac:(lia)).
  pose proof (Z.mod_pos_bound c2 4 ltac:(lia)).
  destruct (Z.eqb_spec (c1 mod 4) 0), (Z.eqb_spec (c2 mod 4) 0); lia.
Qed.

Lemma rne_mono c1 c2 : c1 <= c2 -> rne c1 <= rne c2.
Proof.
  intros H. unfold rne.
  pose proof (Z.div_mod c1 4 ltac:(lia)). pose proof (Z.div_mod c2 4 ltac:(lia)).
  pose proof (Z.mod_pos_bound c1 4 ltac:(lia)).
  pose proof (Z.mod_pos_bound c2 4 ltac:(lia)).
  assert (c1 / 4 < c2 / 4 \/ (c1 / 4 = c2 / 4 /\ c1 mod 4 <= c2 mod 4)) as [Hlt|[Heq Hle]] by lia.
  - destruct (c1 mod 4) as [|[[|[]|]|[|[]|]|]|]; destruct (c2 mod 4) as [|[[|[]|]|[|[]|]|]|];
      try lia; repeat match goal with |- context [Z.even ?x] => destruct (Z.even x) end; lia.
  - rewrite Heq.
    destruct (c1 mod 4) as [|[[|[]|]|[|[]|]|]|]; destruct (c2 mod 4) as [|[[|[]|]|[|[]|]|]|];
      try lia; repeat match goal with |- context [Z.even ?x] => destruct (Z.even x) end; lia.
Qed.

Lemma rne_exact m : rne (4 * m) = m.
Proof.
  unfold rne. destruct (code_div (4 * m) m 0 ltac:(lia) ltac:(lia)) as [-> ->].
  reflexivity.
Qed.

Lemma rne_bounds c : c / 4 <= rne c <= c / 4 + 1.
Proof.
  unfold rne.
  destruct (c mod 4) as [|[[|[]|]|[|[]|]|]|]; try lia;
    destruct (Z.even (c / 4)); lia.
Qed.

Lemma frac_code_split A D :
  0 < D ->
  frac_code A D / 4 = A / D /\ 0 <= frac_code A D mod 4 <= 3
  /\ (frac_code A D mod 4 = 0 <-> A mod D = 0).
Proof.
  intros HD. unfold frac_code.
  set (k := if A mod D =? 0 then 0
            else match 2 * (A mod D) ?= D with Lt => 1 | Eq => 2 | Gt => 3 end).
  assert (0 <= k <= 3 /\ (k = 0 <-> A mod D = 0)) as [Hk Hk0].
  { subst k. destruct (Z.eqb_spec (A mod D) 0); [lia|].
    destruct (2 * (A mod D) ?= D); lia. }
  destruct (code_div (4 * (A / D) + k) (A / D) k eq_refl Hk) as [-> ->].
  split; [reflexivity|]. split; [exact Hk|exact Hk0].
Qed.

Lemma frac_code_mono A1 A2 D :
  0 < D -> A1 <= A2 -> frac_code A1 D <= frac_code A2 D.
Proof.
  intros HD HA.
  pose proof (Z.div_le_mono A1 A2 D HD HA) as Hq.
  pose proof (Z.div_mod A1 D ltac:(lia)) as E1.
  pose proof (Z.div_mod A2 D ltac:(lia)) as E2.
  pose proof (Z.mod_pos_bound A1 D HD) as B1.
  pose proof (Z.mod_pos_bound A2 D HD) as B2.
  unfold frac_code.
  assert (A1 / D < A2 / D \/ (A1 / D = A2 / D /\ A1 mod D <= A2 mod D))
    as [Hlt|[Heq Hle]] by nia.
  - destruct (A1 mod D =? 0), (A2 mod D =? 0),
      (2 * (A1 mod D) ?= D), (2 * (A2 mod D) ?= D); lia.
  - rewrite Heq.
    destruct (Z.eqb_spec (A1 mod D) 0), (Z.eqb_spec (A2 mod D) 0),
      (Z.compare_spec (2 * (A1 mod D)) D), (Z.compare_spec (2 * (A2 mod D)) D);
      lia.
Qed.

Lemma frac_code_exact M D : 0 < D -> frac_code (M * D) D = 4 * M.
Proof.
  intros HD. unfold frac_code.
  rewrite Z.div_mul, Z.mod_mul by lia. simpl. lia.
Qed.

Lemma frac_code_scale A D k :
  0 < D -> 0 < k -> frac_code (A * k) (D * k) = frac_code A D.
Proof.
  intros HD Hk. unfold frac_code.
  rewrite Z.div_mul_cancel_r, Z.mul_mod_distr_r by lia.
  pose proof (Z.mod_pos_bound A D HD) as B.
  destruct (Z.eqb_spec (A mod D * k) 0), (Z.eqb_spec (A mod D) 0); try nia.
  destruct (Z.compare_spec (2 * (A mod D * k)) (D * k)),
    (Z.compare_spec (2 * (A mod D)) D); try reflexivity; nia.
Qed.

Lemma frac_code_halve A D :
  0 < D -> halve (frac_code A D) = frac_code A (2 * D).
Proof.
  intros HD. unfold halve.
  destruct (frac_code_split A D HD) as (-> & _ & Hz).
  assert ((frac_code A D mod 4 =? 0) = (A mod D =? 0)) as ->.
  { destruct (Z.eqb_spec (frac_code A D mod 4) 0), (Z.eqb_spec (A mod D) 0);
      tauto. }
  pose proof (Z.div_mod A (2 * D) ltac:(lia)) as E.
  pose proof (Z.mod_pos_bound A (2 * D) ltac:(lia)) as B.
  set (q := A / (2 * D)) in *. set (r := A mod (2 * D)) in *.
  unfold frac_code. fold q r.
  destruct (Z.lt_ge_cases r D) as [Hlt|Hge].
  - assert (A / D = 2 * q) as ->
      by (symmetry; apply (Z.div_unique A D _ r); lia).
    assert (A mod D = r) as ->
      by (symmetry; apply (Z.mod_unique A D (2 * q) r); lia).
    destruct (Z.eqb_spec r 0) as [Hr0|Hr0]; [lia|].
    destruct (Z.compare_spec (2 * r) (2 * D)); lia.
  - assert (A / D = 2 * q + 1) as ->
      by (symmetry; apply (Z.div_unique A D _ (r - D)); lia).
    assert (A mod D = r - D) as ->
      by (symmetry; apply (Z.mod_unique A D (2 * q + 1) (r - D)); lia).
    destruct (Z.eqb_spec (r - D) 0) as [Hr0|Hr0];
      destruct (Z.eqb_spec r 0) as [Hr1|Hr1]; try lia;
      destruct (Z.compare_spec (2 * r) (2 * D)); lia.
Qed.

(** [iter_pos] on the codes. *)
Lemma pow2_xO p : 2 ^ Z.pos p~0 = 2 ^ Z.pos p * 2 ^ Z.pos p.
Proof.
  change (Z.pos p~0) with (2 * Z.pos p).
  replace (2 * Z.pos p) with (Z.pos p + Z.pos p) by lia.
  apply Z.pow_add_r; lia.
Qed.

Lemma pow2_xI p : 2 ^ Z.pos p~1 = 2 * (2 ^ Z.pos p * 2 ^ Z.pos p).
Proof.
  change (Z.pos p~1) with (2 * Z.pos p + 1).
  replace (2 * Z.pos p + 1) with (Z.succ (Z.pos p + Z.pos p)) by lia.
  rewrite Z.pow_succ_r, Z.pow_add_r by lia. reflexivity.
Qed.

Lemma iter_pos_halve_frac p A D :
  0 < D ->
  SpecFloat.iter_pos halve p (frac_code A D) = frac_code A (D * 2 ^ Z.pos p).
Proof.
  revert D. induction p as [p IH|p IH|]; intros D HD; simpl SpecFloat.iter_pos.
  - pose proof (pow2_pos (Z.pos p) ltac:(lia)) as Hp.
    rewrite frac_code_halve, !IH by nia.
    f_equal. rewrite pow2_xI. lia.
  - pose proof (pow2_pos (Z.pos p) ltac:(lia)) as Hp.
    rewrite !IH by nia. f_equal. rewrite pow2_xO. lia.
  - rewrite frac_code_halve by exact HD. f_equal. change (2 ^ 1) with 2. lia.
Qed.

Lemma iter_pos_shr p r :
  0 <= shr_m r ->
  rec_code (SpecFloat.iter_pos shr_1 p r) = SpecFloat.iter_pos halve p (rec_code r)
  /\ 0 <= shr_m (SpecFloat.iter_pos shr_1 p r).
Proof.
  revert r. induction p as [p IH|p IH|]; intros r Hr; simpl SpecFloat.iter_pos.
  - destruct (rec_code_shr_1 r Hr) as [E1 H1].
    destruct (IH _ H1) as [E2 H2]. destruct (IH _ H2) as [E3 H3].
    rewrite E3, E2, E1. auto.
  - destruct (IH _ Hr) as [E2 H2]. destruct (IH _ H2) as [E3 H3].
    rewrite E3, E2. auto.
  - apply rec_code_shr_1, Hr.
Qed.

Section Rounding.

Variables prec emax : Z.
Hypothesis prec_pos : 0 < prec.

Local Abbreviation fexp := (SpecFloat.fexp prec emax).
Local Abbreviation emin := (SpecFloat.emin prec emax).

Lemma fexp_mono a b : a <= b -> fexp a <= fexp b.
Proof. unfold SpecFloat.fexp. lia. Qed.

Lemma fexp_ge_emin a : emin <= fexp a.
Proof. unfold SpecFloat.fexp. lia. Qed.

Lemma fexp_lt_inv a b : fexp a < fexp b -> a < b.
Proof. unfold SpecFloat.fexp. lia. Qed.

(** [shr_fexp] moves the code of [A / D] to the grid of the target
    exponent. *)
Lemma shr_fexp_code m e l A D :
  0 <= m -> 0 < D -> 4 * m + loc_code l = frac_code A D ->
  e <= fexp (Zdigits2 m + e) ->
  let k := fexp (Zdigits2 m + e) - e in
  let r := shr_fexp prec emax m e l in
  snd r = fexp (Zdigits2 m + e)
  /\ rec_code (fst r) = frac_code A (D * 2 ^ k)
  /\ 0 <= shr_m (fst r).
Proof.
  intros Hm HD Hcode Hk k r. subst r. unfold shr_fexp, shr. fold k.
  assert (shr_m (shr_record_of_loc m l) = m) as Hsm
    by (destruct l as [|[]]; reflexivity).
  destruct k as [|p|p] eqn:Ek; try lia.
  - simpl. rewrite rec_code_of_loc, Hcode, Z.mul_1_r, Hsm.
    split; [lia|]. split; [reflexivity|exact Hm].
  - simpl fst. simpl snd.
    destruct (iter_pos_shr p (shr_record_of_loc m l)) as [E H]; [lia|].
    rewrite E, rec_code_of_loc, Hcode, iter_pos_halve_frac by exact HD.
    split; [lia|]. split; [reflexivity|exact H].
Qed.

(** What [binary_round_aux] returns for the rounded mantissa [R] at the
    exponent [E]: one more bit is shifted out when [R] reaches [2 ^ prec]. *)
Definition round_result (sx : bool) (R E : Z) : spec_float :=
  let '(m2, e2) := if R <? 2 ^ prec then (R, E) else (R / 2, E + 1) in
  match m2 with
  | 0 => S754_zero sx
  | Z.pos m => if e2 <=? emax - prec then S754_finite sx m e2 else S754_infinity sx
  | Z.neg _ => S754_nan
  end.

(** [binary_round_aux] rounds the real whose position is given by the
    mantissa and the location: when that real is [A / D] on the grid of
    [ex], the result is its nearest integer on the grid of the target
    exponent. *)
Lemma binary_round_aux_spec sx mx ex lx A D :
  0 <= mx -> 0 < D -> 4 * mx + loc_code lx = frac_code A D ->
  ex <= fexp (Zdigits2 mx + ex) ->
  let E := fexp (Zdigits2 mx + ex) in
  let R := rne (frac_code A (D * 2 ^ (E - ex))) in
  binary_round_aux prec emax sx mx ex lx = round_result sx R E
  /\ 0 <= R <= 2 ^ prec.
Proof.
  intros Hm HD Hcode Hk E R.
  destruct (shr_fexp_code mx ex lx A D Hm HD Hcode Hk) as (He' & Hc' & Hm').
  fold E in He', Hc'.
  assert (0 < 2 ^ (E - ex)) as Hp by (apply pow2_pos; lia).
  assert (0 < 2 ^ prec) as Hpp by (apply pow2_pos; lia).
  (* the truncated mantissa is below 2 ^ prec *)
  assert (mx = A / D) as HmA.
  { destruct (frac_code_split A D HD) as (<- & _).
    rewrite <- Hcode. symmetry.
    apply (code_div _ mx (loc_code lx) eq_refl (loc_code_range lx)). }
  assert (0 <= frac_code A (D * 2 ^ (E - ex)) / 4 < 2 ^ prec) as Hq.
  { destruct (frac_code_split A (D * 2 ^ (E - ex)) ltac:(nia)) as (-> & _).
    rewrite <- Z.div_div, <- HmA by lia.
    split; [apply Z.div_pos; lia|].
    apply Z.div_lt_upper_bound; [lia|].
    destruct (Z.eq_dec mx 0) as [->|Hne]; [nia|].
    destruct (Zdigits2_bounds mx ltac:(lia)) as [_ Hhi].
    assert (2 ^ Zdigits2 mx <= 2 ^ (E - ex) * 2 ^ prec); [|lia].
    rewrite <- Z.pow_add_r by lia. apply pow2_le.
    pose proof (Zdigits2_nonneg mx). unfold E, SpecFloat.fexp in *. lia. }
  pose proof (rne_bounds (frac_code A (D * 2 ^ (E - ex)))) as HR. fold R in HR.
  split; [|lia].
  unfold binary_round_aux.
  destruct (shr_fexp prec emax mx ex lx) as [mrs' e'] eqn:Hs1.
  simpl in He', Hc', Hm'. subst e'.
  rewrite rne_record, Hc'. fold R.
  assert (emin <= E) as HE by apply fexp_ge_emin.
  unfold round_result.
  destruct (Z.ltb_spec R (2 ^ prec)) as [Hlt|Hge].
  - (* no renormalisation *)
    assert (fexp (Zdigits2 R + E) - E <= 0) as Hk2.
    { assert (Zdigits2 R <= prec) by (apply Zdigits2_lt_pow; lia).
      unfold SpecFloat.fexp. lia. }
    unfold shr_fexp, shr.
    destruct (fexp (Zdigits2 R + E) - E) as [|p|p]; try lia; reflexivity.
  - (* the mantissa reached 2 ^ prec *)
    assert (R = 2 ^ prec) as HR2 by lia.
    assert (Zdigits2 R = prec + 1) as Hd.
    { apply Z.le_antisymm.
      - apply Zdigits2_lt_pow; [lia|]. rewrite HR2, Z.pow_add_r by lia. lia.
      - assert (prec < Zdigits2 R); [|lia].
        apply Zdigits2_ge_pow; lia. }
    assert (fexp (Zdigits2 R + E) - E = 1) as Hk2
      by (rewrite Hd; unfold SpecFloat.fexp; lia).
    unfold shr_fexp, shr. rewrite Hk2.
    change (SpecFloat.iter_pos shr_1 1 (shr_record_of_loc R loc_Exact))
      with (shr_1 (shr_record_of_loc R loc_Exact)).
    cbv beta iota.
    destruct (rec_code_shr_1 (shr_record_of_loc R loc_Exact)) as [Hc2 _];
      [simpl; lia|].
    destruct (rec_code_split (shr_1 (shr_record_of_loc R loc_Exact))) as [<- _].
    rewrite Hc2, rec_code_of_loc. simpl loc_code. rewrite Z.add_0_r.
    unfold halve.
    destruct (code_div (4 * R) R 0 ltac:(lia) ltac:(lia)) as [-> ->]. simpl.
    replace ((2 * R + 0) / 4) with (R / 2); [reflexivity|].
    rewrite Z.add_0_r, <- (Z.div_mul_cancel_l R 2 2) by lia. reflexivity.
Qed.

Lemma rne_frac_upper A Q T :
  0 < Q -> A <= T * Q -> rne (frac_code A Q) <= T.
Proof.
  intros HQ H. rewrite <- (rne_exact T), <- (frac_code_exact T Q HQ).
  apply rne_mono, frac_code_mono; assumption.
Qed.

Lemma rne_frac_lower A Q T :
  0 < Q -> T * Q <= A -> T <= rne (frac_code A Q).
Proof.
  intros HQ H. rewrite <- (rne_exact T) at 1. rewrite <- (frac_code_exact T Q HQ).
  apply rne_mono, frac_code_mono; assumption.
Qed.

(** ** The order of the values *)

(** [m1 * 2 ^ e1 <= m2 * 2 ^ e2], on the finer of the two grids. *)
Definition fin_le (m1 e1 m2 e2 : Z) : Prop :=
  m1 * 2 ^ (e1 - Z.min e1 e2) <= m2 * 2 ^ (e2 - Z.min e1 e2).

Lemma fin_le_base b m1 e1 m2 e2 :
  b <= e1 -> b <= e2 ->
  fin_le m1 e1 m2 e2 <-> m1 * 2 ^ (e1 - b) <= m2 * 2 ^ (e2 - b).
Proof.
  intros H1 H2. unfold fin_le. set (c := Z.min e1 e2).
  assert (b <= c) as Hc by (unfold c; lia).
  assert (c <= e1 /\ c <= e2) as [Hc1 Hc2] by (unfold c; lia).
  rewrite (pow2_split (c - b) (e1 - b)), (pow2_split (c - b) (e2 - b)) by lia.
  replace (e1 - b - (c - b)) with (e1 - c) by lia.
  replace (e2 - b - (c - b)) with (e2 - c) by lia.
  pose proof (pow2_pos (c - b) ltac:(lia)) as Hp.
  rewrite !Z.mul_assoc.
  split; intros H; [apply Z.mul_le_mono_nonneg_r; lia|].
  apply Z.mul_le_mono_pos_r in H; assumption.
Qed.

(** The signed mantissa and the exponent of a finite float. *)
Definition SFsig (x : spec_float) : Z :=
  match x with
  | S754_finite s m _ => cond_Zopp s (Z.pos m)
  | _ => 0
  end.

Definition SFexp (x : spec_float) : Z :=
  match x with
  | S754_finite _ _ e => e
  | _ => 0
  end.

(** [x <= y] for the numbers the floats denote, the two zeros being one
    number and the infinities the ends of the line; NaN is not ordered. *)
Definition SFle (x y : spec_float) : Prop :=
  match x, y with
  | S754_nan, _ | _, S754_nan => False
  | S754_infinity true, _ => True
  | _, S754_infinity false => True
  | S754_infinity false, _ => False
  | _, S754_infinity true => False
  | _, _ => fin_le (SFsig x) (SFexp x) (SFsig y) (SFexp y)
  end.

Lemma SFle_opp x y : SFle x y -> SFle (SFopp y) (SFopp x).
Proof.
  assert (forall m1 e1 m2 e2, fin_le m1 e1 m2 e2 -> fin_le (- m2) e2 (- m1) e1) as H.
  { unfold fin_le. intros m1 e1 m2 e2. rewrite (Z.min_comm e2 e1). lia. }
  destruct x as [sx|[]| |sx mx ex], y as [sy|[]| |sy my ey]; simpl; try tauto;
    intros Hle; apply H in Hle; simpl in Hle;
    try destruct sx; try destruct sy; simpl in *; exact Hle.
Qed.

Lemma round_result_opp R E :
  round_result true R E = SFopp (round_result false R E).
Proof.
  unfold round_result.
  destruct (R <? 2 ^ prec).
  - destruct R; try reflexivity. destruct (E <=? emax - prec); reflexivity.
  - destruct (R / 2); try reflexivity. destruct (E + 1 <=? emax - prec); reflexivity.
Qed.

(** Rounded results are ordered as their values are. *)
Lemma round_result_le b R1 E1 R2 E2 :
  0 <= R1 <= 2 ^ prec -> 0 <= R2 <= 2 ^ prec ->
  b <= E1 -> E1 <= E2 ->
  R1 * 2 ^ (E1 - b) <= R2 * 2 ^ (E2 - b) ->
  SFle (round_result false R1 E1) (round_result false R2 E2).
Proof.
  intros HR1 HR2 Hb HE Hv.
  assert (0 < 2 ^ prec) as Hpp by (apply pow2_pos; lia).
  assert (2 ^ prec = 2 * 2 ^ (prec - 1)) as Hhalf.
  { replace prec with (Z.succ (prec - 1)) at 1 by lia.
    apply Z.pow_succ_r. lia. }
  assert (0 < 2 ^ (prec - 1)) as Hph by (apply pow2_pos; lia).
  assert (2 ^ (E2 - b) = 2 ^ (E2 - E1) * 2 ^ (E1 - b)) as Hsplit.
  { rewrite <- Z.pow_add_r by lia. f_equal. lia. }
  pose proof (pow2_pos (E1 - b) ltac:(lia)) as Hp1.
  pose proof (pow2_pos (E2 - E1) ltac:(lia)) as Hp21.
  (* the final mantissa and exponent of each result *)
  assert (forall R E, 0 <= R <= 2 ^ prec -> b <= E ->
    exists m e, (if R <? 2 ^ prec then (R, E) else (R / 2, E + 1)) = (m, e)
      /\ 0 <= m < 2 ^ prec /\ E <= e <= E + 1
      /\ m * 2 ^ (e - b) = R * 2 ^ (E - b)
      /\ (m = 0 <-> R = 0) /\ (e = E + 1 <-> R = 2 ^ prec)) as Hfin.
  { intros R E HR HbE. destruct (Z.ltb_spec R (2 ^ prec)).
    - exists R, E. repeat split; try lia.
    - assert (R = 2 ^ prec) as -> by lia.
      exists (2 ^ (prec - 1)), (E + 1).
      rewrite Hhalf at 1. rewrite Z.mul_comm, Z.div_mul by lia.
      repeat split; try lia.
      replace (E + 1 - b) with (Z.succ (E - b)) by lia.
      rewrite Z.pow_succ_r by lia. lia. }
  destruct (Hfin R1 E1 HR1 Hb) as (m1 & e1 & Hr1 & Hm1 & He1 & Hv1 & Hz1 & Hc1).
  destruct (Hfin R2 E2 HR2 ltac:(lia)) as (m2 & e2 & Hr2 & Hm2 & He2 & Hv2 & Hz2 & Hc2).
  unfold round_result. rewrite Hr1, Hr2.
  assert (e1 <= e2) as He12.
  { destruct (Z.eq_dec E1 E2) as [Heq|Hne]; [|lia].
    subst E2. assert (R1 <= R2) by nia. lia. }
  assert (m1 * 2 ^ (e1 - b) <= m2 * 2 ^ (e2 - b)) as Hm12 by lia.
  assert (0 < m1 -> 0 < m2) as Hpos.
  { intros H1. pose proof (pow2_pos (e1 - b) ltac:(lia)).
    pose proof (pow2_pos (e2 - b) ltac:(lia)). nia. }
  destruct m1 as [|p1|p1]; [|specialize (Hpos ltac:(lia))|lia].
  - destruct m2 as [|p2|p2]; [| |lia]; simpl.
    + unfold fin_le. simpl. lia.
    + destruct (e2 <=? emax - prec); simpl; [|exact I].
      unfold fin_le. simpl. pose proof (pow2_pos (e2 - Z.min 0 e2) ltac:(lia)). lia.
  - destruct m2 as [|p2|p2]; try lia.
    destruct (Z.leb_spec e1 (emax - prec)), (Z.leb_spec e2 (emax - prec));
      simpl; try exact I; try lia.
    apply (fin_le_base b); lia.
Qed.

(** With no mantissa bit the target exponent is the least one. *)
Lemma fexp_zero_mantissa m e :
  m = 0 -> e <= fexp (Zdigits2 m + e) -> fexp (Zdigits2 m + e) = emin.
Proof. intros ->. simpl. unfold SpecFloat.fexp. lia. Qed.

(** [binary_round_aux] is monotonic: of two reals [A1 / D <= A2 / D] in
    units of [2 ^ b], given by their positions on the grids of [e1] and
    [e2], the first does not round above the second. *)
Lemma binary_round_aux_mono b D A1 A2 m1 e1 l1 m2 e2 l2 :
  0 < D -> 0 <= A1 <= A2 ->
  b <= e1 -> 0 <= m1 ->
  4 * m1 + loc_code l1 = frac_code A1 (D * 2 ^ (e1 - b)) ->
  e1 <= fexp (Zdigits2 m1 + e1) ->
  b <= e2 -> 0 <= m2 ->
  4 * m2 + loc_code l2 = frac_code A2 (D * 2 ^ (e2 - b)) ->
  e2 <= fexp (Zdigits2 m2 + e2) ->
  SFle (binary_round_aux prec emax false m1 e1 l1)
       (binary_round_aux prec emax false m2 e2 l2).
Proof.
  intros HD HA Hb1 Hm1 Hc1 Hk1 Hb2 Hm2 Hc2 Hk2.
  pose proof (pow2_pos (e1 - b) ltac:(lia)) as Hp1.
  pose proof (pow2_pos (e2 - b) ltac:(lia)) as Hp2.
  set (P1 := D * 2 ^ (e1 - b)) in *. set (P2 := D * 2 ^ (e2 - b)) in *.
  assert (0 < P1) as HP1 by (unfold P1; nia).
  assert (0 < P2) as HP2 by (unfold P2; nia).
  destruct (binary_round_aux_spec false m1 e1 l1 A1 P1 Hm1 HP1 Hc1 Hk1) as [-> HR1].
  destruct (binary_round_aux_spec false m2 e2 l2 A2 P2 Hm2 HP2 Hc2 Hk2) as [-> HR2].
  set (E1 := fexp (Zdigits2 m1 + e1)) in *.
  set (E2 := fexp (Zdigits2 m2 + e2)) in *.
  set (d1 := Zdigits2 m1) in *. set (d2 := Zdigits2 m2) in *.
  pose proof (Zdigits2_nonneg m1) as Hd1. pose proof (Zdigits2_nonneg m2) as Hd2.
  fold d1 in Hd1. fold d2 in Hd2.
  (* the denominators on the target grids *)
  assert (P1 * 2 ^ (E1 - e1) = D * 2 ^ (E1 - b)) as HQ1.
  { unfold P1. rewrite <- Z.mul_assoc, <- Z.pow_add_r by lia. do 2 f_equal. lia. }
  assert (P2 * 2 ^ (E2 - e2) = D * 2 ^ (E2 - b)) as HQ2.
  { unfold P2. rewrite <- Z.mul_assoc, <- Z.pow_add_r by lia. do 2 f_equal. lia. }
  rewrite HQ1 in *. rewrite HQ2 in *.
  set (Q1 := D * 2 ^ (E1 - b)) in *. set (Q2 := D * 2 ^ (E2 - b)) in *.
  pose proof (pow2_pos (E1 - b) ltac:(lia)) as HpE1.
  pose proof (pow2_pos (E2 - b) ltac:(lia)) as HpE2.
  assert (0 < Q1) as HQ1p by (unfold Q1; nia).
  assert (0 < Q2) as HQ2p by (unfold Q2; nia).
  (* the mantissas are the integer parts *)
  assert (m1 = A1 / P1) as Hq1.
  { destruct (frac_code_split A1 P1 HP1) as (<- & _). rewrite <- Hc1.
    symmetry. apply (code_div _ m1 (loc_code l1) eq_refl (loc_code_range l1)). }
  assert (m2 = A2 / P2) as Hq2.
  { destruct (frac_code_split A2 P2 HP2) as (<- & _). rewrite <- Hc2.
    symmetry. apply (code_div _ m2 (loc_code l2) eq_refl (loc_code_range l2)). }
  assert (m1 * P1 <= A1 < (m1 + 1) * P1) as HA1.
  { pose proof (Z.div_mod A1 P1 ltac:(lia)).
    pose proof (Z.mod_pos_bound A1 P1 HP1). rewrite <- Hq1 in *. lia. }
  assert (m2 * P2 <= A2 < (m2 + 1) * P2) as HA2.
  { pose proof (Z.div_mod A2 P2 ltac:(lia)).
    pose proof (Z.mod_pos_bound A2 P2 HP2). rewrite <- Hq2 in *. lia. }
  assert (m2 + 1 <= 2 ^ d2) as Hm2d.
  { destruct (Z.eq_dec m2 0) as [->|Hne]; [simpl; lia|].
    pose proof (Zdigits2_bounds m2 ltac:(lia)) as Hbd. fold d2 in Hbd. lia. }
  assert (m1 + 1 <= 2 ^ d1) as Hm1d.
  { destruct (Z.eq_dec m1 0) as [->|Hne]; [simpl; lia|].
    pose proof (Zdigits2_bounds m1 ltac:(lia)) as Hbd. fold d1 in Hbd. lia. }
  (* the magnitudes are ordered *)
  assert (m1 = 0 \/ (0 < m1 /\ d1 + e1 <= d2 + e2)) as Hmag.
  { destruct (Z.eq_dec m1 0) as [H0|Hne]; [left; exact H0|right].
    split; [lia|].
    destruct (Zdigits2_bounds m1 ltac:(lia)) as [Hlo _]. fold d1 in Hlo.
    assert (0 < d1) by (apply Zdigits2_pos; lia).
    assert (2 ^ (d1 - 1) * P1 < 2 ^ d2 * P2) as Hlt by nia.
    unfold P1, P2 in Hlt.
    assert (2 ^ (d1 - 1 + (e1 - b)) < 2 ^ (d2 + (e2 - b))) as Hlt2.
    { rewrite !Z.pow_add_r by lia. nia. }
    apply pow2_lt_inv in Hlt2; lia. }
  assert (E1 <= E2) as HE.
  { destruct Hmag as [H0|[_ Hle]].
    - assert (E1 = emin) as -> by exact (fexp_zero_mantissa m1 e1 H0 Hk1).
      apply fexp_ge_emin.
    - apply fexp_mono. exact Hle. }
  apply (round_result_le b); try assumption; [lia|].
  destruct (Z.eq_dec E1 E2) as [Heq|Hne].
  - (* the same grid *)
    unfold Q2. rewrite <- Heq. fold Q1.
    apply Z.mul_le_mono_nonneg_r; [lia|].
    apply rne_mono, frac_code_mono; lia.
  - (* a coarser grid for the larger real: a power of two lies between *)
    assert (E1 < E2) as Hlt by lia.
    assert (emin <= E1) as Hmin by apply fexp_ge_emin.
    assert (E2 = d2 + e2 - prec) as HE2 by (unfold E2, SpecFloat.fexp in *; lia).
    assert (0 < m2) as Hm2p.
    { destruct (Z.eq_dec m2 0) as [H0|]; [|lia].
      assert (E2 = emin) by exact (fexp_zero_mantissa m2 e2 H0 Hk2). lia. }
    destruct (Zdigits2_bounds m2 Hm2p) as [Hlo2 _]. fold d2 in Hlo2.
    assert (0 < d2) by (apply Zdigits2_pos; lia).
    set (P := Z.max (d1 + e1) E1).
    assert (P <= d2 + e2 - 1) as HP.
    { unfold P. destruct Hmag as [H0|[_ Hle]].
      - assert (d1 = 0) by (unfold d1; rewrite H0; reflexivity).
        assert (E1 = emin) by exact (fexp_zero_mantissa m1 e1 H0 Hk1). lia.
      - assert (d1 + e1 < d2 + e2) by (apply fexp_lt_inv; exact Hlt). lia. }
    (* the rounded smaller real is at most 2 ^ P *)
    assert (rne (frac_code A1 Q1) <= 2 ^ (P - E1)) as Hup.
    { apply rne_frac_upper; [exact HQ1p|].
      assert (2 ^ d1 * P1 <= 2 ^ (P - E1) * Q1); [|nia].
      unfold P1, Q1.
      replace (2 ^ d1 * (D * 2 ^ (e1 - b))) with (D * 2 ^ (d1 + e1 - b))
        by (rewrite (Z.mul_comm (2 ^ d1)), <- Z.mul_assoc, <- Z.pow_add_r by lia;
            do 2 f_equal; lia).
      replace (2 ^ (P - E1) * (D * 2 ^ (E1 - b))) with (D * 2 ^ (P - b))
        by (rewrite (Z.mul_comm (2 ^ (P - E1))), <- Z.mul_assoc, <- Z.pow_add_r
              by (unfold P; lia); do 2 f_equal; lia).
      apply Z.mul_le_mono_nonneg_l; [lia|]. apply pow2_le. unfold P. lia. }
    (* the rounded larger real is at least 2 ^ (d2 + e2 - 1) *)
    assert (2 ^ (prec - 1) <= rne (frac_code A2 Q2)) as Hdown.
    { apply rne_frac_lower; [exact HQ2p|].
      assert (2 ^ (prec - 1) * Q2 = 2 ^ (d2 - 1) * P2) as ->; [|nia].
      unfold P2, Q2.
      rewrite !(Z.mul_comm (2 ^ _) (D * _)), <- !Z.mul_assoc, <- !Z.pow_add_r by lia.
      do 2 f_equal. lia. }
    pose proof (pow2_pos (P - E1) ltac:(unfold P; lia)) as HpP.
    assert (rne (frac_code A1 Q1) * 2 ^ (E1 - b) <= 2 ^ (P - b)) as H1.
    { replace (P - b) with (P - E1 + (E1 - b)) by lia.
      rewrite Z.pow_add_r by (unfold P; lia). nia. }
    assert (2 ^ (d2 + e2 - 1 - b) <= rne (frac_code A2 Q2) * 2 ^ (E2 - b)) as H2.
    { replace (d2 + e2 - 1 - b) with (prec - 1 + (E2 - b)) by lia.
      rewrite Z.pow_add_r by lia. nia. }
    assert (2 ^ (P - b) <= 2 ^ (d2 + e2 - 1 - b)) as H3
      by (apply pow2_le; unfold P in *; lia).
    lia.
Qed.

(** *** Signs *)

Definition SFnonneg (x : spec_float) : Prop :=
  match x with
  | S754_zero _ | S754_finite false _ _ | S754_infinity false => True
  | _ => False
  end.

Definition SFnonpos (x : spec_float) : Prop :=
  match x with
  | S754_zero _ | S754_finite true _ _ | S754_infinity true => True
  | _ => False
  end.

Lemma SFle_nonpos_nonneg x y : SFnonpos x -> SFnonneg y -> SFle x y.
Proof.
  destruct x as [sx|[]| |[] mx ex], y as [sy|[]| |[] my ey]; simpl; try tauto;
    intros _ _; unfold fin_le; simpl;
    try pose proof (pow2_pos (ex - Z.min ex 0) ltac:(lia));
    try pose proof (pow2_pos (ey - Z.min 0 ey) ltac:(lia));
    try pose proof (pow2_pos (ex - Z.min ex ey) ltac:(lia));
    try pose proof (pow2_pos (ey - Z.min ex ey) ltac:(lia)); lia.
Qed.

Lemma SFnonpos_opp x : SFnonneg x -> SFnonpos (SFopp x).
Proof. destruct x as [|[]| |[]]; simpl; tauto. Qed.

Lemma round_result_nonneg R E : 0 <= R -> SFnonneg (round_result false R E).
Proof.
  intros HR. unfold round_result.
  destruct (R <? 2 ^ prec).
  - destruct R; simpl; try lia; try exact I.
    destruct (E <=? emax - prec); exact I.
  - pose proof (Z.div_pos R 2 HR ltac:(lia)).
    destruct (R / 2); simpl; try lia; try exact I.
    destruct (E + 1 <=? emax - prec); exact I.
Qed.

Lemma binary_round_aux_opp m e l :
  binary_round_aux prec emax true m e l
  = SFopp (binary_round_aux prec emax false m e l).
Proof.
  unfold binary_round_aux.
  destruct (shr_fexp prec emax m e l) as [r1 e1].
  destruct (shr_fexp prec emax _ e1 loc_Exact) as [r2 e2].
  destruct (shr_m r2); try reflexivity.
  destruct (e2 <=? emax - prec); reflexivity.
Qed.

(** *** [binary_round] and [binary_normalize] *)

Lemma pos_iter_xO m d : Z.pos (Pos.iter xO m d) = Z.pos m * 2 ^ Z.pos d.
Proof.
  induction d as [|d IH] using Pos.peano_ind.
  - simpl. lia.
  - rewrite Pos.iter_succ, Pos2Z.inj_xO, IH, Pos2Z.inj_succ, Z.pow_succ_r by lia.
    lia.
Qed.

Lemma shl_align_spec mx ex ex' :
  let r := shl_align mx ex ex' in
  snd r = Z.min ex ex' /\ Z.pos (fst r) = Z.pos mx * 2 ^ (ex - snd r).
Proof.
  unfold shl_align. destruct (ex' - ex) as [|d|d] eqn:Hd; simpl.
  - split; [lia|]. rewrite Z.sub_diag. simpl. lia.
  - split; [lia|]. rewrite Z.sub_diag. simpl. lia.
  - split; [lia|]. rewrite pos_iter_xO. do 2 f_equal. lia.
Qed.

Lemma Zdigits2_shift m k :
  0 < m -> 0 <= k -> Zdigits2 (m * 2 ^ k) = Zdigits2 m + k.
Proof.
  intros Hm Hk. destruct (Zdigits2_bounds m Hm) as [Hlo Hhi].
  pose proof (Zdigits2_pos m Hm) as Hd.
  pose proof (pow2_pos k Hk) as Hp.
  apply Z.le_antisymm.
  - apply Zdigits2_lt_pow; [lia|]. rewrite Z.pow_add_r by lia. nia.
  - assert (Zdigits2 m + k - 1 < Zdigits2 (m * 2 ^ k)); [|lia].
    apply Zdigits2_ge_pow; [|lia].
    replace (Zdigits2 m + k - 1) with (Zdigits2 m - 1 + k) by lia.
    rewrite Z.pow_add_r by lia. nia.
Qed.

(** [binary_round] hands [binary_round_aux] the integer [m * 2 ^ e], exact
    on a grid fine enough for the target precision. *)
Lemma binary_round_frame sx mx ex :
  exists mz ez,
    binary_round prec emax sx mx ex
    = binary_round_aux prec emax sx (Z.pos mz) ez loc_Exact
    /\ ez <= ex /\ Z.pos mz = Z.pos mx * 2 ^ (ex - ez)
    /\ ez <= fexp (Zdigits2 (Z.pos mz) + ez).
Proof.
  unfold binary_round.
  pose proof (shl_align_spec mx ex (fexp (Z.pos (digits2_pos mx) + ex))) as H.
  destruct (shl_align mx ex _) as [mz ez]. simpl in H. destruct H as [Hez Hmz].
  exists mz, ez. split; [reflexivity|]. split; [lia|]. split; [exact Hmz|].
  rewrite Hmz, Zdigits2_shift by lia. simpl Zdigits2.
  replace (Z.pos (digits2_pos mx) + (ex - ez) + ez)
    with (Z.pos (digits2_pos mx) + ex) by lia.
  lia.
Qed.

Lemma binary_round_mono mx1 ex1 mx2 ex2 :
  fin_le (Z.pos mx1) ex1 (Z.pos mx2) ex2 ->
  SFle (binary_round prec emax false mx1 ex1)
       (binary_round prec emax false mx2 ex2).
Proof.
  intros Hle.
  destruct (binary_round_frame false mx1 ex1) as (mz1 & ez1 & -> & Hz1 & Hm1 & Hk1).
  destruct (binary_round_frame false mx2 ex2) as (mz2 & ez2 & -> & Hz2 & Hm2 & Hk2).
  set (b := Z.min ez1 ez2).
  pose proof (pow2_pos (ez1 - b) ltac:(lia)) as Hp1.
  pose proof (pow2_pos (ez2 - b) ltac:(lia)) as Hp2.
  apply (binary_round_aux_mono b 1 (Z.pos mz1 * 2 ^ (ez1 - b))
           (Z.pos mz2 * 2 ^ (ez2 - b))); try lia.
  - split; [lia|].
    rewrite Hm1, Hm2, <- !Z.mul_assoc, <- !Z.pow_add_r by lia.
    replace (ex1 - ez1 + (ez1 - b)) with (ex1 - b) by lia.
    replace (ex2 - ez2 + (ez2 - b)) with (ex2 - b) by lia.
    apply (fin_le_base b); [lia|lia|exact Hle].
  - rewrite Z.mul_1_l, frac_code_exact by lia. simpl. lia.
  - rewrite Z.mul_1_l, frac_code_exact by lia. simpl. lia.
Qed.

Lemma binary_round_nonneg mx ex :
  SFnonneg (binary_round prec emax false mx ex).
Proof.
  destruct (binary_round_frame false mx ex) as (mz & ez & -> & Hz & Hm & Hk).
  destruct (binary_round_aux_spec false (Z.pos mz) ez loc_Exact (Z.pos mz) 1)
    as [-> HR]; try lia.
  - unfold frac_code. rewrite Z.div_1_r, Z.mod_1_r. simpl. lia.
  - apply round_result_nonneg, HR.
Qed.

Lemma binary_round_opp mx ex :
  binary_round prec emax true mx ex = SFopp (binary_round prec emax false mx ex).
Proof.
  unfold binary_round. destruct (shl_align mx ex _). apply binary_round_aux_opp.
Qed.

(** [binary_normalize] is monotonic in the integer it rounds. *)
Lemma binary_normalize_mono N1 e1 N2 e2 s1 s2 :
  fin_le N1 e1 N2 e2 ->
  SFle (binary_normalize prec emax N1 e1 s1) (binary_normalize prec emax N2 e2 s2).
Proof.
  intros Hle.
  assert (forall m e s, m <= 0 -> SFnonpos (binary_normalize prec emax m e s)) as Hneg.
  { intros [|p|p] e s H; try lia; simpl; [exact I|].
    rewrite binary_round_opp. apply SFnonpos_opp, binary_round_nonneg. }
  assert (forall m e s, 0 <= m -> SFnonneg (binary_normalize prec emax m e s)) as Hpos.
  { intros [|p|p] e s H; try lia; simpl; [exact I|]. apply binary_round_nonneg. }
  pose proof (pow2_pos (e1 - Z.min e1 e2) ltac:(lia)) as Hp1.
  pose proof (pow2_pos (e2 - Z.min e1 e2) ltac:(lia)) as Hp2.
  destruct (Z.le_gt_cases N1 0) as [H1|H1]; destruct (Z.le_gt_cases 0 N2) as [H2|H2].
  - apply SFle_nonpos_nonneg; [apply Hneg|apply Hpos]; assumption.
  - (* both negative *)
    assert (N1 < 0) by (unfold fin_le in Hle; nia).
    destruct N1 as [|p1|p1], N2 as [|p2|p2]; try lia. simpl.
    rewrite !binary_round_opp. apply SFle_opp, binary_round_mono.
    unfold fin_le in *. rewrite (Z.min_comm e2 e1). lia.
  - (* both positive *)
    assert (0 < N2) by (unfold fin_le in Hle; nia).
    destruct N1 as [|p1|p1], N2 as [|p2|p2]; try lia. simpl.
    apply binary_round_mono, Hle.
  - unfold fin_le in Hle. nia.
Qed.

(** *** Validity *)

Lemma bounded_canonical m e :
  bounded prec emax m e = true ->
  fexp (Zdigits2 (Z.pos m) + e) = e /\ e <= emax - prec
  /\ Z.pos m < 2 ^ prec /\ emin <= e
  /\ (emin < e -> 2 ^ (prec - 1) <= Z.pos m).
Proof.
  unfold bounded, canonical_mantissa. intros [Hc He]%andb_true_iff.
  apply Z.eqb_eq in Hc. apply Z.leb_le in He. simpl Zdigits2.
  destruct (digits2_pos_bounds m) as [Hlo Hhi].
  set (d := Z.pos (digits2_pos m)) in *.
  split; [exact Hc|]. split; [exact He|].
  unfold SpecFloat.fexp in Hc. split; [|split; [lia|]].
  - assert (2 ^ d <= 2 ^ prec) by (apply pow2_le; lia). lia.
  - intros Hgt. assert (d = prec) as <- by lia. exact Hlo.
Qed.

(** Rounding leaves a number of the format as it is. *)
Lemma binary_round_valid s m e :
  bounded prec emax m e = true ->
  binary_round prec emax s m e = S754_finite s m e.
Proof.
  intros Hb. destruct (bounded_canonical m e Hb) as (Hc & He & Hm & _).
  unfold binary_round, shl_align. simpl Zdigits2 in Hc. rewrite Hc, Z.sub_diag.
  destruct (binary_round_aux_spec s (Z.pos m) e loc_Exact (Z.pos m) 1)
    as [-> _]; try lia.
  - unfold frac_code. rewrite Z.div_1_r, Z.mod_1_r. simpl. lia.
  - simpl Zdigits2. rewrite Hc. lia.
  - simpl Zdigits2. rewrite Hc, Z.sub_diag. simpl (2 ^ 0).
    unfold frac_code at 1. rewrite Z.mul_1_r, Z.div_1_r, Z.mod_1_r. simpl (_ =? _).
    cbv iota. rewrite Z.add_0_r, rne_exact.
    unfold round_result.
    destruct (Z.ltb_spec (Z.pos m) (2 ^ prec)); [|lia].
    destruct (Z.leb_spec e (emax - prec)); [reflexivity|lia].
Qed.

(** *** Subtraction *)

(** Zero or finite: a float that denotes a number. *)
Definition SFnumber (x : spec_float) : Prop :=
  match x with
  | S754_zero _ | S754_finite _ _ _ => True
  | _ => False
  end.

(** The exponent of the grid a subtraction from [x] works on. *)
Definition sub_exp (x : spec_float) (ec : Z) : Z :=
  match x with
  | S754_finite _ _ e => Z.min e ec
  | _ => ec
  end.

Lemma cond_Zopp_mul s a b : cond_Zopp s a * b = cond_Zopp s (a * b).
Proof. destruct s; simpl; lia. Qed.

(** [x - c] is the rounding of the exact difference. *)
Lemma SFsub_normalize x sc mc ec :
  SFnumber x -> bounded prec emax mc ec = true ->
  let c := S754_finite sc mc ec in
  let ez := sub_exp x ec in
  SFsub prec emax x c
  = binary_normalize prec emax
      (SFsig x * 2 ^ (SFexp x - Z.min (SFexp x) ez) - SFsig c * 2 ^ (ec - ez))
      ez false.
Proof.
  intros Hx Hc c ez.
  destruct x as [sx| | |sx mx ex]; try contradiction; subst ez; simpl sub_exp.
  - (* x is a zero: the result is [- c] *)
    simpl SFsub.
    match goal with
    | |- _ = binary_normalize _ _ ?N _ _ =>
        replace N with (cond_Zopp (negb sc) (Z.pos mc))
          by (unfold c; simpl; rewrite Z.sub_diag; destruct sc; simpl; lia)
    end.
    destruct sc; simpl; rewrite binary_round_valid by exact Hc; reflexivity.
  - simpl SFsub. simpl SFsig. simpl SFexp.
    pose proof (shl_align_spec mx ex (Z.min ex ec)) as [Hs1 Hm1].
    pose proof (shl_align_spec mc ec (Z.min ex ec)) as [Hs2 Hm2].
    rewrite Hm1, Hm2, Hs1, Hs2, !cond_Zopp_mul.
    replace (Z.min ex (Z.min ex ec)) with (Z.min ex ec) by lia.
    replace (Z.min ec (Z.min ex ec)) with (Z.min ex ec) by lia.
    reflexivity.
Qed.

Lemma fin_le_zero_l e m2 e2 : fin_le 0 e m2 e2 <-> 0 <= m2.
Proof.
  unfold fin_le. pose proof (pow2_pos (e2 - Z.min e e2) ltac:(lia)). nia.
Qed.

Lemma fin_le_zero_r m1 e1 e : fin_le m1 e1 0 e <-> m1 <= 0.
Proof.
  unfold fin_le. pose proof (pow2_pos (e1 - Z.min e1 e) ltac:(lia)). nia.
Qed.

(** The order of two numbers on any grid finer than theirs; the exponent
    given to a zero does not matter. *)
Lemma SFle_scaled b x1 x2 e1 e2 :
  SFnumber x1 -> SFnumber x2 -> SFle x1 x2 ->
  (SFsig x1 <> 0 -> e1 = SFexp x1) -> (SFsig x2 <> 0 -> e2 = SFexp x2) ->
  b <= e1 -> b <= e2 ->
  SFsig x1 * 2 ^ (e1 - b) <= SFsig x2 * 2 ^ (e2 - b).
Proof.
  intros H1 H2 Hle He1 He2 Hb1 Hb2.
  pose proof (pow2_pos (e1 - b) ltac:(lia)) as Hp1.
  pose proof (pow2_pos (e2 - b) ltac:(lia)) as Hp2.
  assert (SFle x1 x2 = fin_le (SFsig x1) (SFexp x1) (SFsig x2) (SFexp x2)) as Heq
    by (destruct x1, x2; try contradiction; reflexivity).
  rewrite Heq in Hle. clear Heq.
  destruct (Z.eq_dec (SFsig x1) 0) as [Hz1|Hn1];
    destruct (Z.eq_dec (SFsig x2) 0) as [Hz2|Hn2].
  - rewrite Hz1, Hz2. lia.
  - rewrite Hz1 in *. apply fin_le_zero_l in Hle. nia.
  - rewrite Hz2 in *. apply fin_le_zero_r in Hle. nia.
  - rewrite (He1 Hn1), (He2 Hn2) in *.
    apply (fin_le_base b); assumption.
Qed.

(** Subtracting a number of the format is monotonic. *)
Lemma SFsub_mono x1 x2 sc mc ec :
  SFnumber x1 -> SFnumber x2 -> bounded prec emax mc ec = true ->
  SFle x1 x2 ->
  SFle (SFsub prec emax x1 (S754_finite sc mc ec))
       (SFsub prec emax x2 (S754_finite sc mc ec)).
Proof.
  intros H1 H2 Hc Hle.
  rewrite !SFsub_normalize by assumption.
  apply binary_normalize_mono.
  set (sgc := SFsig (S754_finite sc mc ec)).
  set (z1 := sub_exp x1 ec). set (z2 := sub_exp x2 ec).
  set (b := Z.min z1 z2).
  (* the exponent each number is read at: its own, or [ec] for a zero *)
  set (g1 := match x1 with S754_finite _ _ e => e | _ => ec end).
  set (g2 := match x2 with S754_finite _ _ e => e | _ => ec end).
  assert (z1 = Z.min g1 ec /\ z2 = Z.min g2 ec) as [Hz1 Hz2].
  { unfold z1, z2, g1, g2.
    destruct x1, x2; try contradiction; simpl; lia. }
  assert (SFsig x1 * 2 ^ (SFexp x1 - Z.min (SFexp x1) z1) = SFsig x1 * 2 ^ (g1 - z1))
    as ->.
  { unfold z1, g1. destruct x1; try contradiction; simpl; try lia.
    do 2 f_equal. lia. }
  assert (SFsig x2 * 2 ^ (SFexp x2 - Z.min (SFexp x2) z2) = SFsig x2 * 2 ^ (g2 - z2))
    as ->.
  { unfold z2, g2. destruct x2; try contradiction; simpl; try lia.
    do 2 f_equal. lia. }
  apply (fin_le_base b); [lia|lia|].
  rewrite !Z.mul_sub_distr_r, <- !Z.mul_assoc, <- !Z.pow_add_r by lia.
  replace (g1 - z1 + (z1 - b)) with (g1 - b) by lia.
  replace (g2 - z2 + (z2 - b)) with (g2 - b) by lia.
  replace (ec - z1 + (z1 - b)) with (ec - b) by lia.
  replace (ec - z2 + (z2 - b)) with (ec - b) by lia.
  assert (SFsig x1 * 2 ^ (g1 - b) <= SFsig x2 * 2 ^ (g2 - b)); [|lia].
  apply (SFle_scaled b x1 x2); try assumption; try lia.
  - unfold g1. destruct x1; simpl; try contradiction; lia.
  - unfold g2. destruct x2; simpl; try contradiction; lia.
Qed.

(** *** Division *)

Lemma new_location_code nb k :
  0 < nb -> 0 <= k < nb ->
  loc_code (new_location nb k)
  = if k =? 0 then 0
    else match 2 * k ?= nb with Lt => 1 | Eq => 2 | Gt => 3 end.
Proof.
  intros Hnb Hk. unfold new_location, new_location_even, new_location_odd.
  destruct (Z.even nb) eqn:Hev; destruct (Z.eqb_spec k 0); try reflexivity.
  assert (Z.odd nb = true) as Hodd by (rewrite <- Z.negb_even, Hev; reflexivity).
  apply Z.odd_spec in Hodd. destruct Hodd as [h Hh].
  destruct (Z.compare_spec (2 * k + 1) nb), (Z.compare_spec (2 * k) nb);
    try reflexivity; lia.
Qed.

(** [SFdiv_core_binary] gives the position of the exact quotient on a grid
    fine enough for the target precision. *)
Lemma SFdiv_core_frame my ey md ed :
  let r := SFdiv_core_binary prec emax (Z.pos my) ey (Z.pos md) ed in
  let q := fst (fst r) in
  let e' := snd (fst r) in
  e' <= ey - ed /\ 0 <= q
  /\ 4 * q + loc_code (snd r)
     = frac_code (Z.pos my * 2 ^ (ey - ed - e')) (Z.pos md)
  /\ e' <= fexp (Zdigits2 q + e').
Proof.
  unfold SFdiv_core_binary.
  set (d1 := Zdigits2 (Z.pos my)). set (d2 := Zdigits2 (Z.pos md)).
  set (X := d1 + ey - (d2 + ed)).
  set (e' := Z.min (fexp X) (ey - ed)).
  set (s := ey - ed - e').
  assert (0 <= s) as Hs by (unfold s, e'; lia).
  set (m' := match s with
             | 0 => Z.pos my
             | Z.pos _ => Z.shiftl (Z.pos my) s
             | Z.neg _ => 0
             end).
  assert (m' = Z.pos my * 2 ^ s) as Hm'.
  { unfold m'. destruct s as [|p|p] eqn:Es;
      [change (2 ^ 0) with 1; lia | apply Z.shiftl_mul_pow2; lia | lia]. }
  assert (Z.div_eucl m' (Z.pos md) = (m' / Z.pos md, m' mod Z.pos md)) as Hde.
  { unfold Z.div, Z.modulo. destruct (Z.div_eucl m' (Z.pos md)). reflexivity. }
  rewrite Hde. cbv zeta. simpl fst. simpl snd.
  pose proof (Z.mod_pos_bound m' (Z.pos md) ltac:(lia)) as Hr.
  pose proof (Z.div_mod m' (Z.pos md) ltac:(lia)) as Hdm.
  pose proof (pow2_pos s Hs) as Hps.
  assert (0 <= m' / Z.pos md) as Hq by (apply Z.div_pos; lia).
  split; [unfold e'; lia|]. split; [exact Hq|]. split.
  - rewrite new_location_code by lia. fold s. rewrite <- Hm'. reflexivity.
  - destruct (Zdigits2_bounds (Z.pos my) ltac:(lia)) as [Hlo1 Hhi1].
    destruct (Zdigits2_bounds (Z.pos md) ltac:(lia)) as [Hlo2 Hhi2].
    fold d1 in Hlo1, Hhi1. fold d2 in Hlo2, Hhi2.
    assert (0 < d1) as Hd1 by (apply Zdigits2_pos; lia).
    assert (0 < d2) as Hd2 by (apply Zdigits2_pos; lia).
    assert (2 ^ (d1 - 1 + s) <= m') as Hlo
      by (rewrite Z.pow_add_r by lia; nia).
    destruct (Z.eq_dec (m' / Z.pos md) 0) as [Hq0|Hqn].
    + (* the quotient has no integer part: the grid is the finest one *)
      rewrite Hq0. simpl Zdigits2.
      assert (m' < Z.pos md) by nia.
      assert (d1 - 1 + s < d2) by (apply pow2_lt_inv; lia).
      unfold e', X, SpecFloat.fexp in *. lia.
    + assert (d1 + s - d2 <= Zdigits2 (m' / Z.pos md)) as Hdig.
      { destruct (Z.le_gt_cases (d1 + s - d2) 0) as [Hneg|Hpos].
        - pose proof (Zdigits2_nonneg (m' / Z.pos md)). lia.
        - assert (d1 + s - d2 - 1 < Zdigits2 (m' / Z.pos md)); [|lia].
          apply Zdigits2_ge_pow; [|lia].
          apply Z.div_le_lower_bound; [lia|].
          assert (2 ^ (d1 - 1 + s) = 2 ^ d2 * 2 ^ (d1 + s - d2 - 1)) as Hsp.
          { rewrite <- Z.pow_add_r by lia. f_equal. lia. }
          pose proof (pow2_pos (d1 + s - d2 - 1) ltac:(lia)). nia. }
      assert (X <= Zdigits2 (m' / Z.pos md) + e') as HX by (unfold X, s in *; lia).
      pose proof (fexp_mono _ _ HX). unfold e' in *. lia.
Qed.

Lemma SFdiv_finite sy my ey md ed :
  SFdiv prec emax (S754_finite sy my ey) (S754_finite false md ed)
  = let r := SFdiv_core_binary prec emax (Z.pos my) ey (Z.pos md) ed in
    binary_round_aux prec emax sy (fst (fst r)) (snd (fst r)) (snd r).
Proof.
  simpl. destruct (SFdiv_core_binary _ _ _ _ _ _) as [[q e'] l].
  rewrite xorb_false_r. reflexivity.
Qed.

(** The quotient of a positive number by a positive number does not round
    below zero, and it is monotonic in the dividend. *)
Lemma SFdiv_pos_nonneg my ey md ed :
  SFnonneg (SFdiv prec emax (S754_finite false my ey) (S754_finite false md ed)).
Proof.
  rewrite SFdiv_finite. cbv zeta.
  destruct (SFdiv_core_frame my ey md ed) as (_ & Hq & Hc & Hk).
  destruct (binary_round_aux_spec false _ _ _ _ _ Hq (Pos2Z.is_pos md) Hc Hk)
    as [-> HR].
  apply round_result_nonneg, HR.
Qed.

Lemma SFdiv_pos_mono my1 ey1 my2 ey2 md ed :
  fin_le (Z.pos my1) ey1 (Z.pos my2) ey2 ->
  SFle (SFdiv prec emax (S754_finite false my1 ey1) (S754_finite false md ed))
       (SFdiv prec emax (S754_finite false my2 ey2) (S754_finite false md ed)).
Proof.
  intros Hle. rewrite !SFdiv_finite. cbv zeta.
  destruct (SFdiv_core_frame my1 ey1 md ed) as (He1 & Hq1 & Hc1 & Hk1).
  destruct (SFdiv_core_frame my2 ey2 md ed) as (He2 & Hq2 & Hc2 & Hk2).
  set (r1 := SFdiv_core_binary prec emax (Z.pos my1) ey1 (Z.pos md) ed) in *.
  set (r2 := SFdiv_core_binary prec emax (Z.pos my2) ey2 (Z.pos md) ed) in *.
  set (e1 := snd (fst r1)) in *. set (e2 := snd (fst r2)) in *.
  set (b := Z.min e1 e2).
  pose proof (pow2_pos (e1 - b) ltac:(lia)) as Hp1.
  pose proof (pow2_pos (e2 - b) ltac:(lia)) as Hp2.
  apply (binary_round_aux_mono b (Z.pos md)
           (Z.pos my1 * 2 ^ (ey1 - ed - b)) (Z.pos my2 * 2 ^ (ey2 - ed - b)));
    try assumption; try lia.
  - pose proof (pow2_pos (ey1 - ed - b) ltac:(lia)).
    split; [lia|].
    replace (ey1 - ed - b) with (ey1 - (ed + b)) by lia.
    replace (ey2 - ed - b) with (ey2 - (ed + b)) by lia.
    apply (fin_le_base (ed + b)); [lia|lia|exact Hle].
  - rewrite Hc1.
    replace (ey1 - ed - b) with (ey1 - ed - e1 + (e1 - b)) by lia.
    rewrite Z.pow_add_r, Z.mul_assoc by lia.
    symmetry. apply frac_code_scale; lia.
  - rewrite Hc2.
    replace (ey2 - ed - b) with (ey2 - ed - e2 + (e2 - b)) by lia.
    rewrite Z.pow_add_r, Z.mul_assoc by lia.
    symmetry. apply frac_code_scale; lia.
Qed.

Lemma SFdiv_opp sy my ey md ed :
  SFdiv prec emax (S754_finite (negb sy) my ey) (S754_finite false md ed)
  = SFopp (SFdiv prec emax (S754_finite sy my ey) (S754_finite false md ed)).
Proof.
  rewrite !SFdiv_finite. cbv zeta.
  destruct sy; simpl negb; rewrite binary_round_aux_opp; [|reflexivity].
  destruct (binary_round_aux prec emax false _ _ _) as [[]|[]| |[]]; reflexivity.
Qed.

(** Division by a positive number is monotonic. *)
Lemma SFdiv_mono y1 y2 md ed :
  SFnumber y1 -> SFnumber y2 -> SFle y1 y2 ->
  SFle (SFdiv prec emax y1 (S754_finite false md ed))
       (SFdiv prec emax y2 (S754_finite false md ed)).
Proof.
  intros H1 H2 Hle.
  assert (forall m e,
    SFnonpos (SFdiv prec emax (S754_finite true m e) (S754_finite false md ed)))
    as Hneg.
  { intros m e. rewrite (SFdiv_opp false). apply SFnonpos_opp, SFdiv_pos_nonneg. }
  destruct y1 as [s1| | |[] m1 e1]; try contradiction;
    destruct y2 as [s2| | |[] m2 e2]; try contradiction.
  - simpl. unfold fin_le. simpl. lia.
  - apply SFle_nonpos_nonneg; [exact I|].
    simpl in Hle. apply fin_le_zero_l in Hle. lia.
  - apply SFle_nonpos_nonneg; [exact I|apply SFdiv_pos_nonneg].
  - apply SFle_nonpos_nonneg; [apply Hneg|exact I].
  - (* both negative *)
    rewrite (SFdiv_opp false m1), (SFdiv_opp false m2).
    apply SFle_opp, SFdiv_pos_mono.
    simpl in Hle. unfold fin_le in *. rewrite (Z.min_comm e2 e1). lia.
  - apply SFle_nonpos_nonneg; [apply Hneg|apply SFdiv_pos_nonneg].
  - simpl in Hle. apply fin_le_zero_r in Hle. lia.
  - simpl in Hle. unfold fin_le in Hle.
    pose proof (pow2_pos (e1 - Z.min e1 e2) ltac:(lia)).
    pose proof (pow2_pos (e2 - Z.min e1 e2) ltac:(lia)). nia.
  - apply SFdiv_pos_mono, Hle.
Qed.

(** *** Truncation *)

Lemma SFnumber_between a x b :
  SFnumber a -> SFnumber b -> SFle a x -> SFle x b -> SFnumber x.
Proof.
  destruct a as [| | |], b as [| | |]; try contradiction;
    destruct x as [|[]| |]; simpl; tauto.
Qed.

Lemma SFdiv_number_inv y sd md ed :
  SFnumber (SFdiv prec emax y (S754_finite sd md ed)) -> SFnumber y.
Proof. destruct y as [| | |]; simpl; tauto. Qed.

Lemma SFtrunc_number x n : SFtrunc x = Some n -> SFnumber x.
Proof. destruct x; simpl; try discriminate; tauto. Qed.

(** The truncation as a quotient toward zero on a grid of negative
    exponent. *)
Lemma SFtrunc_quot x b :
  SFnumber x -> b <= 0 -> b <= SFexp x ->
  SFtrunc x = Some (Z.quot (SFsig x * 2 ^ (SFexp x - b)) (2 ^ (- b))).
Proof.
  intros Hx Hb He.
  pose proof (pow2_pos (- b) ltac:(lia)) as Hpb.
  destruct x as [s| | |s m e]; try contradiction; simpl SFsig; simpl SFexp in *.
  - simpl. rewrite Z.quot_0_l by lia. reflexivity.
  - assert (forall k, 0 <= k -> k = e ->
        SFtrunc (S754_finite s m e) = Some (cond_Zopp s (Z.pos m) * 2 ^ k)) as Hnn.
    { intros k Hk ->. destruct e as [|p|p]; try lia; simpl SFtrunc;
        rewrite cond_Zopp_mul; reflexivity. }
    destruct (Z.le_gt_cases 0 e) as [Hpos|Hneg].
    + rewrite (Hnn e Hpos eq_refl). f_equal.
      replace (e - b) with (e + - b) by lia.
      rewrite Z.pow_add_r, Z.mul_assoc, Z.quot_mul by lia. reflexivity.
    + destruct e as [|p|p]; try lia. simpl SFtrunc. f_equal.
      pose proof (pow2_pos (Z.pos p) ltac:(lia)) as Hpp.
      pose proof (pow2_pos (Z.neg p - b) ltac:(lia)) as Hpe.
      replace (2 ^ (- b)) with (2 ^ Z.pos p * 2 ^ (Z.neg p - b))
        by (rewrite <- Z.pow_add_r by lia; f_equal; lia).
      rewrite Z.quot_mul_cancel_r by lia.
      rewrite <- Z.quot_div_nonneg by lia.
      destruct s; simpl; [|reflexivity].
      rewrite <- Z.quot_opp_l by lia. reflexivity.
Qed.

Lemma SFtrunc_mono x y :
  SFnumber x -> SFnumber y -> SFle x y ->
  exists tx ty, SFtrunc x = Some tx /\ SFtrunc y = Some ty /\ tx <= ty.
Proof.
  intros Hx Hy Hle.
  set (b := Z.min 0 (Z.min (SFexp x) (SFexp y))).
  exists (Z.quot (SFsig x * 2 ^ (SFexp x - b)) (2 ^ (- b))),
         (Z.quot (SFsig y * 2 ^ (SFexp y - b)) (2 ^ (- b))).
  split; [apply SFtrunc_quot; try assumption; unfold b; lia|].
  split; [apply SFtrunc_quot; try assumption; unfold b; lia|].
  apply Z.quot_le_mono; [apply pow2_pos; unfold b; lia|].
  apply (SFle_scaled b x y); try assumption; try reflexivity; unfold b; lia.
Qed.

(** *** The comparisons of the format *)

(** Of two positive numbers of the format the one with the smaller
    exponent is the smaller, and with equal exponents the mantissas
    decide. *)
Lemma bounded_lt_exp m1 e1 m2 e2 :
  bounded prec emax m1 e1 = true -> bounded prec emax m2 e2 = true ->
  e1 < e2 -> Z.pos m1 < Z.pos m2 * 2 ^ (e2 - e1)
  /\ 2 ^ (prec - 1) <= Z.pos m2.
Proof.
  intros H1 H2 Hlt.
  destruct (bounded_canonical m1 e1 H1) as (_ & _ & Hm1 & Hmin1 & _).
  destruct (bounded_canonical m2 e2 H2) as (_ & _ & _ & _ & Hn2).
  specialize (Hn2 ltac:(lia)). split; [|exact Hn2].
  assert (2 ^ prec = 2 * 2 ^ (prec - 1)) as Hhalf.
  { replace prec with (Z.succ (prec - 1)) at 1 by lia. apply Z.pow_succ_r. lia. }
  assert (2 <= 2 ^ (e2 - e1)).
  { change 2 with (2 ^ 1) at 1. apply pow2_le. lia. }
  nia.
Qed.

(** A position not below a number that is not negative: [x] is not
    negative either, and the values are ordered. *)
Lemma SFleb_SFle lo x :
  SFnonneg lo -> SFnumber lo ->
  valid_binary prec emax lo = true -> valid_binary prec emax x = true ->
  SFleb lo x = true -> SFnonneg x /\ SFle lo x.
Proof.
  intros Hnn Hnum Hvl Hvx Hle. unfold SFleb in Hle.
  destruct lo as [sl| | |[] ml el]; try contradiction;
    destruct x as [sx|[]| |[] mx ex]; simpl in Hle; try discriminate;
    simpl; (split; [exact I|]); try exact I.
  - unfold fin_le. simpl. lia.
  - apply fin_le_zero_l. lia.
  - simpl in Hvl, Hvx.
    destruct (Z.compare_spec el ex) as [Heq|Hlt|Hgt]; try discriminate.
    + subst ex. unfold fin_le. rewrite Z.min_id, Z.sub_diag. simpl (2 ^ 0).
      rewrite Pos.compare_cont_spec in Hle. simpl in Hle.
      destruct (Pos.compare_spec ml mx); try discriminate; lia.
    + destruct (bounded_lt_exp ml el mx ex Hvl Hvx Hlt) as [H _].
      apply (fin_le_base el); [lia|lia|]. rewrite Z.sub_diag. simpl (2 ^ 0). lia.
Qed.

(** The number of the format just below a positive one. *)
Definition SFpred_pos_fin (m : positive) (e : Z) : spec_float :=
  if (Z.pos m =? 2 ^ (prec - 1)) && (emin <? e)
  then S754_finite false (Z.to_pos (2 ^ prec - 1)) (e - 1)
  else match Z.pos m - 1 with
       | Z.pos p => S754_finite false p e
       | _ => S754_zero false
       end.

Lemma SFltb_pred x mh eh :
  SFnonneg x ->
  valid_binary prec emax x = true -> bounded prec emax mh eh = true ->
  SFltb x (S754_finite false mh eh) = true ->
  SFnumber x /\ SFle x (SFpred_pos_fin mh eh).
Proof.
  intros Hnn Hvx Hvh Hlt. unfold SFltb in Hlt.
  assert (2 ^ prec = 2 * 2 ^ (prec - 1)) as Hhalf.
  { replace prec with (Z.succ (prec - 1)) at 1 by lia. apply Z.pow_succ_r. lia. }
  assert (0 < 2 ^ (prec - 1)) as Hph by (apply pow2_pos; lia).
  assert (SFnonneg (SFpred_pos_fin mh eh)) as Hpnn.
  { unfold SFpred_pos_fin. destruct (_ && _); [exact I|].
    destruct (Z.pos mh - 1); exact I. }
  destruct x as [sx|[]| |[] mx ex]; try contradiction; simpl in Hlt;
    try discriminate; (split; [exact I|]).
  - apply SFle_nonpos_nonneg; [exact I|exact Hpnn].
  - simpl in Hvx.
    destruct (bounded_canonical mx ex Hvx) as (_ & _ & Hmx & Hminx & Hnx).
    destruct (bounded_canonical mh eh Hvh) as (_ & _ & Hmh & Hminh & Hnh).
    unfold SFpred_pos_fin.
    destruct (Z.compare_spec ex eh) as [Heq|Hl|Hg]; try discriminate.
    + (* the same exponent: the mantissa is smaller *)
      subst eh. rewrite Pos.compare_cont_spec in Hlt. simpl in Hlt.
      destruct (Pos.compare_spec mx mh) as [|Hm|]; try discriminate.
      destruct (Z.eqb_spec (Z.pos mh) (2 ^ (prec - 1))) as [Hbot|Hnb];
        destruct (Z.ltb_spec emin ex) as [Hn|Hs]; simpl andb; cbv iota;
        try (specialize (Hnx Hn); lia).
      * destruct (Z.pos mh - 1) as [|p|p] eqn:Ep; try lia. simpl.
        unfold fin_le. rewrite Z.min_id, Z.sub_diag. simpl (2 ^ 0). lia.
      * destruct (Z.pos mh - 1) as [|p|p] eqn:Ep; try lia. simpl.
        unfold fin_le. rewrite Z.min_id, Z.sub_diag. simpl (2 ^ 0). lia.
      * destruct (Z.pos mh - 1) as [|p|p] eqn:Ep; try lia. simpl.
        unfold fin_le. rewrite Z.min_id, Z.sub_diag. simpl (2 ^ 0). lia.
    + (* a smaller exponent *)
      specialize (Hnh ltac:(lia)).
      destruct (Z.eqb_spec (Z.pos mh) (2 ^ (prec - 1))) as [Hbot|Hnb];
        destruct (Z.ltb_spec emin eh) as [Hn|Hs]; simpl andb; cbv iota; try lia.
      * simpl. apply (fin_le_base ex); [lia|lia|].
        rewrite Z.sub_diag. simpl (2 ^ 0).
        rewrite Z2Pos.id by lia.
        pose proof (pow2_pos (eh - 1 - ex) ltac:(lia)). nia.
      * destruct (Z.pos mh - 1) as [|p|p] eqn:Ep; try lia. simpl.
        apply (fin_le_base ex); [lia|lia|].
        rewrite Z.sub_diag. simpl (2 ^ 0).
        assert (2 <= 2 ^ (eh - ex)).
        { change 2 with (2 ^ 1) at 1. apply pow2_le. lia. }
        nia.
Qed.

End Rounding.

(** ** The cell under the cursor *)

(** [(pos - 50) / 100] in double precision: what [cell_index] truncates for
    cells of 100 pixels. *)
Definition cell_pos (pos : spec_float) : spec_float :=
  F64.div (F64.sub pos (F64.of_int 50)) (F64.of_int 100).

Lemma cell_index_cell_pos pos :
  cell_index pos QUAD_W = static_cast_int (cell_pos pos)
  /\ cell_index pos QUAD_H = static_cast_int (cell_pos pos).
Proof. split; reflexivity. Qed.

Lemma F64_prec_pos : 0 < F64.prec.
Proof. reflexivity. Qed.

(** Between two positions with the same truncated [cell_pos], every
    position has that one. *)
Lemma cell_pos_between lo ph x n :
  SFnumber lo -> SFnumber ph -> SFle lo x -> SFle x ph ->
  SFtrunc (cell_pos lo) = Some n -> SFtrunc (cell_pos ph) = Some n ->
  SFtrunc (cell_pos x) = Some n.
Proof.
  intros Hlo Hph Hlx Hxp Tlo Tph.
  pose proof (SFnumber_between lo x ph Hlo Hph Hlx Hxp) as Hx.
  unfold cell_pos in *.
  assert (exists m50 e50, F64.of_int 50 = S754_finite false m50 e50
            /\ bounded F64.prec F64.emax m50 e50 = true)
    as (m50 & e50 & E50 & B50) by (eexists _, _; split; reflexivity).
  assert (exists m100 e100, F64.of_int 100 = S754_finite false m100 e100)
    as (m100 & e100 & E100) by (eexists _, _; reflexivity).
  rewrite E50, E100 in *.
  set (c50 := S754_finite false m50 e50) in *.
  set (c100 := S754_finite false m100 e100) in *.
  (* the subtraction *)
  pose proof (SFsub_mono F64.prec F64.emax F64_prec_pos lo x false m50 e50
                Hlo Hx B50 Hlx) as Hs1.
  pose proof (SFsub_mono F64.prec F64.emax F64_prec_pos x ph false m50 e50
                Hx Hph B50 Hxp) as Hs2.
  fold c50 in Hs1, Hs2. fold (F64.sub lo c50) (F64.sub x c50) in Hs1.
  fold (F64.sub ph c50) (F64.sub x c50) in Hs2.
  pose proof (SFdiv_number_inv F64.prec F64.emax _ false m100 e100
                (SFtrunc_number _ _ Tlo)) as Nlo.
  pose proof (SFdiv_number_inv F64.prec F64.emax _ false m100 e100
                (SFtrunc_number _ _ Tph)) as Nph.
  pose proof (SFnumber_between _ _ _ Nlo Nph Hs1 Hs2) as Nx.
  (* the division *)
  pose proof (SFdiv_mono F64.prec F64.emax F64_prec_pos _ _ m100 e100
                Nlo Nx Hs1) as Hd1.
  pose proof (SFdiv_mono F64.prec F64.emax F64_prec_pos _ _ m100 e100
                Nx Nph Hs2) as Hd2.
  fold c100 in Hd1, Hd2.
  fold (F64.div (F64.sub lo c50) c100) (F64.div (F64.sub x c50) c100) in Hd1.
  fold (F64.div (F64.sub ph c50) c100) (F64.div (F64.sub x c50) c100) in Hd2.
  pose proof (SFnumber_between _ _ _ (SFtrunc_number _ _ Tlo)
                (SFtrunc_number _ _ Tph) Hd1 Hd2) as Nq.
  (* the truncation *)
  destruct (SFtrunc_mono _ _ (SFtrunc_number _ _ Tlo) Nq Hd1)
    as (a & t & Ha & Ht & Hat).
  destruct (SFtrunc_mono _ _ Nq (SFtrunc_number _ _ Tph) Hd2)
    as (t' & b & Ht' & Hb & Htb).
  rewrite Tlo in Ha. rewrite Tph in Hb. rewrite Ht in Ht'.
  inversion Ha. inversion Hb. inversion Ht'. subst.
  rewrite Ht. f_equal. lia.
Qed.

(** The left half of the drawn cell [c] of a row or column: the positions
    of [c * 100 <= pos < c * 100 + 50]. *)
Definition left_half (c : Z) (pos : spec_float) : Prop :=
  F64.valid pos = true
  /\ SFleb (F64.of_int (c * 100)) pos = true
  /\ SFltb pos (F64.of_int (c * 100 + 50)) = true.

(** The cell [cell_index] gives at the two ends of the left half of the
    drawn cell [c]: the one before it, or cell 0 itself. *)
Definition left_half_ends (c : Z) : bool :=
  match F64.of_int (c * 100), F64.of_int (c * 100 + 50) with
  | S754_finite true _ _, _ => false
  | lo, S754_finite false mh eh =>
      F64.valid lo && bounded F64.prec F64.emax mh eh
      && match lo with S754_zero _ | S754_finite _ _ _ => true | _ => false end
      && match SFtrunc (cell_pos lo),
               SFtrunc (cell_pos (SFpred_pos_fin F64.prec F64.emax mh eh)) with
         | Some a, Some b => (a =? Z.max 0 (c - 1)) && (b =? Z.max 0 (c - 1))
         | _, _ => false
         end
  | _, _ => false
  end.

Lemma left_half_ends_below c :
  0 <= c < Z.pos exact_dim -> left_half_ends c = true.
Proof.
  apply check_below_spec. vm_cast_no_check (eq_refl true).
Qed.

Lemma SFpred_pos_fin_number prec emax m e :
  SFnumber (SFpred_pos_fin prec emax m e).
Proof.
  unfold SFpred_pos_fin. destruct (_ && _); [exact I|].
  destruct (Z.pos m - 1); exact I.
Qed.

Lemma left_half_cell_pos c pos :
  0 <= c < Z.pos exact_dim -> left_half c pos ->
  SFtrunc (cell_pos pos) = Some (Z.max 0 (c - 1)).
Proof.
  intros Hc (Hv & Hlo & Hhi).
  pose proof (left_half_ends_below c Hc) as Hends.
  unfold left_half_ends in Hends.
  destruct (F64.of_int (c * 100)) as [sl| | |[] ml el] eqn:Elo; try discriminate;
    destruct (F64.of_int (c * 100 + 50)) as [| | |[] mh eh] eqn:Ehi;
    try discriminate;
    apply andb_true_iff in Hends; destruct Hends as [Hends Ht];
    apply andb_true_iff in Hends; destruct Hends as [Hends Hn];
    try discriminate Hn;
    apply andb_true_iff in Hends; destruct Hends as [Hvl Hvh];
    (destruct (SFtrunc (cell_pos _)) as [a|] eqn:Ta; [|discriminate]);
    (destruct (SFtrunc (cell_pos (SFpred_pos_fin _ _ _ _))) as [b|] eqn:Tb;
      [|discriminate]);
    apply andb_true_iff in Ht; destruct Ht as [Ha Hb];
    apply Z.eqb_eq in Ha, Hb; subst a b.
  - destruct (SFleb_SFle F64.prec F64.emax F64_prec_pos (S754_zero sl) pos
                I I Hvl Hv Hlo) as [Hnn Hle].
    destruct (SFltb_pred F64.prec F64.emax F64_prec_pos pos mh eh Hnn Hv Hvh Hhi)
      as [_ Hlp].
    exact (cell_pos_between (S754_zero sl) _ pos _ I
             (SFpred_pos_fin_number _ _ _ _) Hle Hlp Ta Tb).
  - destruct (SFleb_SFle F64.prec F64.emax F64_prec_pos
                (S754_finite false ml el) pos I I Hvl Hv Hlo) as [Hnn Hle].
    destruct (SFltb_pred F64.prec F64.emax F64_prec_pos pos mh eh Hnn Hv Hvh Hhi)
      as [_ Hlp].
    exact (cell_pos_between (S754_finite false ml el) _ pos _ I
             (SFpred_pos_fin_number _ _ _ _) Hle Hlp Ta Tb).
Qed.

Lemma static_cast_int_trunc d n :
  SFtrunc d = Some n -> INT_MIN <= n <= INT_MAX -> static_cast_int d = n.
Proof.
  intros Ht Hn. unfold static_cast_int. rewrite Ht.
  destruct (Z.leb_spec INT_MIN n), (Z.leb_spec n INT_MAX); simpl; lia.
Qed.

(** A position in the left half of the drawn cell [c] has the index of the
    cell before it, and in the left half of cell 0 the index 0. *)
Lemma left_half_cell_index c pos :
  0 <= c < Z.pos exact_dim -> left_half c pos ->
  cell_index pos QUAD_W = Z.max 0 (c - 1)
  /\ cell_index pos QUAD_H = Z.max 0 (c - 1).
Proof.
  intros Hc Hpos.
  pose proof (left_half_cell_pos c pos Hc Hpos) as Ht.
  destruct (cell_index_cell_pos pos) as [-> ->].
  assert (static_cast_int (cell_pos pos) = Z.max 0 (c - 1)) as ->.
  { apply static_cast_int_trunc; [exact Ht|].
    unfold INT_MIN, INT_MAX.
    assert (Z.pos exact_dim < 2 ^ 31) by reflexivity.
    assert (- 2 ^ 31 < 0) by reflexivity. lia. }
  split; reflexivity.
Qed.


(** ** The game *)

Section Game.

(** The grid's dimensions ([const GLuint ROWS = 6], [COLS = 8] in the source;
    the specification's scenario uses a 2 x 2 grid). *)
Variables ROWS COLS : nat.

(** The C library's pseudo-random generator: its hidden state and [rand()]. *)
Context {RandState : Type}.
Variable rand : RandState -> Z * RandState.

Record State := mkState {
  grid : Grid;
  attempts : Z;
  score : Z;
  gameOver : bool;
  iSelected : Z;
  randState : RandState
}.

Definition set_grid (g : Grid) (st : State) : State :=
  mkState g (attempts st) (score st) (gameOver st) (iSelected st) (randState st).
Definition set_attempts (n : Z) (st : State) : State :=
  mkState (grid st) n (score st) (gameOver st) (iSelected st) (randState st).
Definition set_score (n : Z) (st : State) : State :=
  mkState (grid st) (attempts st) n (gameOver st) (iSelected st) (randState st).
Definition set_gameOver (b : bool) (st : State) : State :=
  mkState (grid st) (attempts st) (score st) b (iSelected st) (randState st).
Definition set_iSelected (n : Z) (st : State) : State :=
  mkState (grid st) (attempts st) (score st) (gameOver st) n (randState st).
Definition set_randState (r : RandState) (st : State) : State :=
  mkState (grid st) (attempts st) (score st) (gameOver st) (iSelected st) r.

(** *** [eliminarSimilares] *)

(** The body of the scan at cell [(i, j)]; the loop state is the grid and
    [removedCount]. *)
Definition scan_cell (tol : spec_float) (target : vec3) (i j : nat)
    (acc : Grid * Z) : Grid * Z :=
  let '(g, removedCount) := acc in
  if negb (eliminated (grid_at g i j)) then
    let c := color (grid_at g i j) in
    if SFleb (normalizedDist c target) tol
    then (grid_set g i j (Quad_set_eliminated true (grid_at g i j)), removedCount + 1)
    else acc
  else acc.

Definition eliminarSimilares (toleranciaNormalized : spec_float) (st : State)
    : Z * State :=
  if iSelected st <? 0 then (0, st)
  else
    let row := Z.to_nat (to_int (to_uint (iSelected st) / Z.of_nat COLS)) in
    let col := Z.to_nat (to_int (to_uint (iSelected st) mod Z.of_nat COLS)) in
    let g1 := grid_set (grid st) row col
                (Quad_set_eliminated true (grid_at (grid st) row col)) in
    let target := color (grid_at g1 row col) in
    let '(g2, removedCount) :=
      for_range ROWS (fun i =>
        for_range COLS (fun j => scan_cell toleranciaNormalized target i j))
        (g1, 1) in
    (removedCount, set_iSelected (-1) (set_grid g2 st)).

(** *** [anyActiveCell] *)

(** The early [return true] leaves both loops: once found, the answer stays. *)
Definition anyActiveCell (st : State) : bool :=
  for_range ROWS (fun i =>
    for_range COLS (fun j (found : bool) =>
      if found then true
      else negb (eliminated (grid_at (grid st) i j))))
    false.

(** *** [resetGame] *)

Definition reset_cell (i j : nat) (acc : Grid * RandState) : Grid * RandState :=
  let '(g, rs) := acc in
  let pos := center i j in
  let dims := mkvec3 (F32.of_int QUAD_W) (F32.of_int QUAD_H) (F32.of_int 1) in
  let '(n1, rs1) := rand rs in
  let '(n2, rs2) := rand rs1 in
  let '(n3, rs3) := rand rs2 in
  let col := mkvec3 (channel n1) (channel n2) (channel n3) in
  (grid_set g i j (mkQuad pos dims col false), rs3).

Definition resetGame (st : State) : State :=
  let '(g, rs) :=
    for_range ROWS (fun i => for_range COLS (fun j => reset_cell i j))
      (grid st, randState st) in
  mkState g 0 0 false (-1) rs.

(** *** [mouse_button_callback] *)

(** [xpos], [ypos] are what [glfwGetCursorPos] reports at the time of the
    call.  [row * COLS + col] is computed in [unsigned] and stored in an
    [int]. *)
Definition mouse_button_callback (button action : Z) (xpos ypos : spec_float)
    (st : State) : State :=
  if (button =? GLFW_MOUSE_BUTTON_LEFT) && (action =? GLFW_PRESS)
     && negb (gameOver st) then
    let col := cell_index xpos QUAD_W in
    let row := cell_index ypos QUAD_H in
    if (col >=? 0) && (col <? Z.of_nat COLS) && (row >=? 0) && (row <? Z.of_nat ROWS) then
      if negb (eliminated (grid_at (grid st) (Z.to_nat row) (Z.to_nat col))) then
        set_iSelected
          (to_int (to_uint (to_uint row * Z.of_nat COLS) + to_uint col)) st
      else st
    else st
  else st.

(** *** [key_callback] *)

(** Escape only asks the window to close; R restarts the game. *)
Definition key_callback (key action : Z) (st : State) : State :=
  if (key =? GLFW_KEY_ESCAPE) && (action =? GLFW_PRESS) then st
  else if (key =? GLFW_KEY_R) && (action =? GLFW_PRESS) then resetGame st
  else st.

(** *** The body of the main loop after [glfwPollEvents] *)

Definition process_selection (st : State) : State :=
  if (iSelected st >=? 0) && negb (gameOver st) then
    let '(removedCount, st1) := eliminarSimilares COLOR_TOLERANCE st in
    let st2 :=
      if removedCount >? 0 then
        let st' := set_attempts (attempts st1 + 1) st1 in
        let penalty := attempts st' in
        let st'' := set_score (score st' + (removedCount - penalty)) st' in
        if score st'' <? 0 then set_score 0 st'' else st''
      else st1 in
    let st3 := if negb (anyActiveCell st2) then set_gameOver true st2 else st2 in
    set_iSelected (-1) st3
  else st.

(** *** Runs of the program *)

(** What one turn of the main loop can deliver: the callbacks fired by
    [glfwPollEvents], then the processing of the pending selection. *)
Inductive Event :=
  | MouseButton (button action : Z) (xpos ypos : spec_float)
  | Key (key action : Z)
  | Frame.

Definition step (st : State) (e : Event) : State :=
  match e with
  | MouseButton button action xpos ypos =>
      mouse_button_callback button action xpos ypos st
  | Key key action => key_callback key action st
  | Frame => process_selection st
  end.

Definition run (evs : list Event) (st : State) : State := fold_left step evs st.

(** The statics before [main] runs, and the state when the loop is entered:
    [main] calls [resetGame] once. *)
Definition static_state (rs : RandState) : State :=
  mkState (replicate ROWS (replicate COLS Quad0)) 0 0 false (-1) rs.

Definition initial_state (rs : RandState) : State := resetGame (static_state rs).



(** ** Scanning the whole grid *)

(** Every cell of the grid, in the order the nested loops visit them. *)
Definition cells : list (nat * nat) := list_prod (seq 0 ROWS) (seq 0 COLS).

Lemma in_cells i j : In (i, j) cells <-> (i < ROWS)%nat /\ (j < COLS)%nat.
Proof.
  unfold cells. rewrite in_prod_iff, !in_seq. lia.
Qed.

Lemma list_prod_app {A B : Type} (l1 l2 : list A) (l : list B) :
  list_prod (l1 ++ l2) l = list_prod l1 l ++ list_prod l2 l.
Proof.
  induction l1 as [|a l1 IH]; simpl; [reflexivity|].
  rewrite IH. apply app_assoc.
Qed.

(** An invariant [P] over the cells visited so far holds of all cells when
    the two loops end. *)
Lemma grid_loop_ind {S : Type} (P : list (nat * nat) -> S -> Prop)
    (body : nat -> nat -> S -> S) (s : S) :
  P [] s ->
  (forall l i j t, (i < ROWS)%nat -> (j < COLS)%nat -> ~ In (i, j) l ->
     P l t -> P (l ++ [(i, j)]) (body i j t)) ->
  P cells (for_range ROWS (fun i => for_range COLS (fun j => body i j)) s).
Proof.
  intros H0 Hstep. unfold cells.
  apply (for_range_ind (fun k t => P (list_prod (seq 0 k) (seq 0 COLS)) t));
    [exact H0|].
  intros k t Hk Hout.
  rewrite seq_S, list_prod_app. simpl. rewrite app_nil_r.
  apply (for_range_ind
           (fun m t => P (list_prod (seq 0 k) (seq 0 COLS)
                            ++ map (pair k) (seq 0 m)) t)).
  - simpl. rewrite app_nil_r. exact Hout.
  - intros m u Hm Hin.
    rewrite seq_S, map_app, app_assoc. simpl.
    apply Hstep; [exact Hk|exact Hm| |exact Hin].
    rewrite in_app_iff, in_prod_iff, in_map_iff, !in_seq.
    intros [[? _]|[x [Hx Hs]]]; [lia|].
    apply in_seq in Hs. inversion Hx. lia.
Qed.

(** ** [eliminarSimilares]: what the scan does to each cell *)

(** The test of the scan on the colour of a cell. *)
Definition similar (tol : spec_float) (target : vec3) (q : Quad) : bool :=
  SFleb (normalizedDist (color q) target) tol.

(** The cells the scan removes from a grid [g]: not yet eliminated and
    within tolerance of the target. *)
Definition removable (tol : spec_float) (target : vec3) (g : Grid)
    (p : nat * nat) : bool :=
  negb (eliminated (grid_at g (fst p) (snd p)))
  && similar tol target (grid_at g (fst p) (snd p)).

Definition scanned (tol : spec_float) (target : vec3) (q : Quad) : Quad :=
  if negb (eliminated q) && similar tol target q
  then Quad_set_eliminated true q else q.

Lemma scan_grid tol target g0 c0 :
  wf_grid ROWS COLS g0 ->
  let r := for_range ROWS (fun i =>
             for_range COLS (fun j => scan_cell tol target i j)) (g0, c0) in
  wf_grid ROWS COLS (fst r)
  /\ (forall i j, (i < ROWS)%nat -> (j < COLS)%nat ->
        grid_at (fst r) i j = scanned tol target (grid_at g0 i j))
  /\ snd r = c0 + Z.of_nat (length (List.filter (removable tol target g0) cells)).
Proof.
  intros Hwf r. subst r.
  pose (P := fun (l : list (nat * nat)) (t : Grid * Z) =>
    wf_grid ROWS COLS (fst t)
    /\ (forall i j, In (i, j) l ->
          grid_at (fst t) i j = scanned tol target (grid_at g0 i j))
    /\ (forall i j, ~ In (i, j) l -> grid_at (fst t) i j = grid_at g0 i j)
    /\ snd t = c0 + Z.of_nat (length (List.filter (removable tol target g0) l))).
  assert (P cells (for_range ROWS (fun i =>
             for_range COLS (fun j => scan_cell tol target i j)) (g0, c0)))
    as (Hw & Hin & _ & Hc).
  { apply grid_loop_ind.
    - unfold P. simpl. refine (conj Hwf (conj _ (conj _ _))).
      + intros ? ? [].
      + reflexivity.
      + lia.
    - intros l i j [g c] Hi Hj Hnew (Hw & Hin & Hout & Hc). simpl in *.
      assert (grid_at g i j = grid_at g0 i j) as Hcur by (apply Hout, Hnew).
      unfold P, scan_cell. rewrite Hcur.
      rewrite List.filter_app, length_app. simpl.
      unfold removable at 2. simpl.
      destruct (eliminated (grid_at g0 i j)) eqn:He; simpl.
      + refine (conj Hw (conj _ (conj _ _))).
        * intros i' j' [H|[H|[]]]%in_app_iff; [apply Hin, H|].
          inversion H; subst. unfold scanned. rewrite He. simpl. exact Hcur.
        * intros i' j' H. apply Hout. rewrite in_app_iff in H. tauto.
        * lia.
      + fold (similar tol target (grid_at g0 i j)).
        destruct (similar tol target (grid_at g0 i j)) eqn:Hs; simpl.
        * refine (conj (grid_set_wf _ _ _ _ _ _ Hw) (conj _ (conj _ _))).
          -- intros i' j' [H|[H|[]]]%in_app_iff.
             ++ rewrite grid_at_set_ne by (intros Heq; inversion Heq; subst; tauto).
                apply Hin, H.
             ++ inversion H; subst.
                rewrite (grid_at_set_eq ROWS COLS) by assumption.
                unfold scanned. rewrite He, Hs. reflexivity.
          -- intros i' j' H. rewrite in_app_iff in H.
             rewrite grid_at_set_ne by (intros Heq; inversion Heq; subst; simpl in H; tauto).
             apply Hout. tauto.
          -- lia.
        * refine (conj Hw (conj _ (conj _ _))).
          -- intros i' j' [H|[H|[]]]%in_app_iff; [apply Hin, H|].
             inversion H; subst. unfold scanned. rewrite He, Hs. exact Hcur.
          -- intros i' j' H. apply Hout. rewrite in_app_iff in H. tauto.
          -- lia. }
  refine (conj Hw (conj _ Hc)).
  intros i j Hi Hj. apply Hin, in_cells. split; assumption.
Qed.


(** ** The pending selection *)

(** The grid fits [int] indices, as the source's 6 x 8 does. *)
Hypothesis dims_int : Z.of_nat ROWS * Z.of_nat COLS < 2 ^ 31.

(** [n] is the linear index of the cell [(i, j)] of the grid. *)
Definition selected (n : Z) (i j : nat) : Prop :=
  (i < ROWS)%nat /\ (j < COLS)%nat
  /\ n = Z.of_nat i * Z.of_nat COLS + Z.of_nat j.

Lemma selected_bounds n i j :
  selected n i j -> 0 <= n < 2 ^ 31.
Proof.
  intros (Hi & Hj & ->). split; [lia|]. nia.
Qed.

Lemma to_uint_small n : 0 <= n < 2 ^ 31 -> to_uint n = n.
Proof. intros H. unfold to_uint. apply Z.mod_small. lia. Qed.

Lemma to_int_small n : 0 <= n < 2 ^ 31 -> to_int n = n.
Proof.
  intros H. unfold to_int. rewrite Z.mod_small by lia.
  destruct (Z.ltb_spec n (2 ^ 31)); [reflexivity|lia].
Qed.

(** [iSelected / COLS] and [iSelected % COLS] recover the row and column. *)
Lemma selected_decode n i j :
  selected n i j ->
  Z.to_nat (to_int (to_uint n / Z.of_nat COLS)) = i
  /\ Z.to_nat (to_int (to_uint n mod Z.of_nat COLS)) = j.
Proof.
  intros Hsel. pose proof (selected_bounds _ _ _ Hsel) as Hb.
  destruct Hsel as (Hi & Hj & ->).
  rewrite to_uint_small by exact Hb.
  assert ((Z.of_nat i * Z.of_nat COLS + Z.of_nat j) / Z.of_nat COLS = Z.of_nat i) as Hd.
  { symmetry. apply Z.div_unique with (Z.of_nat j); lia. }
  assert ((Z.of_nat i * Z.of_nat COLS + Z.of_nat j) mod Z.of_nat COLS = Z.of_nat j) as Hm.
  { symmetry. apply Z.mod_unique with (Z.of_nat i); lia. }
  rewrite Hd, Hm, !to_int_small by nia.
  split; apply Nat2Z.id.
Qed.

(** [row * COLS + col] does not wrap for a cell of the grid. *)
Lemma selected_encode (row col : Z) :
  0 <= row < Z.of_nat ROWS -> 0 <= col < Z.of_nat COLS ->
  to_int (to_uint (to_uint row * Z.of_nat COLS) + to_uint col)
  = row * Z.of_nat COLS + col
  /\ selected (row * Z.of_nat COLS + col) (Z.to_nat row) (Z.to_nat col).
Proof.
  intros Hr Hc.
  rewrite (to_uint_small row), (to_uint_small col),
    (to_uint_small (row * _)), to_int_small by nia.
  split; [reflexivity|]. unfold selected. rewrite !Z2Nat.id by lia. lia.
Qed.

(** The result of [eliminarSimilares] when the cell [(i, j)] is selected:
    [g1] is the grid once the clicked cell is marked, and the loops leave
    every cell as [scanned] makes it. *)
Lemma eliminarSimilares_selected tol st i j :
  wf_grid ROWS COLS (grid st) -> selected (iSelected st) i j ->
  let g1 := grid_set (grid st) i j
              (Quad_set_eliminated true (grid_at (grid st) i j)) in
  let target := color (grid_at (grid st) i j) in
  let r := eliminarSimilares tol st in
  fst r = 1 + Z.of_nat (length (List.filter (removable tol target g1) cells))
  /\ wf_grid ROWS COLS (grid (snd r))
  /\ (forall i' j', (i' < ROWS)%nat -> (j' < COLS)%nat ->
        grid_at (grid (snd r)) i' j' = scanned tol target (grid_at g1 i' j'))
  /\ snd r = set_iSelected (-1) (set_grid (grid (snd r)) st).
Proof.
  intros Hwf Hsel g1 target r.
  pose proof (selected_bounds _ _ _ Hsel) as Hb.
  destruct (selected_decode _ _ _ Hsel) as [Hrow Hcol].
  destruct Hsel as (Hi & Hj & Hn).
  assert (wf_grid ROWS COLS g1) as Hwf1 by apply grid_set_wf, Hwf.
  assert (color (grid_at g1 i j) = target) as Htgt.
  { unfold g1. rewrite (grid_at_set_eq ROWS COLS) by assumption. reflexivity. }
  destruct (scan_grid tol target g1 1 Hwf1) as (Hw2 & Hcells & Hcnt).
  subst r. unfold eliminarSimilares.
  destruct (Z.ltb_spec (iSelected st) 0) as [Hneg|_]; [lia|].
  rewrite Hrow, Hcol. fold g1. rewrite Htgt.
  destruct (for_range ROWS _ (g1, 1)) as [g2 c] eqn:Hloop.
  simpl in *. auto.
Qed.


Lemma cells_ind (Q : list (nat * nat) -> Prop) :
  Q [] ->
  (forall l i j, (i < ROWS)%nat -> (j < COLS)%nat -> ~ In (i, j) l ->
     Q l -> Q (l ++ [(i, j)])) ->
  Q cells.
Proof.
  intros H0 Hstep.
  apply (grid_loop_ind (fun l (_ : unit) => Q l) (fun _ _ t => t) tt);
    [exact H0|].
  intros l i j _. apply Hstep.
Qed.

(** The clicked cell is marked, and every other cell is as the scan of its
    former self. *)
Lemma eliminarSimilares_clicked tol st i j :
  wf_grid ROWS COLS (grid st) -> selected (iSelected st) i j ->
  eliminated (grid_at (grid (snd (eliminarSimilares tol st))) i j) = true.
Proof.
  intros Hwf Hsel.
  destruct (eliminarSimilares_selected tol st i j Hwf Hsel) as (_ & _ & Hc & _).
  destruct Hsel as (Hi & Hj & _).
  rewrite Hc, (grid_at_set_eq ROWS COLS) by assumption.
  unfold scanned. simpl. reflexivity.
Qed.

Lemma eliminarSimilares_other tol st i j i' j' :
  wf_grid ROWS COLS (grid st) -> selected (iSelected st) i j ->
  (i' < ROWS)%nat -> (j' < COLS)%nat -> (i', j') <> (i, j) ->
  grid_at (grid (snd (eliminarSimilares tol st))) i' j'
  = scanned tol (color (grid_at (grid st) i j)) (grid_at (grid st) i' j').
Proof.
  intros Hwf Hsel Hi' Hj' Hne.
  destruct (eliminarSimilares_selected tol st i j Hwf Hsel) as (_ & _ & Hc & _).
  rewrite Hc, grid_at_set_ne by congruence || assumption. reflexivity.
Qed.

Lemma eliminated_scanned tol target q :
  eliminated (scanned tol target q) = eliminated q || similar tol target q.
Proof.
  unfold scanned.
  destruct (eliminated q) eqn:He, (similar tol target q); simpl;
    try rewrite He; reflexivity.
Qed.

Lemma color_scanned tol target q : color (scanned tol target q) = color q.
Proof.
  unfold scanned. destruct (negb (eliminated q) && similar tol target q); reflexivity.
Qed.

(** A cell that a call turned from active to eliminated. *)
Definition newly_eliminated (g g' : Grid) (p : nat * nat) : bool :=
  negb (eliminated (grid_at g (fst p) (snd p)))
  && eliminated (grid_at g' (fst p) (snd p)).

(** With an active clicked cell, the cells a call eliminates are the
    clicked one and those the scan removes. *)
Lemma newly_eliminated_count tol st i j :
  wf_grid ROWS COLS (grid st) -> selected (iSelected st) i j ->
  eliminated (grid_at (grid st) i j) = false ->
  let g1 := grid_set (grid st) i j
              (Quad_set_eliminated true (grid_at (grid st) i j)) in
  let target := color (grid_at (grid st) i j) in
  let g' := grid (snd (eliminarSimilares tol st)) in
  length (List.filter (newly_eliminated (grid st) g') cells)
  = Datatypes.S (length (List.filter (removable tol target g1) cells)).
Proof.
  intros Hwf Hsel Hact g1 target g'.
  pose proof (eliminarSimilares_clicked tol st i j Hwf Hsel) as Hclk.
  pose proof (fun i' j' => eliminarSimilares_other tol st i j i' j' Hwf Hsel)
    as Hoth.
  fold g' in Hclk, Hoth. fold target in Hoth.
  assert (In (i, j) cells) as Hin by (apply in_cells; split; apply Hsel).
  revert Hin.
  apply (cells_ind (fun l =>
    (In (i, j) l -> length (List.filter (newly_eliminated (grid st) g') l)
        = Datatypes.S (length (List.filter (removable tol target g1) l)))
    /\ (~ In (i, j) l -> length (List.filter (newly_eliminated (grid st) g') l)
        = length (List.filter (removable tol target g1) l)))).
  - split; [intros []|reflexivity].
  - intros l a b Ha Hb Hnew [IH1 IH2].
    rewrite !List.filter_app, !length_app, in_app_iff. simpl.
    destruct (decide ((a, b) = (i, j))) as [Heq|Hne].
    + inversion Heq; subst a b.
      unfold newly_eliminated at 2 4, removable at 2 4. simpl.
      unfold g1 at 2 3 5 6. rewrite (grid_at_set_eq ROWS COLS) by assumption.
      rewrite Hact, Hclk. simpl.
      split; [intros _; rewrite IH2 by exact Hnew; lia | tauto].
    + assert (newly_eliminated (grid st) g' (a, b) = removable tol target g1 (a, b))
        as ->.
      { unfold newly_eliminated, removable, g1. simpl.
        rewrite Hoth by assumption.
        rewrite grid_at_set_ne by congruence.
        rewrite eliminated_scanned.
        destruct (eliminated (grid_at (grid st) a b)); reflexivity. }
      split.
      * intros [H|[H|[]]]; [|congruence]. rewrite IH1 by exact H. lia.
      * intros H. rewrite IH2 by tauto. lia.
Qed.

(** What the scan does to the flag of a cell other than the selected one,
    by the test of the scan. *)
Lemma eliminarSimilares_flag tol st i j i' j' :
  wf_grid ROWS COLS (grid st) -> selected (iSelected st) i j ->
  (i' < ROWS)%nat -> (j' < COLS)%nat -> (i', j') <> (i, j) ->
  let target := color (grid_at (grid st) i j) in
  let c := color (grid_at (grid st) i' j') in
  let before := eliminated (grid_at (grid st) i' j') in
  let after := eliminated (grid_at (grid (snd (eliminarSimilares tol st))) i' j') in
  ((before = false /\ after = true)
   <-> (before = false /\ SFleb (normalizedDist c target) tol = true))
  /\ (SFleb (normalizedDist c target) tol = false -> after = before).
Proof.
  intros Hwf Hsel Hi' Hj' Hne target c before after.
  subst after. rewrite (eliminarSimilares_other tol st i j) by assumption.
  rewrite eliminated_scanned. fold target before.
  unfold similar. fold c.
  destruct before, (SFleb (normalizedDist c target) tol); simpl;
    intuition congruence.
Qed.

(** C1, as amended: in a resolution of the pending selection of cell
    [(i, j)], whose colour is the target, with tolerance [tol], a cell
    [(i', j')] other than the selected one is eliminated by the call if and
    only if it was not eliminated before and [normalized <= tol], where
    [normalized] is [sqrt(dr^2 + dg^2 + db^2) / sqrt(3)] computed in IEEE-754
    single precision (24 bits, exponents below 128), every subtraction,
    product, sum, square root and the division rounded to nearest: the
    operations are the Standard Library's [SFsub], [SFmul], [SFadd],
    [SFsqrt] and [SFdiv], written out here on the channels [x], [y], [z]
    (that is [r], [g], [b]) of the two colours.  A cell for which the test
    fails keeps its flag whatever the colours of the cells eliminated around
    it: elimination does not propagate.  (Over the real numbers the formula
    decides differently at the tolerance's edge, as the last section of
    the file shows on [edge_grid].) *)
Theorem eliminarSimilares_tolerance tol st i j i' j' :
  wf_grid ROWS COLS (grid st) -> selected (iSelected st) i j ->
  (i' < ROWS)%nat -> (j' < COLS)%nat -> (i', j') <> (i, j) ->
  let target := color (grid_at (grid st) i j) in
  let c := color (grid_at (grid st) i' j') in
  let dr := SFsub 24 128 (v_x c) (v_x target) in
  let dg := SFsub 24 128 (v_y c) (v_y target) in
  let db := SFsub 24 128 (v_z c) (v_z target) in
  let sum :=
    SFadd 24 128 (SFadd 24 128 (SFmul 24 128 dr dr) (SFmul 24 128 dg dg))
      (SFmul 24 128 db db) in
  let normalized :=
    SFdiv 24 128 (SFsqrt 24 128 sum)
      (SFsqrt 24 128 (binary_normalize 24 128 3 0 false)) in
  let before := eliminated (grid_at (grid st) i' j') in
  let after := eliminated (grid_at (grid (snd (eliminarSimilares tol st))) i' j') in
  ((before = false /\ after = true)
   <-> (before = false /\ SFleb normalized tol = true))
  /\ (SFleb normalized tol = false -> after = before).
Proof.
  exact (eliminarSimilares_flag tol st i j i' j').
Qed.

(** C3: [eliminarSimilares] returns 0 and leaves the state as it is when
    no selection is pending.  With the cell [(i, j)] selected it marks that
    cell eliminated, clears the selection to -1, changes nothing but the grid
    and the selection, and returns at least 1: one for the selected cell plus
    one for each cell the scan removes, which is the number of cells the
    call eliminated when the selected cell was still active. *)
Theorem eliminarSimilares_result tol st :
  wf_grid ROWS COLS (grid st) ->
  (iSelected st < 0 -> eliminarSimilares tol st = (0, st))
  /\ (forall i j, selected (iSelected st) i j ->
        let r := eliminarSimilares tol st in
        eliminated (grid_at (grid (snd r)) i j) = true
        /\ iSelected (snd r) = -1
        /\ snd r = set_iSelected (-1) (set_grid (grid (snd r)) st)
        /\ 1 <= fst r
        /\ (eliminated (grid_at (grid st) i j) = false ->
              fst r = Z.of_nat (length
                (List.filter (newly_eliminated (grid st) (grid (snd r))) cells)))).
Proof.
  intros Hwf. split.
  - intros Hneg. unfold eliminarSimilares.
    destruct (Z.ltb_spec (iSelected st) 0); [reflexivity|lia].
  - intros i j Hsel r. subst r.
    destruct (eliminarSimilares_selected tol st i j Hwf Hsel)
      as (Hcnt & _ & _ & Hst).
    split; [apply eliminarSimilares_clicked; assumption|].
    split; [rewrite Hst; reflexivity|].
    split; [exact Hst|].
    split; [lia|].
    intros Hact.
    pose proof (newly_eliminated_count tol st i j Hwf Hsel Hact) as Hn.
    cbv zeta in Hn. rewrite Hcnt, Hn. lia.
Qed.


(** ** [anyActiveCell] *)

Definition active (g : Grid) (p : nat * nat) : bool :=
  negb (eliminated (grid_at g (fst p) (snd p))).

Lemma anyActiveCell_existsb st :
  anyActiveCell st = existsb (active (grid st)) cells.
Proof.
  unfold anyActiveCell.
  apply (grid_loop_ind (fun l (found : bool) => found = existsb (active (grid st)) l)).
  - reflexivity.
  - intros l i j found _ _ _ ->.
    rewrite existsb_app. simpl. unfold active at 3. simpl.
    destruct (existsb (active (grid st)) l); [reflexivity|].
    rewrite orb_false_r. reflexivity.
Qed.

Lemma anyActiveCell_true st :
  anyActiveCell st = true
  <-> exists i j, (i < ROWS)%nat /\ (j < COLS)%nat
        /\ eliminated (grid_at (grid st) i j) = false.
Proof.
  rewrite anyActiveCell_existsb, existsb_exists. split.
  - intros [[i j] [Hin Hact]]. apply in_cells in Hin.
    exists i, j. unfold active in Hact. simpl in Hact.
    apply negb_true_iff in Hact. tauto.
  - intros (i & j & Hi & Hj & He). exists (i, j).
    split; [apply in_cells; tauto|]. unfold active. simpl. rewrite He. reflexivity.
Qed.

Lemma anyActiveCell_false st :
  anyActiveCell st = false
  <-> forall i j, (i < ROWS)%nat -> (j < COLS)%nat ->
        eliminated (grid_at (grid st) i j) = true.
Proof.
  rewrite <- not_true_iff_false, anyActiveCell_true. split.
  - intros Hno i j Hi Hj.
    destruct (eliminated (grid_at (grid st) i j)) eqn:He; [reflexivity|].
    exfalso. apply Hno. exists i, j. tauto.
  - intros Hall (i & j & Hi & Hj & He). rewrite Hall in He by assumption.
    discriminate.
Qed.

(** ** [resetGame] *)

(** A cell as [resetGame] leaves it: its three channels come from three
    calls of [rand]. *)
Definition fresh_cell (i j : nat) (q : Quad) : Prop :=
  position q = center i j
  /\ dimensions q = mkvec3 (F32.of_int QUAD_W) (F32.of_int QUAD_H) (F32.of_int 1)
  /\ eliminated q = false
  /\ exists s1 s2 s3,
       color q = mkvec3 (channel (fst (rand s1))) (channel (fst (rand s2)))
                        (channel (fst (rand s3))).

Lemma resetGame_cells st :
  wf_grid ROWS COLS (grid st) ->
  wf_grid ROWS COLS (grid (resetGame st))
  /\ forall i j, (i < ROWS)%nat -> (j < COLS)%nat ->
       fresh_cell i j (grid_at (grid (resetGame st)) i j).
Proof.
  intros Hwf. unfold resetGame.
  pose (P := fun (l : list (nat * nat)) (t : Grid * RandState) =>
    wf_grid ROWS COLS (fst t)
    /\ forall i j, In (i, j) l -> fresh_cell i j (grid_at (fst t) i j)).
  assert (P cells (for_range ROWS (fun i => for_range COLS (fun j => reset_cell i j))
                     (grid st, randState st))) as HP.
  { apply grid_loop_ind.
    - split; [exact Hwf|intros ? ? []].
    - intros l i j [g rs] Hi Hj Hnew [Hw Hin]. unfold P, reset_cell.
      destruct (rand rs) as [n1 rs1] eqn:E1.
      destruct (rand rs1) as [n2 rs2] eqn:E2.
      destruct (rand rs2) as [n3 rs3] eqn:E3. simpl.
      split; [apply grid_set_wf, Hw|].
      intros i' j' [H|[H|[]]]%in_app_iff.
      + rewrite grid_at_set_ne by (intros Heq; inversion Heq; subst; tauto).
        apply Hin, H.
      + inversion H; subst i' j'.
        rewrite (grid_at_set_eq ROWS COLS) by assumption.
        unfold fresh_cell. simpl. repeat split.
        exists rs, rs1, rs2. rewrite E1, E2, E3. reflexivity. }
  destruct (for_range ROWS _ (grid st, randState st)) as [g rs].
  destruct HP as [Hw Hin]. simpl in *.
  split; [exact Hw|]. intros i j Hi Hj. apply Hin, in_cells. tauto.
Qed.

Lemma resetGame_counters st :
  attempts (resetGame st) = 0 /\ score (resetGame st) = 0
  /\ gameOver (resetGame st) = false /\ iSelected (resetGame st) = -1.
Proof.
  unfold resetGame. destruct (for_range ROWS _ _). simpl. auto.
Qed.

(** The statics have the shape of the array. *)
Lemma static_state_wf rs : wf_grid ROWS COLS (grid (static_state rs)).
Proof.
  unfold static_state. simpl. split.
  - apply length_replicate.
  - intros i Hi.
    rewrite (list_lookup_total_correct _ _ (replicate COLS Quad0)).
    + apply length_replicate.
    + apply lookup_replicate_2, Hi.
Qed.


(** ** States the program can be in *)

(** A pending selection designates an active cell of the grid. *)
Definition sel_ok (st : State) : Prop :=
  iSelected st = -1
  \/ exists i j, selected (iSelected st) i j
       /\ eliminated (grid_at (grid st) i j) = false.

Definition wf (st : State) : Prop :=
  wf_grid ROWS COLS (grid st) /\ sel_ok st.

(** A press of R, the one event that restarts the game. *)
Definition is_restart (e : Event) : bool :=
  match e with
  | Key key action => (key =? GLFW_KEY_R) && (action =? GLFW_PRESS)
  | _ => false
  end.

(** *** [mouse_button_callback] *)

(** The click the callback acts on: the left button, pressed. *)
Definition is_click (button action : Z) : bool :=
  (button =? GLFW_MOUSE_BUTTON_LEFT) && (action =? GLFW_PRESS).

(** The cell under the cursor is a cell of the grid. *)
Definition in_grid (row col : Z) : bool :=
  (col >=? 0) && (col <? Z.of_nat COLS) && (row >=? 0) && (row <? Z.of_nat ROWS).

Lemma in_grid_true row col :
  in_grid row col = true
  <-> 0 <= row < Z.of_nat ROWS /\ 0 <= col < Z.of_nat COLS.
Proof.
  unfold in_grid. rewrite !andb_true_iff, !Z.geb_le, !Z.ltb_lt. lia.
Qed.

Lemma mouse_button_callback_cases button action xpos ypos st :
  let col := cell_index xpos QUAD_W in
  let row := cell_index ypos QUAD_H in
  mouse_button_callback button action xpos ypos st
  = if is_click button action && negb (gameOver st) && in_grid row col
       && negb (eliminated (grid_at (grid st) (Z.to_nat row) (Z.to_nat col)))
    then set_iSelected (row * Z.of_nat COLS + col) st
    else st.
Proof.
  intros col row. unfold mouse_button_callback, is_click.
  fold col row. fold (in_grid row col).
  destruct ((button =? GLFW_MOUSE_BUTTON_LEFT) && (action =? GLFW_PRESS)
            && negb (gameOver st)); simpl; [|reflexivity].
  destruct (in_grid row col) eqn:Hin; simpl; [|reflexivity].
  apply in_grid_true in Hin. destruct Hin as [Hr Hc].
  destruct (selected_encode row col Hr Hc) as [-> _]. reflexivity.
Qed.

Lemma mouse_button_callback_wf button action xpos ypos st :
  wf st -> wf (mouse_button_callback button action xpos ypos st).
Proof.
  intros [Hg Hs]. rewrite mouse_button_callback_cases.
  set (col := cell_index xpos QUAD_W). set (row := cell_index ypos QUAD_H).
  destruct (is_click button action && negb (gameOver st)); simpl;
    [|split; assumption].
  destruct (in_grid row col) eqn:Hin; simpl; [|split; assumption].
  destruct (eliminated (grid_at (grid st) (Z.to_nat row) (Z.to_nat col))) eqn:He;
    simpl; [split; assumption|].
  apply in_grid_true in Hin. destruct Hin as [Hr Hc].
  split; [exact Hg|]. right. exists (Z.to_nat row), (Z.to_nat col). simpl.
  split; [apply selected_encode; assumption|exact He].
Qed.

(** *** [process_selection] *)

Lemma anyActiveCell_grid st st' :
  grid st = grid st' -> anyActiveCell st = anyActiveCell st'.
Proof. intros H. unfold anyActiveCell. rewrite H. reflexivity. Qed.

(** A selection is processed when one is pending and the game is on. *)
Definition pending (st : State) : bool :=
  (iSelected st >=? 0) && negb (gameOver st).

Lemma process_selection_idle st :
  pending st = false -> process_selection st = st.
Proof.
  unfold pending, process_selection. intros ->. reflexivity.
Qed.

Lemma pending_selected st :
  sel_ok st -> pending st = true ->
  exists i j, selected (iSelected st) i j
    /\ eliminated (grid_at (grid st) i j) = false.
Proof.
  unfold pending. intros [Hs|Hs] Hp; [|exact Hs].
  rewrite Hs in Hp. discriminate.
Qed.

(** One processed selection: the grid is the one [eliminarSimilares]
    leaves, the attempt is counted, the score is clamped at 0, and the game
    ends when no cell is active any more. *)
Lemma process_selection_pending st :
  wf st -> pending st = true ->
  let r := eliminarSimilares COLOR_TOLERANCE st in
  1 <= fst r
  /\ process_selection st
     = mkState (grid (snd r)) (attempts st + 1)
         (Z.max 0 (score st + (fst r - (attempts st + 1))))
         (negb (anyActiveCell (snd r))) (-1) (randState st).
Proof.
  intros [Hg Hs] Hp r.
  destruct (pending_selected st Hs Hp) as (i & j & Hsel & _).
  destruct (eliminarSimilares_selected COLOR_TOLERANCE st i j Hg Hsel)
    as (Hcnt & _ & _ & Hst).
  fold r in Hcnt, Hst.
  assert (1 <= fst r) as Hr by lia.
  split; [exact Hr|].
  unfold process_selection. fold (pending st). rewrite Hp. fold r.
  destruct r as [c st1]. simpl in *.
  destruct (Z.gtb_spec c 0) as [_|]; [|lia].
  unfold pending in Hp. apply andb_true_iff in Hp. destruct Hp as [_ Hgo].
  apply negb_true_iff in Hgo.
  assert (attempts st1 = attempts st /\ score st1 = score st
          /\ gameOver st1 = gameOver st /\ randState st1 = randState st)
    as (Ha & Hsc & Hgo1 & Hrs) by (rewrite Hst; simpl; auto).
  unfold set_iSelected, set_gameOver, set_score, set_attempts. simpl.
  rewrite Ha, Hsc, Hgo1, Hrs, Hgo.
  set (s' := score st + (c - (attempts st + 1))).
  destruct (Z.ltb_spec s' 0) as [Hlt|Hge]; simpl;
    match goal with
    | |- context [anyActiveCell ?x] =>
        rewrite (anyActiveCell_grid x st1 eq_refl)
    end;
    destruct (anyActiveCell st1); simpl; f_equal; lia.
Qed.


Lemma process_selection_wf st : wf st -> wf (process_selection st).
Proof.
  intros Hwf. destruct (pending st) eqn:Hp.
  - destruct (process_selection_pending st Hwf Hp) as [_ ->].
    destruct Hwf as [Hg Hs].
    destruct (pending_selected st Hs Hp) as (i & j & Hsel & _).
    destruct (eliminarSimilares_selected COLOR_TOLERANCE st i j Hg Hsel)
      as (_ & Hg' & _).
    split; [exact Hg'|left; reflexivity].
  - rewrite process_selection_idle by exact Hp. exact Hwf.
Qed.

Lemma resetGame_wf st : wf_grid ROWS COLS (grid st) -> wf (resetGame st).
Proof.
  intros Hg. split; [apply resetGame_cells, Hg|].
  left. apply resetGame_counters.
Qed.

Lemma key_callback_cases key action st :
  key_callback key action st
  = if is_restart (Key key action) then resetGame st else st.
Proof.
  unfold key_callback, is_restart, GLFW_KEY_ESCAPE, GLFW_KEY_R.
  destruct (Z.eqb_spec key 256), (Z.eqb_spec key 82); simpl; try lia;
    try reflexivity.
  destruct (action =? GLFW_PRESS); reflexivity.
Qed.

Lemma step_wf st e : wf st -> wf (step st e).
Proof.
  intros Hwf. destruct e as [button action xpos ypos|key action|]; simpl.
  - apply mouse_button_callback_wf, Hwf.
  - rewrite key_callback_cases.
    destruct (is_restart (Key key action)); [apply resetGame_wf, Hwf|exact Hwf].
  - apply process_selection_wf, Hwf.
Qed.

Lemma run_wf evs st : wf st -> wf (run evs st).
Proof.
  revert st. induction evs as [|e evs IH]; intros st Hwf; [exact Hwf|].
  simpl. apply IH, step_wf, Hwf.
Qed.

Lemma run_app evs evs' st : run (evs ++ evs') st = run evs' (run evs st).
Proof. apply fold_left_app. Qed.

(** The grid only changes in a processed selection and in a restart. *)
Lemma mouse_button_callback_grid button action xpos ypos st :
  grid (mouse_button_callback button action xpos ypos st) = grid st.
Proof.
  rewrite mouse_button_callback_cases.
  destruct (_ && _); reflexivity.
Qed.

(** No step but a restart brings an eliminated cell back. *)
Lemma step_eliminated st e i j :
  wf st -> is_restart e = false -> (i < ROWS)%nat -> (j < COLS)%nat ->
  eliminated (grid_at (grid st) i j) = true ->
  eliminated (grid_at (grid (step st e)) i j) = true.
Proof.
  intros Hwf Hnr Hi Hj He.
  destruct e as [button action xpos ypos|key action|]; simpl.
  - rewrite mouse_button_callback_grid. exact He.
  - rewrite key_callback_cases, Hnr. exact He.
  - destruct (pending st) eqn:Hp.
    + destruct (process_selection_pending st Hwf Hp) as [_ ->]. simpl.
      destruct Hwf as [Hg Hs].
      destruct (pending_selected st Hs Hp) as (i0 & j0 & Hsel & _).
      destruct (decide ((i, j) = (i0, j0))) as [Heq|Hne].
      * inversion Heq; subst. apply eliminarSimilares_clicked; assumption.
      * rewrite (eliminarSimilares_other _ st i0 j0) by assumption.
        rewrite eliminated_scanned, He. reflexivity.
    + rewrite process_selection_idle by exact Hp. exact He.
Qed.

(** ** Reachable states *)

(** What holds of every state the program reaches: the score and the
    attempts are not negative, and the game is over exactly when a selection
    has been processed since the last restart and no cell is active. *)
Definition Inv (st : State) : Prop :=
  wf st /\ 0 <= attempts st /\ 0 <= score st
  /\ (gameOver st = true <-> 0 < attempts st /\ anyActiveCell st = false).

Lemma resetGame_Inv st : wf_grid ROWS COLS (grid st) -> Inv (resetGame st).
Proof.
  intros Hg. split; [apply resetGame_wf, Hg|].
  destruct (resetGame_counters st) as (-> & -> & -> & _).
  split; [lia|]. split; [lia|]. split; [discriminate|lia].
Qed.

Lemma step_Inv st e : Inv st -> Inv (step st e).
Proof.
  intros (Hwf & Ha & Hs & Hgo).
  split; [apply step_wf, Hwf|].
  destruct e as [button action xpos ypos|key action|]; simpl.
  - rewrite mouse_button_callback_cases.
    destruct (_ && _); simpl; auto.
  - rewrite key_callback_cases.
    destruct (is_restart (Key key action)); [|auto].
    apply resetGame_Inv, Hwf.
  - destruct (pending st) eqn:Hp.
    + destruct (process_selection_pending st Hwf Hp) as [Hr ->]. simpl.
      split; [lia|]. split; [lia|].
      match goal with
      | |- context [anyActiveCell (mkState ?g ?a ?s ?o ?n ?r)] =>
          rewrite (anyActiveCell_grid (mkState g a s o n r)
                     (snd (eliminarSimilares COLOR_TOLERANCE st)) eq_refl)
      end.
      rewrite negb_true_iff. split; [intros H; split; [lia|exact H]|tauto].
    + rewrite process_selection_idle by exact Hp. auto.
Qed.

Lemma run_Inv evs st : Inv st -> Inv (run evs st).
Proof.
  revert st. induction evs as [|e evs IH]; intros st H; [exact H|].
  simpl. apply IH, step_Inv, H.
Qed.

Lemma initial_state_Inv rs : Inv (initial_state rs).
Proof. apply resetGame_Inv, static_state_wf. Qed.


(** ** The score *)

(** The counts of removed cells of the selections processed since the last
    restart, oldest first, along a run that starts in [st] with [log]. *)
Fixpoint removed_log (evs : list Event) (st : State) (log : list Z) : list Z :=
  match evs with
  | [] => log
  | e :: evs' =>
      removed_log evs' (step st e)
        (match e with
         | Frame =>
             if pending st
             then log ++ [fst (eliminarSimilares COLOR_TOLERANCE st)]
             else log
         | _ => if is_restart e then [] else log
         end)
  end.

(** The attempts and the score the specification's formula gives for a log:
    the [k]-th removal [r] turns the score [s] into [max 0 (s + r - k)]. *)
Definition score_step (acc : Z * Z) (r : Z) : Z * Z :=
  (fst acc + 1, Z.max 0 (snd acc + r - (fst acc + 1))).

Definition replay (log : list Z) : Z * Z := fold_left score_step log (0, 0).

Lemma replay_snoc log r : replay (log ++ [r]) = score_step (replay log) r.
Proof. unfold replay. rewrite fold_left_app. reflexivity. Qed.

Lemma replay_attempts log : fst (replay log) = Z.of_nat (length log).
Proof.
  induction log as [|r log IH] using rev_ind; [reflexivity|].
  rewrite replay_snoc, length_app. simpl. lia.
Qed.

Lemma run_replay evs st log :
  Inv st -> (attempts st, score st) = replay log ->
  let st' := run evs st in
  (attempts st', score st') = replay (removed_log evs st log).
Proof.
  revert st log. induction evs as [|e evs IH]; intros st log HI Hlog; [exact Hlog|].
  simpl. apply IH; [apply step_Inv, HI|].
  destruct HI as (Hwf & _).
  destruct e as [button action xpos ypos|key action|]; simpl.
  - rewrite mouse_button_callback_cases. destruct (_ && _); exact Hlog.
  - rewrite key_callback_cases. unfold is_restart.
    destruct ((key =? GLFW_KEY_R) && (action =? GLFW_PRESS)); [|exact Hlog].
    destruct (resetGame_counters st) as (-> & -> & _). reflexivity.
  - destruct (pending st) eqn:Hp.
    + destruct (process_selection_pending st Hwf Hp) as [_ ->]. simpl.
      rewrite replay_snoc, <- Hlog. unfold score_step. simpl.
      f_equal. f_equal. lia.
    + rewrite process_selection_idle by exact Hp. exact Hlog.
Qed.

(** C2: a processed selection removes [r >= 1] cells, adds one to the
    attempts and turns the score into [max 0 (score + r - attempts)] with the
    attempts already counted.  Along every run from the start of the
    program, the attempts equal the number [k] of selections processed since
    the last restart and the score is the one the formula
    [max 0 (score_prev + r_k - k)] gives for their removal counts; the score
    is never negative. *)
Theorem score_formula rs evs :
  let st := run evs (initial_state rs) in
  let log := removed_log evs (initial_state rs) [] in
  (pending st = true ->
     let r := fst (eliminarSimilares COLOR_TOLERANCE st) in
     1 <= r
     /\ attempts (process_selection st) = attempts st + 1
     /\ score (process_selection st)
        = Z.max 0 (score st + r - attempts (process_selection st)))
  /\ attempts st = Z.of_nat (length log)
  /\ (attempts st, score st) = replay log
  /\ 0 <= score st.
Proof.
  intros st log.
  pose proof (run_Inv evs _ (initial_state_Inv rs)) as HI. fold st in HI.
  assert ((attempts st, score st) = replay log) as Hrep.
  { apply run_replay; [apply initial_state_Inv|].
    unfold initial_state.
    destruct (resetGame_counters (static_state rs)) as (-> & -> & _).
    reflexivity. }
  split.
  - intros Hp r. destruct HI as (Hwf & _).
    destruct (process_selection_pending st Hwf Hp) as [Hr ->]. simpl.
    fold r in Hr |- *. split; [exact Hr|]. split; [reflexivity|]. f_equal. lia.
  - split; [|split; [exact Hrep|apply HI]].
    rewrite <- replay_attempts, <- Hrep. reflexivity.
Qed.

(** C4: a click is a press of the left button; its cell is
    [static_cast<int>((pos - 50) / 100)] in each coordinate, half a cell
    subtracted and the result divided by the cell size.  When the game is
    over, or the row or column falls outside the grid, or the cell is already
    eliminated, the click returns the state as it was: score, attempts,
    flags, selection and [gameOver].  Otherwise the state changes in
    [iSelected] only, which becomes [row * COLS + col].  Any other button
    event changes nothing. *)
Theorem mouse_button_callback_click button action xpos ypos st :
  let col := static_cast_int
               (F64.div (F64.sub xpos (F64.of_int 50)) (F64.of_int 100)) in
  let row := static_cast_int
               (F64.div (F64.sub ypos (F64.of_int 50)) (F64.of_int 100)) in
  let st' := mouse_button_callback button action xpos ypos st in
  (is_click button action = false -> st' = st)
  /\ (gameOver st = true -> st' = st)
  /\ (~ (0 <= row < Z.of_nat ROWS /\ 0 <= col < Z.of_nat COLS) -> st' = st)
  /\ (eliminated (grid_at (grid st) (Z.to_nat row) (Z.to_nat col)) = true ->
        st' = st)
  /\ (is_click button action = true -> gameOver st = false ->
      0 <= row < Z.of_nat ROWS -> 0 <= col < Z.of_nat COLS ->
      eliminated (grid_at (grid st) (Z.to_nat row) (Z.to_nat col)) = false ->
      st' = set_iSelected (row * Z.of_nat COLS + col) st).
Proof.
  intros col row st'. subst st'. rewrite mouse_button_callback_cases.
  change (cell_index xpos QUAD_W) with col.
  change (cell_index ypos QUAD_H) with row.
  repeat split.
  - intros ->. reflexivity.
  - intros ->. rewrite andb_false_r. reflexivity.
  - intros Hout. destruct (in_grid row col) eqn:Hin.
    + apply in_grid_true in Hin. tauto.
    + rewrite andb_false_r. reflexivity.
  - intros ->. rewrite andb_false_r. reflexivity.
  - intros -> -> Hr Hc ->.
    assert (in_grid row col = true) as -> by (apply in_grid_true; tauto).
    reflexivity.
Qed.


(** ** The end of the game *)

(** [gameOver] in the states the program reaches, by [anyActiveCell]. *)
Lemma gameOver_reached rs evs :
  let st := run evs (initial_state rs) in
  (gameOver (process_selection st) = true
   <-> gameOver st = true
       \/ (pending st = true /\ anyActiveCell (process_selection st) = false))
  /\ (gameOver st = true <-> 0 < attempts st /\ anyActiveCell st = false)
  /\ (gameOver st = true ->
        (forall button action xpos ypos,
           mouse_button_callback button action xpos ypos st = st)
        /\ process_selection st = st
        /\ forall e, is_restart e = false -> gameOver (step st e) = true)
  /\ gameOver (resetGame st) = false.
Proof.
  intros st.
  pose proof (run_Inv evs _ (initial_state_Inv rs)) as HI. fold st in HI.
  destruct HI as (Hwf & Ha & Hs & Hgo).
  split; [|split; [exact Hgo|split; [|apply resetGame_counters]]].
  - destruct (pending st) eqn:Hp.
    + destruct (process_selection_pending st Hwf Hp) as [_ ->]. simpl.
      match goal with
      | |- context [anyActiveCell (mkState ?g ?a ?s ?o ?n ?r)] =>
          rewrite (anyActiveCell_grid (mkState g a s o n r)
                     (snd (eliminarSimilares COLOR_TOLERANCE st)) eq_refl)
      end.
      unfold pending in Hp. apply andb_true_iff in Hp.
      destruct Hp as [_ Hp]. apply negb_true_iff in Hp. rewrite Hp.
      rewrite negb_true_iff. intuition congruence.
    + rewrite process_selection_idle by exact Hp. intuition congruence.
  - intros Hover.
    assert (pending st = false) as Hp
      by (unfold pending; rewrite Hover; apply andb_false_r).
    split; [|split; [apply process_selection_idle, Hp|]].
    + intros. rewrite mouse_button_callback_cases, Hover.
      rewrite andb_false_r. reflexivity.
    + intros [button action xpos ypos|key action|] Hnr; simpl.
      * rewrite mouse_button_callback_cases, Hover, andb_false_r. exact Hover.
      * rewrite key_callback_cases, Hnr. exact Hover.
      * rewrite process_selection_idle by exact Hp. exact Hover.
Qed.

(** C5: a turn of the main loop leaves [gameOver] true exactly when it was
    true already or the turn processed a selection (one was pending, the game
    being on) after which the [eliminated] flag of every cell of the grid is
    true; in every state the program reaches, [gameOver] is true if and only
    if a selection has been processed since the last restart and every cell
    is eliminated, which by the monotonic flags is the first resolution to
    leave none active.  [anyActiveCell] is true exactly when some cell of the
    grid is not eliminated.  While [gameOver] is true clicks and pending
    selections are not processed, and every event other than a restart
    leaves it true; [resetGame] clears it. *)
Theorem gameOver_trigger rs evs :
  let st := run evs (initial_state rs) in
  (gameOver (process_selection st) = true
   <-> gameOver st = true
       \/ ((0 <= iSelected st /\ gameOver st = false)
           /\ forall i j, (i < ROWS)%nat -> (j < COLS)%nat ->
                eliminated (grid_at (grid (process_selection st)) i j) = true))
  /\ (gameOver st = true
      <-> 0 < attempts st
          /\ forall i j, (i < ROWS)%nat -> (j < COLS)%nat ->
               eliminated (grid_at (grid st) i j) = true)
  /\ (anyActiveCell st = true
      <-> exists i j, (i < ROWS)%nat /\ (j < COLS)%nat
            /\ eliminated (grid_at (grid st) i j) = false)
  /\ (gameOver st = true ->
        (forall button action xpos ypos,
           mouse_button_callback button action xpos ypos st = st)
        /\ process_selection st = st
        /\ forall e, is_restart e = false -> gameOver (step st e) = true)
  /\ gameOver (resetGame st) = false.
Proof.
  intros st.
  destruct (gameOver_reached rs evs) as (H1 & H2 & H3 & H4). fold st in H1, H2, H3, H4.
  assert (pending st = true <-> 0 <= iSelected st /\ gameOver st = false) as Hp.
  { unfold pending. rewrite andb_true_iff, negb_true_iff.
    rewrite Z.geb_le. reflexivity. }
  rewrite anyActiveCell_false in H1, H2. rewrite Hp in H1.
  refine (conj H1 (conj H2 (conj _ (conj H3 H4)))).
  apply anyActiveCell_true.
Qed.

(** C6: along every sequence of clicks, key presses other than a restart
    and turns of the main loop, a cell whose [eliminated] flag is true keeps
    it true; an event after which an eliminated cell is active again is a
    restart. *)
Theorem eliminated_monotonic evs st i j :
  wf st -> (i < ROWS)%nat -> (j < COLS)%nat ->
  eliminated (grid_at (grid st) i j) = true ->
  (forallb (fun e => negb (is_restart e)) evs = true ->
     eliminated (grid_at (grid (run evs st)) i j) = true)
  /\ (forall e, eliminated (grid_at (grid (step st e)) i j) = false ->
        is_restart e = true).
Proof.
  intros Hwf Hi Hj He. split.
  - revert st Hwf He. induction evs as [|e evs IH]; intros st Hwf He Hall;
      [exact He|].
    simpl in Hall. apply andb_true_iff in Hall. destruct Hall as [Hnr Hall].
    apply negb_true_iff in Hnr.
    simpl. apply IH; [apply step_wf, Hwf| |exact Hall].
    apply step_eliminated; assumption.
  - intros e Hback. destruct (is_restart e) eqn:Hr; [reflexivity|].
    rewrite (step_eliminated st e i j) in Hback by assumption. discriminate.
Qed.

(** ** Restarting *)

(** [rand()] returns a value from 0 to [RAND_MAX]. *)
Hypothesis rand_nonneg : forall s, 0 <= fst (rand s).

(** C7: after [resetGame] the cell in row [i], column [j] of the grid has
    its centre at exactly [(j * 100 + 50, i * 100 + 50, 0)], the cell being
    100 by 100 as in the source.  The grid may have any number of rows and
    columns for which these coordinates are single-precision numbers. *)
Theorem resetGame_layout st i j :
  wf_grid ROWS COLS (grid st) ->
  Z.of_nat ROWS <= Z.pos exact_dim -> Z.of_nat COLS <= Z.pos exact_dim ->
  (i < ROWS)%nat -> (j < COLS)%nat ->
  let p := position (grid_at (grid (resetGame st)) i j) in
  p = center i j
  /\ SF2Z (v_x p) = Some (Z.of_nat j * QUAD_W + QUAD_W / 2)
  /\ SF2Z (v_y p) = Some (Z.of_nat i * QUAD_H + QUAD_H / 2)
  /\ SF2Z (v_z p) = Some 0.
Proof.
  intros Hg HR HC Hi Hj p.
  destruct (resetGame_cells st Hg) as [_ Hcells].
  destruct (Hcells i j Hi Hj) as (Hpos & _).
  subst p. rewrite Hpos. split; [reflexivity|].
  apply center_coordinates; lia.
Qed.

(** C8: after [resetGame] the attempts and the score are 0, [gameOver] is
    false, no selection is pending, and every cell of the grid is active and
    has in each colour channel the value [k / 255.0f] for the level
    [k = rand() % 256] of one call of [rand], an integer of 0..255, so that
    the channel lies between 0 and 1.  The levels are drawn evenly: over
    every range [0 .. 256 * q - 1] of values of [rand()] each of the 256
    levels is taken exactly [q] times. *)
Theorem resetGame_state st :
  wf_grid ROWS COLS (grid st) ->
  let st' := resetGame st in
  attempts st' = 0 /\ score st' = 0 /\ gameOver st' = false
  /\ iSelected st' = -1
  /\ (forall i j, (i < ROWS)%nat -> (j < COLS)%nat ->
       let q := grid_at (grid st') i j in
       eliminated q = false
       /\ forall ch, In ch [v_r (color q); v_g (color q); v_b (color q)] ->
            exists s k, k = level (fst (rand s)) /\ 0 <= k <= 255
              /\ ch = F32.div (F32.of_int k) (F32.of_int 255)
              /\ SFleb (S754_zero false) ch = true
              /\ SFleb ch (F32.of_int 1) = true)
  /\ forall k (q : nat), 0 <= k <= 255 -> level_count k (256 * q) = q.
Proof.
  intros Hg st'. subst st'.
  destruct (resetGame_counters st) as (Ha & Hs & Hgo & Hsel).
  do 4 (split; [assumption|]).
  split; [|intros k q Hk; apply level_count_cycles, Hk].
  intros i j Hi Hj q. subst q.
  destruct (resetGame_cells st Hg) as [_ Hcells].
  destruct (Hcells i j Hi Hj) as (_ & _ & He & s1 & s2 & s3 & Hcol).
  split; [exact He|].
  rewrite Hcol. unfold v_r, v_g, v_b. simpl.
  assert (forall s, exists k, k = level (fst (rand s)) /\ 0 <= k <= 255
            /\ channel (fst (rand s)) = F32.div (F32.of_int k) (F32.of_int 255)
            /\ SFleb (S754_zero false) (channel (fst (rand s))) = true
            /\ SFleb (channel (fst (rand s))) (F32.of_int 1) = true) as Hch
    by (intros s; apply channel_level, rand_nonneg).
  intros ch [<-|[<-|[<-|[]]]];
    [exists s1; apply (Hch s1) | exists s2; apply (Hch s2)
    | exists s3; apply (Hch s3)].
Qed.


End Game.

Arguments State RandState : clear implicits.

(** ** The program's grid and the specification's scenario *)

(** [const GLuint ROWS = 6], [COLS = 8]. *)
Definition ROWS : nat := 6.
Definition COLS : nat := 8.

(** A generator to run the program with: the sample [rand] of the C
    standard. *)
Definition sample_rand (next : Z) : Z * Z :=
  let next' := (next * 1103515245 + 12345) mod 2 ^ 32 in
  ((next' / 65536) mod 32768, next').

Lemma sample_rand_nonneg s : 0 <= fst (sample_rand s).
Proof. unfold sample_rand. simpl. apply Z.mod_pos_bound. lia. Qed.

(** The scenario: a 2 x 2 grid of cells of 100 by 100 coloured red, red,
    blue and green. *)
Definition red : vec3 := mkvec3 (F32.of_int 1) (F32.of_int 0) (F32.of_int 0).
Definition green : vec3 := mkvec3 (F32.of_int 0) (F32.of_int 1) (F32.of_int 0).
Definition blue : vec3 := mkvec3 (F32.of_int 0) (F32.of_int 0) (F32.of_int 1).

Definition scenario_cell (i j : nat) (c : vec3) : Quad :=
  mkQuad (center i j)
    (mkvec3 (F32.of_int QUAD_W) (F32.of_int QUAD_H) (F32.of_int 1)) c false.

Definition scenario_grid : Grid :=
  [ [scenario_cell 0 0 red; scenario_cell 0 1 red];
    [scenario_cell 1 0 blue; scenario_cell 1 1 green] ].

Definition scenario_state : State Z := mkState scenario_grid 0 0 false (-1) 0.

(** A press of the left button with the cursor at the pixel [(x, y)]. *)
Definition click (x y : Z) : Event :=
  MouseButton GLFW_MOUSE_BUTTON_LEFT GLFW_PRESS (F64.of_int x) (F64.of_int y).

(** C9: the scenario of the specification.  On the 2 x 2 grid the click at
    pixel (50, 50) selects cell (0, 0), and its resolution removes 2 cells
    and leaves 1 attempt and a score of 1; the click at pixel (50, 150)
    selects cell (1, 0), and its resolution removes 1 cell and leaves 2
    attempts and a score of 0, with cell (1, 1) the one active cell; a click
    on that cell (pixel (150, 150)) removes it and ends the game. *)
Theorem scenario :
  let s1 := step 2 2 sample_rand scenario_state (click 50 50) in
  let s2 := step 2 2 sample_rand s1 Frame in
  let s3 := step 2 2 sample_rand s2 (click 50 150) in
  let s4 := step 2 2 sample_rand s3 Frame in
  let s5 := step 2 2 sample_rand s4 (click 150 150) in
  let s6 := step 2 2 sample_rand s5 Frame in
  (iSelected s1 = 0
   /\ fst (eliminarSimilares 2 2 COLOR_TOLERANCE s1) = 2
   /\ attempts s2 = 1 /\ score s2 = 1 /\ gameOver s2 = false)
  /\ (iSelected s3 = 2
      /\ fst (eliminarSimilares 2 2 COLOR_TOLERANCE s3) = 1
      /\ attempts s4 = 2 /\ score s4 = 0 /\ gameOver s4 = false
      /\ map (map eliminated) (grid s4) = [[true; true]; [true; false]])
  /\ (iSelected s5 = 3
      /\ fst (eliminarSimilares 2 2 COLOR_TOLERANCE s5) = 1
      /\ map (map eliminated) (grid s6) = [[true; true]; [true; true]]
      /\ gameOver s6 = true).
Proof.
  vm_compute. repeat split; reflexivity.
Qed.

(** ** The theorems at work on concrete states *)

Lemma scenario_dims : Z.of_nat 2 * Z.of_nat 2 < 2 ^ 31.
Proof. reflexivity. Qed.

Lemma source_dims : Z.of_nat ROWS * Z.of_nat COLS < 2 ^ 31.
Proof. reflexivity. Qed.

Lemma scenario_wf_grid : wf_grid 2 2 scenario_grid.
Proof.
  split; [reflexivity|]. intros [|[|i]] Hi; [reflexivity|reflexivity|lia].
Qed.

(** The scenario with its first cell clicked. *)
Definition scenario_clicked : State Z := set_iSelected 0 scenario_state.

Lemma scenario_clicked_selected : selected 2 2 (iSelected scenario_clicked) 0 0.
Proof. unfold selected. simpl. lia. Qed.

(** Colours at the edge of the tolerance: black, and three greys and
    blues whose levels [(3, 15, 87)], [(51, 51, 51)] and [(17, 17, 85)] are
    all at the distance [51 / 255] of black in exact arithmetic.  The black
    cell is selected. *)
Definition level_colour (r g b : Z) : vec3 :=
  mkvec3 (channel r) (channel g) (channel b).

Definition edge_grid : Grid :=
  [ [scenario_cell 0 0 (level_colour 0 0 0);
     scenario_cell 0 1 (level_colour 3 15 87);
     scenario_cell 0 2 (level_colour 51 51 51);
     scenario_cell 0 3 (level_colour 17 17 85)] ].

Definition edge_state : State Z := mkState edge_grid 0 0 false 0 0.

Lemma edge_dims : Z.of_nat 1 * Z.of_nat 4 < 2 ^ 31.
Proof. reflexivity. Qed.

Lemma edge_wf_grid : wf_grid 1 4 edge_grid.
Proof.
  split; [reflexivity|]. intros [|i] Hi; [reflexivity|lia].
Qed.

Lemma edge_selected : selected 1 4 (iSelected edge_state) 0 0.
Proof. unfold selected. simpl. lia. Qed.

(** The cell of the levels (17, 17, 85) fails the test against black and
    stays, next to two cells that go. *)
Lemma eliminarSimilares_tolerance_witness :
  eliminated (grid_at
    (grid (snd (eliminarSimilares 1 4 COLOR_TOLERANCE edge_state))) 0 3)
  = false.
Proof.
  assert ((0%nat, 3%nat) <> (0%nat, 0%nat)) as Hne by discriminate.
  pose proof (proj2 (eliminarSimilares_tolerance 1 4 edge_dims COLOR_TOLERANCE
                       edge_state 0 0 0 3 edge_wf_grid edge_selected
                       ltac:(lia) ltac:(lia) Hne)) as H.
  match type of H with
  | ?P -> _ => assert P as Hf by (vm_compute; reflexivity)
  end.
  exact (eq_trans (H Hf) eq_refl).
Defined.

(** The first resolution of the scenario returns the two cells it removes. *)
Lemma eliminarSimilares_result_witness :
  fst (eliminarSimilares 2 2 COLOR_TOLERANCE scenario_clicked)
  = Z.of_nat (length (List.filter
      (newly_eliminated (grid scenario_clicked)
         (grid (snd (eliminarSimilares 2 2 COLOR_TOLERANCE scenario_clicked))))
      (cells 2 2))).
Proof.
  destruct (eliminarSimilares_result 2 2 scenario_dims COLOR_TOLERANCE
              scenario_clicked scenario_wf_grid) as [_ H].
  destruct (H 0%nat 0%nat scenario_clicked_selected) as (_ & _ & _ & _ & Hn).
  apply Hn. vm_compute. reflexivity.
Defined.

(** The score after a first click on the program's 6 x 8 grid. *)
Lemma score_formula_witness :
  0 <= score (run ROWS COLS sample_rand [click 50 50; Frame]
                (initial_state ROWS COLS sample_rand 0)).
Proof.
  apply (score_formula ROWS COLS sample_rand source_dims 0 [click 50 50; Frame]).
Defined.

(** The first click of a game at pixel (50, 50) selects cell 0. *)
Lemma mouse_button_callback_click_witness :
  mouse_button_callback ROWS COLS GLFW_MOUSE_BUTTON_LEFT GLFW_PRESS
    (F64.of_int 50) (F64.of_int 50) (initial_state ROWS COLS sample_rand 0)
  = set_iSelected 0 (initial_state ROWS COLS sample_rand 0).
Proof.
  destruct (mouse_button_callback_click ROWS COLS source_dims
              GLFW_MOUSE_BUTTON_LEFT GLFW_PRESS (F64.of_int 50) (F64.of_int 50)
              (initial_state ROWS COLS sample_rand 0)) as (_ & _ & _ & _ & H).
  cbv zeta in H.
  assert (static_cast_int (F64.div (F64.sub (F64.of_int 50) (F64.of_int 50))
                             (F64.of_int 100)) = 0) as Hcell
    by (vm_compute; reflexivity).
  rewrite Hcell in H.
  apply H; clear H; vm_compute;
    first [reflexivity | split; [discriminate | reflexivity]].
Defined.

(** A generator that always returns 0: every cell is dealt black, and the
    first click clears the grid. *)
Definition zero_rand (s : Z) : Z * Z := (0, s).

(** On the all-black 6 x 8 grid the turn that processes the first click
    leaves every cell eliminated, and sets [gameOver]. *)
Lemma gameOver_trigger_witness :
  gameOver (process_selection ROWS COLS
              (run ROWS COLS zero_rand [click 50 50]
                 (initial_state ROWS COLS zero_rand 0))) = true.
Proof.
  pose proof (proj1 (gameOver_trigger ROWS COLS zero_rand source_dims 0
                       [click 50 50])) as [_ H].
  apply H. right. split.
  - split; vm_compute; [discriminate|reflexivity].
  - intros i j Hi Hj.
    apply (proj1 (anyActiveCell_false ROWS COLS _)); [|exact Hi|exact Hj].
    vm_compute. reflexivity.
Defined.

(** The scenario after its first resolution, and its later events. *)
Definition scenario_resolved : State Z :=
  run 2 2 sample_rand [click 50 50; Frame] scenario_state.

Lemma scenario_resolved_wf : wf 2 2 scenario_resolved.
Proof.
  split; [|left; reflexivity].
  split; [reflexivity|]. intros [|[|i]] Hi; [reflexivity|reflexivity|lia].
Qed.

Lemma eliminated_monotonic_witness :
  eliminated (grid_at (grid (run 2 2 sample_rand [click 50 150; Frame]
                               scenario_resolved)) 0 0) = true.
Proof.
  assert (eliminated (grid_at (grid scenario_resolved) 0 0) = true) as He
    by (vm_compute; reflexivity).
  assert (forallb (fun e => negb (is_restart e)) [click 50 150; Frame] = true)
    as Hnr by (vm_compute; reflexivity).
  exact (proj1 (eliminated_monotonic 2 2 sample_rand scenario_dims
                  [click 50 150; Frame] scenario_resolved 0 0
                  scenario_resolved_wf ltac:(lia) ltac:(lia) He) Hnr).
Defined.

(** The last cell of the program's grid is centred at (750, 550). *)
Lemma resetGame_layout_witness :
  let p := position (grid_at
             (grid (resetGame ROWS COLS sample_rand (static_state ROWS COLS 0)))
             5 7) in
  SF2Z (v_x p) = Some 750 /\ SF2Z (v_y p) = Some 550 /\ SF2Z (v_z p) = Some 0.
Proof.
  assert (Z.of_nat ROWS <= Z.pos exact_dim) as HR by (vm_compute; discriminate).
  assert (Z.of_nat COLS <= Z.pos exact_dim) as HC by (vm_compute; discriminate).
  assert (5 < ROWS)%nat as Hi by (unfold ROWS; lia).
  assert (7 < COLS)%nat as Hj by (unfold COLS; lia).
  exact (proj2 (resetGame_layout ROWS COLS sample_rand (static_state ROWS COLS 0)
                  5 7 (static_state_wf ROWS COLS 0) HR HC Hi Hj)).
Defined.

Lemma resetGame_state_witness :
  let st' := resetGame ROWS COLS sample_rand (static_state ROWS COLS 0) in
  attempts st' = 0 /\ score st' = 0 /\ gameOver st' = false /\ iSelected st' = -1.
Proof.
  destruct (resetGame_state ROWS COLS sample_rand sample_rand_nonneg
              (static_state ROWS COLS 0) (static_state_wf ROWS COLS 0))
    as (Ha & Hs & Hg & Hi & _).
  auto.
Defined.

(** C10: the pixel-to-cell mapping does not select the cell whose drawn
    rectangle holds the click.  For every double [pos] in the left half
    [c * 100 <= pos < c * 100 + 50] of the drawn column (or row) [c >= 1],
    [cell_index] is [c - 1], the column (or row) before it; for [pos] in the
    left half [0 <= pos < 50] of column (or row) 0 the quotient is negative
    and truncates toward zero, so [cell_index] is 0 and the click is not
    rejected.  Hence a click in the upper left quarter of the drawn cell
    [(r, c)] selects the cell [(max 0 (r - 1), max 0 (c - 1))] when that
    cell is active. *)
Theorem click_left_half c pos :
  0 <= c < Z.pos exact_dim -> left_half c pos ->
  (1 <= c -> cell_index pos QUAD_W = c - 1 /\ cell_index pos QUAD_H = c - 1)
  /\ (c = 0 -> cell_index pos QUAD_W = 0 /\ cell_index pos QUAD_H = 0)
  /\ forall (rows cols : nat) (RandState : Type) (st : State RandState) r ypos,
       Z.of_nat rows * Z.of_nat cols < 2 ^ 31 ->
       0 <= r < Z.pos exact_dim -> left_half r ypos ->
       let row := Z.max 0 (r - 1) in
       let col := Z.max 0 (c - 1) in
       row < Z.of_nat rows -> col < Z.of_nat cols ->
       gameOver st = false ->
       eliminated (grid_at (grid st) (Z.to_nat row) (Z.to_nat col)) = false ->
       mouse_button_callback rows cols GLFW_MOUSE_BUTTON_LEFT GLFW_PRESS
         pos ypos st
       = set_iSelected (row * Z.of_nat cols + col) st.
Proof.
  intros Hc Hpos.
  destruct (left_half_cell_index c pos Hc Hpos) as [HW HH].
  split; [|split].
  - intros H1. rewrite HW, HH. lia.
  - intros ->. rewrite HW, HH. split; reflexivity.
  - intros rows cols RandState st r ypos Hdims Hr Hy row col Hrow Hcol Hgo He.
    destruct (left_half_cell_index r ypos Hr Hy) as [_ HrH].
    rewrite (mouse_button_callback_cases rows cols Hdims).
    cbv zeta. rewrite HW, HrH. fold row col.
    assert (in_grid rows cols row col = true) as ->
      by (apply in_grid_true; unfold row, col; lia).
    rewrite Hgo, He. reflexivity.
Qed.

(** The pixel 120 lies in the drawn column 1 and selects column 0. *)
Lemma click_left_half_witness :
  cell_index (F64.of_int 120) QUAD_W = 0.
Proof.
  assert (0 <= 1 < Z.pos exact_dim) as Hc by (split; reflexivity || discriminate).
  assert (left_half 1 (F64.of_int 120)) as Hpos
    by (repeat split; vm_compute; reflexivity).
  exact (proj1 (proj1 (click_left_half 1 (F64.of_int 120) Hc Hpos) ltac:(lia))).
Defined.

(** * Further properties of the game *)

Section Play.

Variables ROWS COLS : nat.
Context {RandState : Type}.
Variable rand : RandState -> Z * RandState.
Hypothesis dims_int : Z.of_nat ROWS * Z.of_nat COLS < 2 ^ 31.

(** ** Frames and clicks in sequence *)

Lemma process_selection_cleared (st : State RandState) :
  pending (process_selection ROWS COLS st) = false.
Proof.
  unfold process_selection.
  destruct ((iSelected st >=? 0) && negb (gameOver st)) eqn:Hp; [|exact Hp].
  destruct (eliminarSimilares ROWS COLS COLOR_TOLERANCE st) as [r st1].
  reflexivity.
Qed.

(** X4: A selection is consumed by the frame that resolves it: the body of the
    main loop run a second time, with no callback in between, changes
    nothing.  This holds of every state and every sequence of events run
    before. *)
Theorem process_selection_once (evs : list Event) (st : State RandState) :
  process_selection ROWS COLS (process_selection ROWS COLS st)
  = process_selection ROWS COLS st
  /\ run ROWS COLS rand (evs ++ [Frame; Frame]) st
     = run ROWS COLS rand (evs ++ [Frame]) st.
Proof.
  assert (forall s : State RandState,
            process_selection ROWS COLS (process_selection ROWS COLS s)
            = process_selection ROWS COLS s) as H
    by (intros s; apply process_selection_idle, process_selection_cleared).
  split; [apply H|].
  rewrite !run_app. simpl. apply H.
Qed.

(** The click [mouse_button_callback] acts on in the state [st]: a press of
    the left button while the game is on, over an active cell of the grid. *)
Definition selects (button action : Z) (xpos ypos : spec_float)
    (st : State RandState) : bool :=
  is_click button action && negb (gameOver st)
  && in_grid ROWS COLS (cell_index ypos QUAD_H) (cell_index xpos QUAD_W)
  && negb (eliminated (grid_at (grid st)
             (Z.to_nat (cell_index ypos QUAD_H))
             (Z.to_nat (cell_index xpos QUAD_W)))).

Lemma selects_iSelected button action xpos ypos n (st : State RandState) :
  selects button action xpos ypos (set_iSelected n st)
  = selects button action xpos ypos st.
Proof. reflexivity. Qed.

(** X5: Of two clicks delivered before the same frame the later one counts when
    it is one the callback acts on, and else the earlier one stands: the
    selection is a single slot, overwritten and never queued. *)
Theorem mouse_button_callback_twice b1 a1 x1 y1 b2 a2 x2 y2
    (st : State RandState) :
  mouse_button_callback ROWS COLS b2 a2 x2 y2
    (mouse_button_callback ROWS COLS b1 a1 x1 y1 st)
  = if selects b2 a2 x2 y2 st
    then mouse_button_callback ROWS COLS b2 a2 x2 y2 st
    else mouse_button_callback ROWS COLS b1 a1 x1 y1 st.
Proof.
  pose proof (@mouse_button_callback_cases ROWS COLS RandState dims_int) as Hc.
  cbv zeta in Hc.
  rewrite (Hc b2 a2 x2 y2 (mouse_button_callback ROWS COLS b1 a1 x1 y1 st)).
  rewrite (Hc b2 a2 x2 y2 st).
  fold (selects b2 a2 x2 y2 st).
  fold (selects b2 a2 x2 y2 (mouse_button_callback ROWS COLS b1 a1 x1 y1 st)).
  rewrite (Hc b1 a1 x1 y1 st). fold (selects b1 a1 x1 y1 st).
  destruct (selects b1 a1 x1 y1 st).
  - rewrite selects_iSelected.
    destruct (selects b2 a2 x2 y2 st); reflexivity.
  - destruct (selects b2 a2 x2 y2 st); reflexivity.
Qed.


(** ** What a run never touches *)

(** Only the [eliminated] flag of a cell separates [q'] from [q]. *)
Definition same_cell (q q' : Quad) : Prop :=
  position q' = position q /\ dimensions q' = dimensions q
  /\ color q' = color q.

Lemma same_cell_scanned tol target q : same_cell q (scanned tol target q).
Proof.
  unfold scanned. destruct (_ && _); repeat split.
Qed.

Lemma step_same_cell (st : State RandState) e i j :
  wf ROWS COLS st -> is_restart e = false -> (i < ROWS)%nat -> (j < COLS)%nat ->
  same_cell (grid_at (grid st) i j)
            (grid_at (grid (step ROWS COLS rand st e)) i j)
  /\ randState (step ROWS COLS rand st e) = randState st.
Proof.
  intros Hwf Hr Hi Hj. destruct e as [b a x y|k a|]; simpl.
  - rewrite (mouse_button_callback_grid ROWS COLS dims_int).
    split; [repeat split|].
    rewrite (mouse_button_callback_cases ROWS COLS dims_int). cbv zeta.
    destruct (_ && _); reflexivity.
  - rewrite key_callback_cases, Hr. repeat split.
  - destruct (pending st) eqn:Hp.
    + destruct (process_selection_pending ROWS COLS dims_int st Hwf Hp)
        as [_ ->]. simpl. split; [|reflexivity].
      destruct (pending_selected ROWS COLS st (proj2 Hwf) Hp)
        as (i0 & j0 & Hsel & _).
      destruct (eliminarSimilares_selected ROWS COLS dims_int COLOR_TOLERANCE
                  st i0 j0 (proj1 Hwf) Hsel) as (_ & _ & Hcell & _).
      rewrite (Hcell i j Hi Hj).
      destruct (same_cell_scanned COLOR_TOLERANCE
                  (color (grid_at (grid st) i0 j0))
                  (grid_at (grid_set (grid st) i0 j0
                     (Quad_set_eliminated true (grid_at (grid st) i0 j0))) i j))
        as (H1 & H2 & H3).
      unfold same_cell. rewrite H1, H2, H3.
      destruct (decide ((i0, j0) = (i, j))) as [E|N].
      * inversion E; subst.
        destruct Hsel as (Hi0 & Hj0 & _).
        rewrite (grid_at_set_eq ROWS COLS _ _ _ _ (proj1 Hwf) Hi0 Hj0).
        repeat split.
      * rewrite grid_at_set_ne by exact N. repeat split.
    + rewrite process_selection_idle by exact Hp. repeat split.
Qed.

(** X7: Between two restarts nothing but the [eliminated] flags changes: every
    event other than a press of R leaves the position, the dimensions and
    the colour of every cell as they are, and never calls [rand]. *)
Theorem run_same_cell evs (st : State RandState) i j :
  wf ROWS COLS st -> forallb (fun e => negb (is_restart e)) evs = true ->
  (i < ROWS)%nat -> (j < COLS)%nat ->
  position (grid_at (grid (run ROWS COLS rand evs st)) i j)
  = position (grid_at (grid st) i j)
  /\ dimensions (grid_at (grid (run ROWS COLS rand evs st)) i j)
     = dimensions (grid_at (grid st) i j)
  /\ color (grid_at (grid (run ROWS COLS rand evs st)) i j)
     = color (grid_at (grid st) i j)
  /\ randState (run ROWS COLS rand evs st) = randState st.
Proof.
  intros Hwf Hev Hi Hj. revert st Hwf.
  induction evs as [|e evs IH]; intros st Hwf; [repeat split|].
  simpl in Hev. apply andb_true_iff in Hev. destruct Hev as [He Hev].
  apply negb_true_iff in He.
  destruct (step_same_cell st e i j Hwf He Hi Hj) as [(H1 & H2 & H3) H4].
  destruct (IH Hev (step ROWS COLS rand st e)
              (step_wf ROWS COLS rand dims_int st e Hwf))
    as (K1 & K2 & K3 & K4).
  change (run ROWS COLS rand (e :: evs) st)
    with (run ROWS COLS rand evs (step ROWS COLS rand st e)).
  rewrite K1, K2, K3, K4, H1, H2, H3, H4. repeat split.
Qed.

(** ** The pending selection *)

Lemma step_selected_playing (st : State RandState) e :
  wf ROWS COLS st ->
  (iSelected st = -1 \/ gameOver st = false) ->
  iSelected (step ROWS COLS rand st e) = -1
  \/ gameOver (step ROWS COLS rand st e) = false.
Proof.
  intros Hwf H. destruct e as [b a x y|k a|]; simpl.
  - rewrite (mouse_button_callback_cases ROWS COLS dims_int). cbv zeta.
    destruct (is_click b a && negb (gameOver st) && _ && _) eqn:E;
      [|exact H].
    right. simpl. rewrite !andb_true_iff in E.
    destruct E as [[[_ E] _] _]. apply negb_true_iff, E.
  - rewrite key_callback_cases. destruct (is_restart _); [|exact H].
    left. apply resetGame_counters.
  - destruct (pending st) eqn:Hp.
    + destruct (process_selection_pending ROWS COLS dims_int st Hwf Hp)
        as [_ ->]. left. reflexivity.
    + rewrite process_selection_idle by exact Hp. exact H.
Qed.

Lemma run_selected_playing evs (st : State RandState) :
  wf ROWS COLS st ->
  (iSelected st = -1 \/ gameOver st = false) ->
  iSelected (run ROWS COLS rand evs st) = -1
  \/ gameOver (run ROWS COLS rand evs st) = false.
Proof.
  revert st. induction evs as [|e evs IH]; intros st Hwf H; [exact H|].
  apply (IH (step ROWS COLS rand st e)).
  - apply step_wf; assumption.
  - apply step_selected_playing; assumption.
Qed.

(** X8: In every state a game reaches, [iSelected] is [-1] or the index of a
    cell of the grid that is active, and then the game is not over: the
    row [iSelected / COLS] and the column [iSelected % COLS] that
    [eliminarSimilares] reads are within the array. *)
Theorem selection_in_bounds rs evs :
  let st := run ROWS COLS rand evs (initial_state ROWS COLS rand rs) in
  let row := to_int (to_uint (iSelected st) / Z.of_nat COLS) in
  let col := to_int (to_uint (iSelected st) mod Z.of_nat COLS) in
  iSelected st = -1
  \/ (0 <= row < Z.of_nat ROWS /\ 0 <= col < Z.of_nat COLS
      /\ iSelected st = row * Z.of_nat COLS + col
      /\ eliminated (grid_at (grid st) (Z.to_nat row) (Z.to_nat col)) = false
      /\ gameOver st = false).
Proof.
  intros st row col.
  assert (wf ROWS COLS (initial_state ROWS COLS rand rs)) as Hwf0
    by (apply resetGame_wf, static_state_wf).
  pose proof (run_wf ROWS COLS rand dims_int evs _ Hwf0) as Hwf.
  fold st in Hwf.
  assert (iSelected st = -1 \/ gameOver st = false) as Hg.
  { apply run_selected_playing; [exact Hwf0|]. left. apply resetGame_counters. }
  destruct Hwf as [Hgrid [Hs|(i & j & Hsel & Hact)]]; [left; exact Hs|].
  destruct Hg as [Hs|Hg]; [left; exact Hs|]. right.
  destruct (selected_decode ROWS COLS dims_int _ i j Hsel) as [Hr Hc].
  fold row in Hr. fold col in Hc.
  pose proof (selected_bounds ROWS COLS dims_int _ i j Hsel) as Hb.
  destruct Hsel as (Hi & Hj & Hn).
  assert (to_uint (iSelected st) = iSelected st) as Hu
    by (apply (to_uint_small ROWS COLS); exact Hb).
  assert (iSelected st / Z.of_nat COLS = Z.of_nat i) as Hq.
  { symmetry. apply (Z.div_unique_pos _ _ _ (Z.of_nat j)); lia. }
  assert (iSelected st mod Z.of_nat COLS = Z.of_nat j) as Hm.
  { symmetry. apply (Z.mod_unique_pos _ _ (Z.of_nat i)); lia. }
  assert (row = Z.of_nat i) as Hrow.
  { unfold row. rewrite Hu, Hq. apply (to_int_small ROWS COLS). nia. }
  assert (col = Z.of_nat j) as Hcol.
  { unfold col. rewrite Hu, Hm. apply (to_int_small ROWS COLS). nia. }
  rewrite Hrow, Hcol, !Nat2Z.id.
  repeat split; try lia; assumption.
Qed.

(** ** The counters *)

Definition is_eliminated (g : Grid) (p : nat * nat) : bool :=
  eliminated (grid_at g (fst p) (snd p)).

(** The number of eliminated cells of the grid. *)
Definition eliminated_count (g : Grid) : nat :=
  length (List.filter (is_eliminated g) (cells ROWS COLS)).

Lemma eliminated_count_le g :
  Z.of_nat (eliminated_count g) <= Z.of_nat ROWS * Z.of_nat COLS.
Proof.
  unfold eliminated_count, cells.
  pose proof (filter_length_le (is_eliminated g)
                (list_prod (seq 0 ROWS) (seq 0 COLS))) as H.
  rewrite length_prod, !length_seq in H. nia.
Qed.

Lemma filter_count_split {A : Type} (f n f' : A -> bool) (l : list A) :
  (forall p, In p l -> f' p = f p || n p) ->
  (forall p, In p l -> f p && n p = false) ->
  length (List.filter f' l)
  = (length (List.filter f l) + length (List.filter n l))%nat.
Proof.
  induction l as [|p l IH]; intros H1 H2; [reflexivity|].
  pose proof (IH (fun q Hq => H1 q (or_intror Hq))
                 (fun q Hq => H2 q (or_intror Hq))) as IH'.
  pose proof (H2 p (or_introl eq_refl)) as Hd.
  simpl. rewrite (H1 p) by (left; reflexivity).
  destruct (f p), (n p); simpl in *; try discriminate; rewrite IH'; lia.
Qed.

(** A resolution eliminates as many cells as it returns. *)
Lemma process_selection_count (st : State RandState) :
  wf ROWS COLS st -> pending st = true ->
  let r := fst (eliminarSimilares ROWS COLS COLOR_TOLERANCE st) in
  Z.of_nat (eliminated_count (grid (process_selection ROWS COLS st)))
  = Z.of_nat (eliminated_count (grid st)) + r.
Proof.
  intros Hwf Hp r.
  destruct (pending_selected ROWS COLS st (proj2 Hwf) Hp)
    as (i0 & j0 & Hsel & Hact).
  destruct (eliminarSimilares_selected ROWS COLS dims_int COLOR_TOLERANCE
              st i0 j0 (proj1 Hwf) Hsel) as (Hr & _ & _ & _).
  pose proof (newly_eliminated_count ROWS COLS dims_int COLOR_TOLERANCE
                st i0 j0 (proj1 Hwf) Hsel Hact) as Hn.
  cbv zeta in Hr, Hn. fold r in Hr.
  assert (grid (process_selection ROWS COLS st)
          = grid (snd (eliminarSimilares ROWS COLS COLOR_TOLERANCE st))) as Hg.
  { destruct (process_selection_pending ROWS COLS dims_int st Hwf Hp)
      as [_ ->]. reflexivity. }
  unfold eliminated_count at 1.
  rewrite (filter_count_split (is_eliminated (grid st))
             (newly_eliminated (grid st)
                (grid (process_selection ROWS COLS st)))).
  - rewrite Hg, Hn, Hr. unfold eliminated_count. lia.
  - intros [i j] Hin. apply in_cells in Hin. destruct Hin as [Hi Hj].
    unfold is_eliminated, newly_eliminated. simpl.
    destruct (eliminated (grid_at (grid st) i j)) eqn:E; simpl; [|reflexivity].
    apply (step_eliminated ROWS COLS rand dims_int st Frame i j Hwf eq_refl
             Hi Hj E).
  - intros [i j] _. unfold is_eliminated, newly_eliminated. simpl.
    destruct (eliminated (grid_at (grid st) i j)); reflexivity.
Qed.

Definition counters_ok (st : State RandState) : Prop :=
  0 <= attempts st <= Z.of_nat (eliminated_count (grid st))
  /\ 0 <= score st <= Z.of_nat (eliminated_count (grid st)) - attempts st.

Lemma resetGame_counters_ok (st : State RandState) :
  counters_ok (resetGame ROWS COLS rand st).
Proof.
  destruct (resetGame_counters ROWS COLS rand st) as (Ha & Hs & _).
  unfold counters_ok. rewrite Ha, Hs. lia.
Qed.

Lemma step_counters_ok (st : State RandState) e :
  wf ROWS COLS st -> counters_ok st -> counters_ok (step ROWS COLS rand st e).
Proof.
  intros Hwf H. destruct e as [b a x y|k a|]; simpl.
  - rewrite (mouse_button_callback_cases ROWS COLS dims_int). cbv zeta.
    destruct (_ && _); exact H.
  - rewrite key_callback_cases. destruct (is_restart _); [|exact H].
    apply resetGame_counters_ok.
  - destruct (pending st) eqn:Hp;
      [|rewrite process_selection_idle by exact Hp; exact H].
    pose proof (process_selection_count st Hwf Hp) as Hc. cbv zeta in Hc.
    destruct (process_selection_pending ROWS COLS dims_int st Hwf Hp)
      as [Hr Hps]. cbv zeta in Hr.
    unfold counters_ok in *. rewrite Hc. rewrite Hps. simpl. lia.
Qed.

Lemma run_counters_ok evs (st : State RandState) :
  wf ROWS COLS st -> counters_ok st -> counters_ok (run ROWS COLS rand evs st).
Proof.
  revert st. induction evs as [|e evs IH]; intros st Hwf H; [exact H|].
  apply (IH (step ROWS COLS rand st e)).
  - apply step_wf; assumption.
  - apply step_counters_ok; assumption.
Qed.

(** X9: In every state a game reaches the attempts are at most the number of
    eliminated cells and the score at most that number less the attempts,
    so neither exceeds [ROWS * COLS]; and when a selection is resolved, the
    new attempt count, the difference [removedCount - penalty] and the sum
    the score is set to all lie within [int]: the counters never overflow. *)
Theorem counters_bounded rs evs :
  let st := run ROWS COLS rand evs (initial_state ROWS COLS rand rs) in
  let E := Z.of_nat (eliminated_count (grid st)) in
  0 <= attempts st <= E /\ 0 <= score st <= E - attempts st
  /\ E <= Z.of_nat ROWS * Z.of_nat COLS
  /\ (pending st = true ->
      let removedCount := fst (eliminarSimilares ROWS COLS COLOR_TOLERANCE st) in
      let penalty := attempts st + 1 in
      1 <= removedCount <= Z.of_nat ROWS * Z.of_nat COLS - E
      /\ penalty <= INT_MAX
      /\ INT_MIN <= removedCount - penalty <= INT_MAX
      /\ INT_MIN <= score st + (removedCount - penalty) <= INT_MAX).
Proof.
  intros st E.
  assert (wf ROWS COLS (initial_state ROWS COLS rand rs)) as Hwf0
    by (apply resetGame_wf, static_state_wf).
  pose proof (run_wf ROWS COLS rand dims_int evs _ Hwf0) as Hwf.
  pose proof (run_counters_ok evs _ Hwf0 (resetGame_counters_ok _)) as [Ha Hs].
  fold st in Hwf, Ha, Hs. fold E in Ha, Hs.
  pose proof (eliminated_count_le (grid st)) as HE. fold E in HE.
  refine (conj Ha (conj Hs (conj HE _))).
  intros Hp removedCount penalty.
  pose proof (process_selection_count st Hwf Hp) as Hc. cbv zeta in Hc.
  fold removedCount E in Hc.
  pose proof (eliminated_count_le (grid (process_selection ROWS COLS st))) as HE'.
  destruct (process_selection_pending ROWS COLS dims_int st Hwf Hp) as [Hr _].
  cbv zeta in Hr. fold removedCount in Hr.
  unfold penalty, INT_MIN, INT_MAX.
  assert (2 ^ 31 = 2147483648) as H31 by reflexivity.
  lia.
Qed.


Lemma active_eliminated_total g :
  Z.of_nat (length (List.filter (active g) (cells ROWS COLS)))
  + Z.of_nat (length (List.filter (is_eliminated g) (cells ROWS COLS)))
  = Z.of_nat ROWS * Z.of_nat COLS.
Proof.
  assert (forall l : list (nat * nat),
            (length (List.filter (active g) l)
             + length (List.filter (is_eliminated g) l))%nat = length l) as H.
  { induction l as [|p l IH]; [reflexivity|].
    simpl. unfold active at 1, is_eliminated at 1.
    destruct (eliminated (grid_at g (fst p) (snd p))); simpl; lia. }
  specialize (H (cells ROWS COLS)).
  unfold cells in H at 3. rewrite length_prod, !length_seq in H. nia.
Qed.

Lemma filter_none {A : Type} (f : A -> bool) (l : list A) :
  List.filter f l = [] <-> forall p, In p l -> f p = false.
Proof.
  induction l as [|a l IH]; simpl.
  - split; [intros _ p []|reflexivity].
  - destruct (f a) eqn:E.
    + split; [discriminate|]. intros H.
      rewrite (H a (or_introl eq_refl)) in E. discriminate.
    + rewrite IH. split.
      * intros H p [<-|Hp]; [exact E|apply H, Hp].
      * intros H p Hp. apply H. right. exact Hp.
Qed.

(** No cell is eliminated while no attempt has counted. *)
Definition untouched (st : State RandState) : Prop :=
  attempts st = 0 -> eliminated_count (grid st) = 0%nat.

Lemma resetGame_untouched (st : State RandState) :
  wf_grid ROWS COLS (grid st) -> untouched (resetGame ROWS COLS rand st).
Proof.
  intros Hwf _. unfold eliminated_count.
  destruct (resetGame_cells ROWS COLS rand st Hwf) as [_ Hc].
  rewrite (proj2 (filter_none _ _)); [reflexivity|].
  intros [i j] Hin. apply in_cells in Hin. destruct Hin as [Hi Hj].
  destruct (Hc i j Hi Hj) as (_ & _ & He & _). exact He.
Qed.

Lemma step_untouched (st : State RandState) e :
  Inv ROWS COLS st -> untouched st -> untouched (step ROWS COLS rand st e).
Proof.
  intros (Hwf & Ha & _) H. destruct e as [b a x y|k a|]; simpl.
  - rewrite (mouse_button_callback_cases ROWS COLS dims_int). cbv zeta.
    destruct (_ && _); exact H.
  - rewrite key_callback_cases. destruct (is_restart _); [|exact H].
    apply resetGame_untouched, Hwf.
  - destruct (pending st) eqn:Hp;
      [|rewrite process_selection_idle by exact Hp; exact H].
    destruct (process_selection_pending ROWS COLS dims_int st Hwf Hp)
      as [_ ->]. unfold untouched. simpl. lia.
Qed.

Lemma run_untouched evs (st : State RandState) :
  Inv ROWS COLS st -> untouched st -> untouched (run ROWS COLS rand evs st).
Proof.
  revert st. induction evs as [|e evs IH]; intros st HI H; [exact H|].
  apply (IH (step ROWS COLS rand st e)).
  - apply step_Inv; assumption.
  - apply step_untouched; assumption.
Qed.

(** X21: On a grid that has cells the score never exceeds
    [ROWS * COLS - 1]; and a positive score reaches that bound only with
    the first attempt of a game, by a click that clears the whole grid and
    so ends the game. *)
Theorem best_score rs evs :
  (0 < ROWS)%nat -> (0 < COLS)%nat ->
  let st := run ROWS COLS rand evs (initial_state ROWS COLS rand rs) in
  score st <= Z.of_nat ROWS * Z.of_nat COLS - 1
  /\ (0 < score st -> score st = Z.of_nat ROWS * Z.of_nat COLS - 1 ->
      attempts st = 1 /\ gameOver st = true
      /\ Z.of_nat (eliminated_count (grid st)) = Z.of_nat ROWS * Z.of_nat COLS).
Proof.
  intros HR HC st.
  assert (wf ROWS COLS (initial_state ROWS COLS rand rs)) as Hwf0
    by (apply resetGame_wf, static_state_wf).
  pose proof (run_counters_ok evs _ Hwf0 (resetGame_counters_ok _)) as [Ha Hs].
  pose proof (run_Inv ROWS COLS rand dims_int evs _
                (initial_state_Inv ROWS COLS rand rs)) as (Hwf & _ & _ & Hgo).
  assert (untouched st) as HU.
  { apply run_untouched; [apply initial_state_Inv|].
    apply resetGame_untouched, static_state_wf. }
  fold st in Ha, Hs, Hwf, Hgo.
  pose proof (eliminated_count_le (grid st)) as HE.
  unfold untouched in HU.
  split.
  - destruct (Z.eq_dec (attempts st) 0) as [E0|]; [|lia].
    specialize (HU E0). nia.
  - intros Hpos Hmax.
    assert (attempts st = 1) as Ha1.
    { destruct (Z.eq_dec (attempts st) 0) as [E0|]; [|lia].
      specialize (HU E0). lia. }
    assert (Z.of_nat (eliminated_count (grid st))
            = Z.of_nat ROWS * Z.of_nat COLS) as HEq by lia.
    split; [exact Ha1|]. split; [|exact HEq].
    apply Hgo. split; [lia|].
    apply anyActiveCell_false. intros i j Hi Hj.
    destruct (eliminated (grid_at (grid st) i j)) eqn:El; [reflexivity|].
    exfalso.
    pose proof (active_eliminated_total (grid st)) as Ht.
    assert (In (i, j) (List.filter (active (grid st)) (cells ROWS COLS))) as Hin.
    { apply filter_In. split; [apply in_cells; split; assumption|].
      unfold active. simpl. rewrite El. reflexivity. }
    destruct (List.filter (active (grid st)) (cells ROWS COLS)) as [|p l];
      [destruct Hin|]. simpl in Ht. unfold eliminated_count in HEq. lia.
Qed.

(** ** The colours of a new game *)

(** The generator after [n] calls of [rand()], and the value the next call
    returns. *)
Fixpoint rand_state (n : nat) (rs : RandState) : RandState :=
  match n with
  | O => rs
  | Datatypes.S n => snd (rand (rand_state n rs))
  end.

Definition rand_value (n : nat) (rs : RandState) : Z :=
  fst (rand (rand_state n rs)).

(** The cell [resetGame] writes at row [i], column [j] when the generator
    starts from [rs]: its colour comes from the three calls of [rand()]
    after the [3 * (i * COLS + j)] calls made for the cells before it. *)
Definition new_cell (rs : RandState) (i j : nat) : Quad :=
  let k := (3 * (i * COLS + j))%nat in
  mkQuad (center i j)
    (mkvec3 (F32.of_int QUAD_W) (F32.of_int QUAD_H) (F32.of_int 1))
    (mkvec3 (channel (rand_value k rs)) (channel (rand_value (k + 1) rs))
            (channel (rand_value (k + 2) rs)))
    false.

Lemma rand_step n rs :
  rand (rand_state n rs) = (rand_value n rs, rand_state (Datatypes.S n) rs).
Proof. unfold rand_value. simpl. destruct (rand (rand_state n rs)); reflexivity. Qed.

Lemma reset_cell_draws i j g rs :
  reset_cell rand i j (g, rand_state (3 * (i * COLS + j)) rs)
  = (grid_set g i j (new_cell rs i j),
     rand_state (3 * (i * COLS + j) + 3) rs).
Proof.
  unfold reset_cell, new_cell. cbv zeta.
  set (k := (3 * (i * COLS + j))%nat).
  rewrite (rand_step k).
  rewrite (rand_step (Datatypes.S k)).
  rewrite (rand_step (Datatypes.S (Datatypes.S k))).
  replace (k + 1)%nat with (Datatypes.S k) by lia.
  replace (k + 2)%nat with (Datatypes.S (Datatypes.S k)) by lia.
  replace (k + 3)%nat with (Datatypes.S (Datatypes.S (Datatypes.S k))) by lia.
  reflexivity.
Qed.

Lemma resetGame_loop g0 rs0 :
  wf_grid ROWS COLS g0 ->
  let r := for_range ROWS (fun i =>
             for_range COLS (fun j => reset_cell rand i j)) (g0, rs0) in
  wf_grid ROWS COLS (fst r)
  /\ snd r = rand_state (3 * (ROWS * COLS)) rs0
  /\ forall i j, (i < ROWS)%nat -> (j < COLS)%nat ->
       grid_at (fst r) i j = new_cell rs0 i j.
Proof.
  intros Hwf r. subst r.
  apply (for_range_ind
    (fun k (t : Grid * RandState) =>
       wf_grid ROWS COLS (fst t)
       /\ snd t = rand_state (3 * (k * COLS)) rs0
       /\ forall i j, (i < k)%nat -> (j < COLS)%nat ->
            grid_at (fst t) i j = new_cell rs0 i j)).
  - simpl. split; [exact Hwf|]. split; [reflexivity|]. intros; lia.
  - intros k t Hk (Hw & Hs & Hcells).
    assert (let u := for_range COLS (fun j => reset_cell rand k j) t in
            wf_grid ROWS COLS (fst u)
            /\ snd u = rand_state (3 * (k * COLS + COLS)) rs0
            /\ (forall i j, (i < k)%nat -> (j < COLS)%nat ->
                  grid_at (fst u) i j = new_cell rs0 i j)
            /\ forall j, (j < COLS)%nat ->
                 grid_at (fst u) k j = new_cell rs0 k j) as H.
    { apply (for_range_ind
        (fun m (u : Grid * RandState) =>
           wf_grid ROWS COLS (fst u)
           /\ snd u = rand_state (3 * (k * COLS + m)) rs0
           /\ (forall i j, (i < k)%nat -> (j < COLS)%nat ->
                 grid_at (fst u) i j = new_cell rs0 i j)
           /\ forall j, (j < m)%nat ->
                grid_at (fst u) k j = new_cell rs0 k j)).
      - rewrite Nat.add_0_r. refine (conj Hw (conj Hs (conj Hcells _))).
        intros; lia.
      - intros m [g rs'] Hm (Hw' & Hs' & Hold & Hrow). simpl in Hs'. subst rs'.
        rewrite reset_cell_draws. simpl.
        split; [apply grid_set_wf, Hw'|].
        split; [f_equal; lia|]. split.
        + intros i j Hi Hj. rewrite grid_at_set_ne by (intros E; inversion E; lia).
          apply Hold; assumption.
        + intros j Hj. destruct (decide (j = m)) as [->|Hne].
          * apply (grid_at_set_eq ROWS COLS); assumption.
          * rewrite grid_at_set_ne by (intros E; inversion E; lia).
            apply Hrow. lia. }
    cbv zeta in H. destruct H as (Hw' & Hs' & Hold & Hrow).
    split; [exact Hw'|]. split; [rewrite Hs'; f_equal; lia|].
    intros i j Hi Hj. destruct (decide (i = k)) as [->|Hne].
    + apply Hrow, Hj.
    + apply Hold; [lia|exact Hj].
Qed.

(** X10: [resetGame] draws the colours in the order of the loops, red, green
    and blue of one cell after the other: it calls [rand()] exactly
    [3 * ROWS * COLS] times, and the cell in row [i], column [j] gets the
    values of the calls number [3 * (i * COLS + j)] and the two after. *)
Theorem resetGame_draws (st : State RandState) i j :
  wf_grid ROWS COLS (grid st) -> (i < ROWS)%nat -> (j < COLS)%nat ->
  let st' := resetGame ROWS COLS rand st in
  let k := (3 * (i * COLS + j))%nat in
  randState st' = rand_state (3 * (ROWS * COLS)) (randState st)
  /\ color (grid_at (grid st') i j)
     = mkvec3 (channel (rand_value k (randState st)))
              (channel (rand_value (k + 1) (randState st)))
              (channel (rand_value (k + 2) (randState st))).
Proof.
  intros Hwf Hi Hj st' k. subst st'. unfold resetGame.
  destruct (resetGame_loop (grid st) (randState st) Hwf) as (_ & Hs & Hc).
  destruct (for_range ROWS _ _) as [g rs]. simpl in *.
  split; [exact Hs|]. rewrite (Hc i j Hi Hj). reflexivity.
Qed.

(** X11: A restart keeps nothing of the game before it: the state after
    [resetGame] is determined by the state of the generator alone. *)
Theorem resetGame_forgets (st1 st2 : State RandState) :
  wf_grid ROWS COLS (grid st1) -> wf_grid ROWS COLS (grid st2) ->
  randState st1 = randState st2 ->
  resetGame ROWS COLS rand st1 = resetGame ROWS COLS rand st2.
Proof.
  intros H1 H2 Hrs. unfold resetGame.
  destruct (resetGame_loop (grid st1) (randState st1) H1) as (W1 & S1 & C1).
  destruct (resetGame_loop (grid st2) (randState st2) H2) as (W2 & S2 & C2).
  destruct (for_range ROWS _ (grid st1, randState st1)) as [g1 r1].
  destruct (for_range ROWS _ (grid st2, randState st2)) as [g2 r2].
  simpl in *. subst r1 r2. rewrite Hrs. f_equal.
  apply (grid_ext ROWS COLS); [exact W1|exact W2|].
  intros i j Hi Hj. rewrite C1, C2 by assumption. rewrite Hrs. reflexivity.
Qed.

(** ** The cells throughout a game *)

Lemma resetGame_grid (st : State RandState) :
  wf_grid ROWS COLS (grid st) ->
  (forall i j, (i < ROWS)%nat -> (j < COLS)%nat ->
     grid_at (grid (resetGame ROWS COLS rand st)) i j
     = new_cell (randState st) i j)
  /\ randState (resetGame ROWS COLS rand st)
     = rand_state (3 * (ROWS * COLS)) (randState st).
Proof.
  intros Hwf. unfold resetGame.
  destruct (resetGame_loop (grid st) (randState st) Hwf) as (_ & Hs & Hc).
  destruct (for_range ROWS _ _) as [g rs]. simpl in *.
  split; assumption.
Qed.

Lemma step_randState (st : State RandState) e :
  wf ROWS COLS st -> is_restart e = false ->
  randState (step ROWS COLS rand st e) = randState st.
Proof.
  intros Hwf Hr. destruct e as [b a x y|k a|]; simpl.
  - rewrite (mouse_button_callback_cases ROWS COLS dims_int). cbv zeta.
    destruct (_ && _); reflexivity.
  - rewrite key_callback_cases, Hr. reflexivity.
  - destruct (pending st) eqn:Hp.
    + destruct (process_selection_pending ROWS COLS dims_int st Hwf Hp)
        as [_ ->]. reflexivity.
    + rewrite process_selection_idle by exact Hp. reflexivity.
Qed.

(** The cells are those of the last restart, which began with the
    generator in the state [seed]. *)
Definition dealt (seed : RandState) (st : State RandState) : Prop :=
  (forall i j, (i < ROWS)%nat -> (j < COLS)%nat ->
     same_cell (new_cell seed i j) (grid_at (grid st) i j))
  /\ randState st = rand_state (3 * (ROWS * COLS)) seed.

Lemma step_dealt (st : State RandState) e :
  wf ROWS COLS st -> (exists seed, dealt seed st) ->
  exists seed, dealt seed (step ROWS COLS rand st e).
Proof.
  intros Hwf [seed [Hc Hr]].
  destruct (is_restart e) eqn:Er.
  - destruct e as [b a x y|k a|]; try discriminate. simpl.
    rewrite key_callback_cases, Er. exists (randState st).
    destruct (resetGame_grid st (proj1 Hwf)) as [Hg Hs].
    split; [|exact Hs].
    intros i j Hi Hj. rewrite (Hg i j Hi Hj). repeat split.
  - exists seed. split.
    + intros i j Hi Hj.
      destruct (step_same_cell st e i j Hwf Er Hi Hj) as [(H1 & H2 & H3) _].
      destruct (Hc i j Hi Hj) as (K1 & K2 & K3).
      unfold same_cell. rewrite H1, H2, H3. repeat split; assumption.
    + rewrite (step_randState st e Hwf Er). exact Hr.
Qed.

Lemma run_dealt evs (st : State RandState) :
  wf ROWS COLS st -> (exists seed, dealt seed st) ->
  exists seed, dealt seed (run ROWS COLS rand evs st).
Proof.
  revert st. induction evs as [|e evs IH]; intros st Hwf H; [exact H|].
  apply (IH (step ROWS COLS rand st e)).
  - apply step_wf; assumption.
  - apply step_dealt; assumption.
Qed.

Hypothesis rand_nonneg : forall s, 0 <= fst (rand s).

(** X12: Throughout a game, and not only after a restart, every cell stays
    where the last restart put it, at its centre [center i j], with the
    size [(100, 100, 1)], in the colour the last restart drew
    for it from the generator, every channel between 0 and 1; and the
    generator is [3 * ROWS * COLS] calls on from where that restart found
    it. *)
Theorem game_cells rs evs i j :
  (i < ROWS)%nat -> (j < COLS)%nat ->
  let st := run ROWS COLS rand evs (initial_state ROWS COLS rand rs) in
  let q := grid_at (grid st) i j in
  position q = center i j
  /\ dimensions q = mkvec3 (F32.of_int QUAD_W) (F32.of_int QUAD_H) (F32.of_int 1)
  /\ (exists seed,
        color q = color (new_cell seed i j)
        /\ randState st = rand_state (3 * (ROWS * COLS)) seed)
  /\ forall ch, In ch [v_r (color q); v_g (color q); v_b (color q)] ->
       SFleb (S754_zero false) ch = true /\ SFleb ch (F32.of_int 1) = true.
Proof.
  intros Hi Hj st q.
  assert (wf ROWS COLS (initial_state ROWS COLS rand rs)) as Hwf0
    by (apply resetGame_wf, static_state_wf).
  assert (exists seed, dealt seed (initial_state ROWS COLS rand rs)) as Hd0.
  { exists rs. unfold initial_state.
    destruct (resetGame_grid (static_state ROWS COLS rs)
                (static_state_wf ROWS COLS rs)) as [Hg Hs].
    split; [|exact Hs].
    intros i' j' Hi' Hj'. rewrite (Hg i' j' Hi' Hj'). repeat split. }
  destruct (run_dealt evs _ Hwf0 Hd0) as [seed [Hc Hr]].
  fold st in Hc, Hr. destruct (Hc i j Hi Hj) as (H1 & H2 & H3). fold q in H1, H2, H3.
  split; [rewrite H1; reflexivity|]. split; [rewrite H2; reflexivity|].
  split; [exists seed; split; assumption|].
  intros ch Hch. rewrite H3 in Hch. simpl in Hch.
  assert (forall n, 0 <= n ->
            SFleb (S754_zero false) (channel n) = true
            /\ SFleb (channel n) (F32.of_int 1) = true) as Hn.
  { intros n Hn. destruct (channel_level n Hn) as (k & _ & _ & _ & Ha & Hb).
    split; assumption. }
  destruct Hch as [<-|[<-|[<-|[]]]]; apply Hn, rand_nonneg.
Qed.

End Play.

(** ** The colour distance *)

(** [y] is [-x], the two zeros being one number. *)
Definition SFopposite (x y : spec_float) : Prop :=
  y = SFopp x \/ ((exists s, x = S754_zero s) /\ exists s, y = S754_zero s).

Lemma SFopp_involutive x : SFopp (SFopp x) = x.
Proof. destruct x as [s|s| |s m e]; simpl; rewrite ?negb_involutive; reflexivity. Qed.

Lemma binary_normalize_opposite prec emax N e :
  SFopposite (binary_normalize prec emax N e false)
             (binary_normalize prec emax (- N) e false).
Proof.
  destruct N as [|p|p]; simpl.
  - right. split; exists false; reflexivity.
  - left. apply binary_round_opp.
  - left. rewrite binary_round_opp, SFopp_involutive. reflexivity.
Qed.

(** [a - b] and [b - a] are opposite. *)
Lemma SFsub_opposite prec emax a b :
  SFopposite (SFsub prec emax a b) (SFsub prec emax b a).
Proof.
  destruct a as [sa|sa| |sa ma ea], b as [sb|sb| |sb mb eb];
    try (left; reflexivity);
    try (destruct sa, sb; first [left; reflexivity
                                | right; split; eexists; reflexivity]);
    try (left; simpl; rewrite ?negb_involutive; reflexivity).
  all: unfold SFsub; rewrite (Z.min_comm eb ea);
    match goal with
    | |- SFopposite (binary_normalize _ _ ?N _ _) (binary_normalize _ _ ?M _ _) =>
        replace M with (- N) by lia
    end; apply binary_normalize_opposite.
Qed.

(** Opposite numbers have the same square. *)
Lemma SFmul_opposite prec emax x y :
  SFopposite x y -> SFmul prec emax y y = SFmul prec emax x x.
Proof.
  intros [->|[[s ->] [s' ->]]].
  - destruct x as [[]|[]| |[] m e]; reflexivity.
  - destruct s, s'; reflexivity.
Qed.

(** The distance of two colours is the same in both directions, bit for
    bit, whatever the channels hold. *)
Lemma normalizedDist_sym c t : normalizedDist c t = normalizedDist t c.
Proof.
  unfold normalizedDist, F32.sub, F32.mul.
  rewrite (SFmul_opposite _ _ _ _ (SFsub_opposite F32.prec F32.emax (v_r t) (v_r c))).
  rewrite (SFmul_opposite _ _ _ _ (SFsub_opposite F32.prec F32.emax (v_g t) (v_g c))).
  rewrite (SFmul_opposite _ _ _ _ (SFsub_opposite F32.prec F32.emax (v_b t) (v_b c))).
  reflexivity.
Qed.

(** A number, finite or zero, is at distance [+0] from itself. *)
Lemma SFsub_diag prec emax x :
  SFnumber x -> exists s, SFsub prec emax x x = S754_zero s.
Proof.
  destruct x as [[]| | |s m e]; intros H; try contradiction;
    try (eexists; reflexivity).
  exists false. unfold SFsub. rewrite Z.sub_diag. reflexivity.
Qed.

Definition number3 (c : vec3) : Prop :=
  SFnumber (v_x c) /\ SFnumber (v_y c) /\ SFnumber (v_z c).

Lemma normalizedDist_diag c :
  number3 c -> normalizedDist c c = S754_zero false.
Proof.
  intros (Hx & Hy & Hz). unfold normalizedDist, v_r, v_g, v_b, F32.sub.
  destruct (SFsub_diag F32.prec F32.emax _ Hx) as [sx ->].
  destruct (SFsub_diag F32.prec F32.emax _ Hy) as [sy ->].
  destruct (SFsub_diag F32.prec F32.emax _ Hz) as [sz ->].
  destruct sx, sy, sz; vm_compute; reflexivity.
Qed.

Section Similar.

Variables ROWS COLS : nat.
Context {RandState : Type}.
Hypothesis dims_int : Z.of_nat ROWS * Z.of_nat COLS < 2 ^ 31.

(** The state with the cell in row [i], column [j] selected. *)
Definition select (i j : nat) (st : State RandState) : State RandState :=
  set_iSelected (Z.of_nat i * Z.of_nat COLS + Z.of_nat j) st.

(** X13: Similarity is symmetric: of two active cells, resolving a click on the
    first eliminates the second exactly when resolving a click on the second
    eliminates the first.  (It is not transitive.) *)
Theorem eliminarSimilares_symmetric tol (st : State RandState) i1 j1 i2 j2 :
  wf_grid ROWS COLS (grid st) ->
  (i1 < ROWS)%nat -> (j1 < COLS)%nat -> (i2 < ROWS)%nat -> (j2 < COLS)%nat ->
  (i1, j1) <> (i2, j2) ->
  eliminated (grid_at (grid st) i1 j1) = false ->
  eliminated (grid_at (grid st) i2 j2) = false ->
  eliminated (grid_at
    (grid (snd (eliminarSimilares ROWS COLS tol (select i1 j1 st)))) i2 j2)
  = eliminated (grid_at
      (grid (snd (eliminarSimilares ROWS COLS tol (select i2 j2 st)))) i1 j1).
Proof.
  intros Hwf Hi1 Hj1 Hi2 Hj2 Hne H1 H2.
  assert (selected ROWS COLS (iSelected (select i1 j1 st)) i1 j1) as S1
    by (repeat split; assumption).
  assert (selected ROWS COLS (iSelected (select i2 j2 st)) i2 j2) as S2
    by (repeat split; assumption).
  rewrite (eliminarSimilares_other ROWS COLS dims_int tol (select i1 j1 st)
             i1 j1 i2 j2 Hwf S1 Hi2 Hj2 (fun E => Hne (eq_sym E))).
  rewrite (eliminarSimilares_other ROWS COLS dims_int tol (select i2 j2 st)
             i2 j2 i1 j1 Hwf S2 Hi1 Hj1 Hne).
  rewrite !eliminated_scanned. simpl. rewrite H1, H2. simpl.
  unfold similar. rewrite normalizedDist_sym. reflexivity.
Qed.

(** X14: Every cell with the very colour of the clicked cell goes with it, for
    every tolerance that is not negative: a colour is at distance 0 from
    itself. *)
Theorem eliminarSimilares_same_colour tol (st : State RandState) i j i' j' :
  wf_grid ROWS COLS (grid st) -> selected ROWS COLS (iSelected st) i j ->
  (i' < ROWS)%nat -> (j' < COLS)%nat ->
  SFleb (S754_zero false) tol = true ->
  number3 (color (grid_at (grid st) i j)) ->
  color (grid_at (grid st) i' j') = color (grid_at (grid st) i j) ->
  eliminated (grid_at (grid (snd (eliminarSimilares ROWS COLS tol st))) i' j')
  = true.
Proof.
  intros Hwf Hsel Hi Hj Htol Hnum Hcol.
  destruct (decide ((i', j') = (i, j))) as [E|Hne].
  - inversion E; subst.
    apply (eliminarSimilares_clicked ROWS COLS dims_int); assumption.
  - rewrite (eliminarSimilares_other ROWS COLS dims_int tol st i j i' j'
               Hwf Hsel Hi Hj Hne).
    rewrite eliminated_scanned. unfold similar.
    rewrite Hcol, (normalizedDist_diag _ Hnum), Htol.
    apply orb_true_r.
Qed.

End Similar.

(** ** The cell under the cursor, all over the window *)

(** [const GLuint WIDTH = 800], [HEIGHT = 600]. *)
Definition WIDTH : Z := 800.
Definition HEIGHT : Z := 600.

(** Between two positions every position has its truncated [cell_pos]
    between theirs. *)
Lemma cell_pos_bounds lo ph x a b :
  SFnumber lo -> SFnumber ph -> SFle lo x -> SFle x ph ->
  SFtrunc (cell_pos lo) = Some a -> SFtrunc (cell_pos ph) = Some b ->
  exists t, SFtrunc (cell_pos x) = Some t /\ a <= t <= b.
Proof.
  intros Hlo Hph Hlx Hxp Tlo Tph.
  pose proof (SFnumber_between lo x ph Hlo Hph Hlx Hxp) as Hx.
  unfold cell_pos in *.
  assert (exists m50 e50, F64.of_int 50 = S754_finite false m50 e50
            /\ bounded F64.prec F64.emax m50 e50 = true)
    as (m50 & e50 & E50 & B50) by (eexists _, _; split; reflexivity).
  assert (exists m100 e100, F64.of_int 100 = S754_finite false m100 e100)
    as (m100 & e100 & E100) by (eexists _, _; reflexivity).
  rewrite E50, E100 in *.
  pose proof (SFsub_mono F64.prec F64.emax F64_prec_pos lo x false m50 e50
                Hlo Hx B50 Hlx) as Hs1.
  pose proof (SFsub_mono F64.prec F64.emax F64_prec_pos x ph false m50 e50
                Hx Hph B50 Hxp) as Hs2.
  unfold F64.div, F64.sub in *.
  pose proof (SFdiv_number_inv F64.prec F64.emax _ false m100 e100
                (SFtrunc_number _ _ Tlo)) as Nlo.
  pose proof (SFdiv_number_inv F64.prec F64.emax _ false m100 e100
                (SFtrunc_number _ _ Tph)) as Nph.
  pose proof (SFnumber_between _ _ _ Nlo Nph Hs1 Hs2) as Nx.
  pose proof (SFdiv_mono F64.prec F64.emax F64_prec_pos _ _ m100 e100
                Nlo Nx Hs1) as Hd1.
  pose proof (SFdiv_mono F64.prec F64.emax F64_prec_pos _ _ m100 e100
                Nx Nph Hs2) as Hd2.
  pose proof (SFnumber_between _ _ _ (SFtrunc_number _ _ Tlo)
                (SFtrunc_number _ _ Tph) Hd1 Hd2) as Nq.
  destruct (SFtrunc_mono _ _ (SFtrunc_number _ _ Tlo) Nq Hd1)
    as (a' & t & Ha & Ht & Hat).
  destruct (SFtrunc_mono _ _ Nq (SFtrunc_number _ _ Tph) Hd2)
    as (t' & b' & Ht' & Hb & Htb).
  rewrite Tlo in Ha. rewrite Tph in Hb. rewrite Ht in Ht'.
  inversion Ha. inversion Hb. inversion Ht'. subst.
  exists t'. split; [exact Ht|lia].
Qed.

(** The positions from [lo] up to, and without, [hi], for two numbers that
    are not negative. *)
Definition from_to (lo hi pos : spec_float) : Prop :=
  F64.valid pos = true /\ SFleb lo pos = true /\ SFltb pos hi = true.

(** The least and the greatest position of [from_to lo hi] have their
    truncated [cell_pos] at [a] and at [b]. *)
Definition ends_at (lo hi : spec_float) (a b : Z) : bool :=
  match lo, hi with
  | S754_finite true _ _, _ => false
  | (S754_zero _ | S754_finite _ _ _), S754_finite false mh eh =>
      F64.valid lo && bounded F64.prec F64.emax mh eh
      && match SFtrunc (cell_pos lo),
               SFtrunc (cell_pos (SFpred_pos_fin F64.prec F64.emax mh eh)) with
         | Some a', Some b' => (a' =? a) && (b' =? b)
         | _, _ => false
         end
  | _, _ => false
  end.

Lemma from_to_cell_index lo hi a b pos :
  ends_at lo hi a b = true -> INT_MIN <= a -> b <= INT_MAX ->
  from_to lo hi pos ->
  a <= cell_index pos QUAD_W <= b /\ a <= cell_index pos QUAD_H <= b.
Proof.
  intros Hends Ha Hb (Hv & Hlo & Hhi).
  assert (exists t, SFtrunc (cell_pos pos) = Some t /\ a <= t <= b) as (t & Ht & Hr).
  { unfold ends_at in Hends.
    destruct lo as [sl| | |[] ml el]; try discriminate;
      destruct hi as [| | |[] mh eh]; try discriminate;
      apply andb_true_iff in Hends; destruct Hends as [Hends Ht];
      apply andb_true_iff in Hends; destruct Hends as [Hvl Hvh];
      (destruct (SFtrunc (cell_pos _)) as [a'|] eqn:Ta; [|discriminate]);
      (destruct (SFtrunc (cell_pos (SFpred_pos_fin _ _ _ _))) as [b'|] eqn:Tb;
        [|discriminate]);
      apply andb_true_iff in Ht; destruct Ht as [Ea Eb];
      apply Z.eqb_eq in Ea, Eb; subst a' b'.
    - destruct (SFleb_SFle F64.prec F64.emax F64_prec_pos (S754_zero sl) pos
                  I I Hvl Hv Hlo) as [Hnn Hle].
      destruct (SFltb_pred F64.prec F64.emax F64_prec_pos pos mh eh Hnn Hv Hvh Hhi)
        as [_ Hlp].
      exact (cell_pos_bounds (S754_zero sl) _ pos _ _ I
               (SFpred_pos_fin_number _ _ _ _) Hle Hlp Ta Tb).
    - destruct (SFleb_SFle F64.prec F64.emax F64_prec_pos
                  (S754_finite false ml el) pos I I Hvl Hv Hlo) as [Hnn Hle].
      destruct (SFltb_pred F64.prec F64.emax F64_prec_pos pos mh eh Hnn Hv Hvh Hhi)
        as [_ Hlp].
      exact (cell_pos_bounds (S754_finite false ml el) _ pos _ _ I
               (SFpred_pos_fin_number _ _ _ _) Hle Hlp Ta Tb). }
  destruct (cell_index_cell_pos pos) as [-> ->].
  rewrite (static_cast_int_trunc _ t Ht) by lia. lia.
Qed.

(** The band of the cell [c] of a row or column: the positions of
    [c * 100 + 50 <= pos < c * 100 + 150], from the middle of the drawn
    cell [c] to the middle of the next. *)
Definition band (c : Z) (pos : spec_float) : Prop :=
  from_to (F64.of_int (c * 100 + 50)) (F64.of_int (c * 100 + 150)) pos.

Definition band_ends (c : Z) : bool :=
  ends_at (F64.of_int (c * 100 + 50)) (F64.of_int (c * 100 + 150)) c c.

Lemma band_ends_below c : 0 <= c < Z.pos exact_dim -> band_ends c = true.
Proof.
  apply check_below_spec. vm_cast_no_check (eq_refl true).
Qed.

Lemma band_cell_index c pos :
  0 <= c < Z.pos exact_dim -> band c pos ->
  cell_index pos QUAD_W = c /\ cell_index pos QUAD_H = c.
Proof.
  intros Hc Hpos.
  assert (Z.pos exact_dim < 2 ^ 31) as Hd by reflexivity.
  assert (- 2 ^ 31 < 0) as Hm by reflexivity.
  destruct (from_to_cell_index _ _ c c pos (band_ends_below c Hc)) as [H1 H2];
    [unfold INT_MIN; lia|unfold INT_MAX; lia|exact Hpos|].
  lia.
Qed.

(** X2: [cell_index] is [c] on the whole band of the cell [c], for every
    double there: a cell answers to the clicks between its middle and the
    middle of the next cell, in [x] and in [y]. *)
Theorem cell_index_band c pos :
  0 <= c < Z.pos exact_dim -> band c pos ->
  cell_index pos QUAD_W = c /\ cell_index pos QUAD_H = c.
Proof.
  intros Hc Hpos. split; apply (band_cell_index c pos Hc Hpos).
Qed.

(** X3: Every position inside the window, [0 <= xpos < WIDTH] and
    [0 <= ypos < HEIGHT], has a column among the 8 and a row among the 6 of
    the grid: no click inside the window is turned away for its position,
    and while the game is on it selects the cell the mapping gives whenever
    that cell is active. *)
Theorem click_in_window {RandState : Type} (st : State RandState) xpos ypos :
  from_to (F64.of_int 0) (F64.of_int WIDTH) xpos ->
  from_to (F64.of_int 0) (F64.of_int HEIGHT) ypos ->
  let col := cell_index xpos QUAD_W in
  let row := cell_index ypos QUAD_H in
  0 <= col < Z.of_nat COLS /\ 0 <= row < Z.of_nat ROWS
  /\ (gameOver st = false ->
      eliminated (grid_at (grid st) (Z.to_nat row) (Z.to_nat col)) = false ->
      mouse_button_callback ROWS COLS GLFW_MOUSE_BUTTON_LEFT GLFW_PRESS
        xpos ypos st
      = set_iSelected (row * Z.of_nat COLS + col) st).
Proof.
  intros Hx Hy col row.
  assert (ends_at (F64.of_int 0) (F64.of_int WIDTH) 0 7 = true) as Ex
    by (vm_compute; reflexivity).
  assert (ends_at (F64.of_int 0) (F64.of_int HEIGHT) 0 5 = true) as Ey
    by (vm_compute; reflexivity).
  assert (INT_MIN <= 0) as Hmin by (vm_compute; discriminate).
  assert (7 <= INT_MAX) as Hmax7 by (vm_compute; discriminate).
  assert (5 <= INT_MAX) as Hmax5 by (vm_compute; discriminate).
  destruct (from_to_cell_index _ _ 0 7 xpos Ex Hmin Hmax7 Hx) as [Hc _].
  destruct (from_to_cell_index _ _ 0 5 ypos Ey Hmin Hmax5 Hy) as [_ Hr].
  fold col in Hc. fold row in Hr.
  assert (Z.of_nat COLS = 8) as EC by reflexivity.
  assert (Z.of_nat ROWS = 6) as ER by reflexivity.
  split; [lia|]. split; [lia|].
  intros Hgo Hact.
  rewrite (mouse_button_callback_cases ROWS COLS source_dims). cbv zeta.
  fold col row. rewrite Hgo, Hact.
  assert (in_grid ROWS COLS row col = true) as ->
    by (apply in_grid_true; lia).
  reflexivity.
Qed.

(** The middle of the drawn cell [c], [c * 100 + 50], begins its band. *)
Definition centre_ok (c : Z) : bool :=
  let pos := F64.of_int (c * 100 + 50) in
  F64.valid pos && SFleb pos pos && SFltb pos (F64.of_int (c * 100 + 150)).

Lemma centre_ok_below c : 0 <= c < Z.pos exact_dim -> centre_ok c = true.
Proof.
  apply check_below_spec. vm_cast_no_check (eq_refl true).
Qed.

(** X22: A click on the very middle of a drawn cell selects that cell: the
    pixel [(c * 100 + 50, r * 100 + 50)], where [resetGame] centres the
    cell of row [r] and column [c], has the column [c] and the row [r],
    and a left press there, while the game is on and the cell is active,
    records [r * COLS + c]. *)
Theorem click_centre (r c : Z) :
  0 <= r < Z.pos exact_dim -> 0 <= c < Z.pos exact_dim ->
  cell_index (F64.of_int (c * 100 + 50)) QUAD_W = c
  /\ cell_index (F64.of_int (r * 100 + 50)) QUAD_H = r
  /\ forall (rows cols : nat) (RandState : Type) (st : State RandState),
       Z.of_nat rows * Z.of_nat cols < 2 ^ 31 ->
       r < Z.of_nat rows -> c < Z.of_nat cols ->
       gameOver st = false ->
       eliminated (grid_at (grid st) (Z.to_nat r) (Z.to_nat c)) = false ->
       mouse_button_callback rows cols GLFW_MOUSE_BUTTON_LEFT GLFW_PRESS
         (F64.of_int (c * 100 + 50)) (F64.of_int (r * 100 + 50)) st
       = set_iSelected (r * Z.of_nat cols + c) st.
Proof.
  intros Hr Hc.
  assert (forall k, 0 <= k < Z.pos exact_dim ->
            band k (F64.of_int (k * 100 + 50))) as Hband.
  { intros k Hk. pose proof (centre_ok_below k Hk) as H.
    unfold centre_ok in H. cbv zeta in H.
    rewrite !andb_true_iff in H. destruct H as [[H1 H2] H3].
    repeat split; assumption. }
  destruct (band_cell_index c _ Hc (Hband c Hc)) as [Hcol _].
  destruct (band_cell_index r _ Hr (Hband r Hr)) as [_ Hrow].
  split; [exact Hcol|]. split; [exact Hrow|].
  intros rows cols RandState st Hd Hrr Hcc Hgo Hact.
  rewrite (mouse_button_callback_cases rows cols Hd). cbv zeta.
  rewrite Hcol, Hrow, Hgo, Hact.
  assert (in_grid rows cols r c = true) as ->
    by (apply in_grid_true; lia).
  reflexivity.
Qed.

(** * The program around the game *)

From Stdlib Require Import Ascii DecimalString DecimalZ.
From stdpp Require Import strings.
Local Open Scope Z_scope.

(** [operator<<] for an [int]: the decimal digits, after a minus sign for a
    negative number. *)
Definition print_int (n : Z) : string :=
  NilEmpty.string_of_int (Z.to_int n).

Lemma append_cons c a b : String c a +:+ b = String c (a +:+ b).
Proof. reflexivity. Qed.

(** One draw of the unit quad: the vectors the model matrix is made of,
    [scale(translate(mat4(1.0f), position), dimensions)], and the colour
    sent to the fragment shader, [(c.r, c.g, c.b, 1.0f)]. *)
Record vec4 := mkvec4 {
  c_r : spec_float; c_g : spec_float; c_b : spec_float; c_a : spec_float
}.

Record DrawCall := mkDrawCall {
  translate : vec3;
  scale : vec3;
  fc : vec4
}.

(** What [glfwPollEvents] can deliver: the two callbacks, and the request to
    close the window, which GLFW records in the window's close flag. *)
Inductive Input :=
  | Mouse (button action : Z) (xpos ypos : spec_float)
  | Keyboard (key action : Z)
  | CloseRequest.

Module App.
Section App.

Variables ROWS COLS : nat.
Context {RandState : Type}.
Variable rand : RandState -> Z * RandState.

(** The game with what the window and the terminal hold: the title, the
    close flag, and the lines written to [cout]. *)
Record World := mkWorld {
  game : State RandState;
  title : string;
  shouldClose : bool;
  console : list string
}.

Definition set_game (st : State RandState) (w : World) : World :=
  mkWorld st (title w) (shouldClose w) (console w).
Definition set_title (s : string) (w : World) : World :=
  mkWorld (game w) s (shouldClose w) (console w).
Definition set_shouldClose (b : bool) (w : World) : World :=
  mkWorld (game w) (title w) b (console w).
Definition print (line : string) (w : World) : World :=
  mkWorld (game w) (title w) (shouldClose w) (console w ++ [line]).

(** The text [updateWindowTitle] builds in its [ostringstream]. *)
Definition title_text (st : State RandState) : string :=
  "Jogo das Cores — Score: " +:+ print_int (score st)
  +:+ " — Tentativas: " +:+ print_int (attempts st)
  +:+ (if gameOver st then " — FIM DE JOGO! Aperte R para reiniciar."
       else EmptyString).

Definition updateWindowTitle (w : World) : World :=
  set_title (title_text (game w)) w.

(** [resetGame]: the reset of the game, then the title. *)
Definition resetGame (w : World) : World :=
  updateWindowTitle (set_game (resetGame ROWS COLS rand (game w)) w).

Definition key_callback (key action : Z) (w : World) : World :=
  if (key =? GLFW_KEY_ESCAPE) && (action =? GLFW_PRESS)
  then set_shouldClose true w
  else if (key =? GLFW_KEY_R) && (action =? GLFW_PRESS)
  then print "Jogo reiniciado!" (resetGame w)
  else w.

Definition mouse_button_callback (button action : Z) (xpos ypos : spec_float)
    (w : World) : World :=
  set_game (mouse_button_callback ROWS COLS button action xpos ypos (game w)) w.

Definition glfwPollEvents (inputs : list Input) (w : World) : World :=
  fold_left (fun w i =>
    match i with
    | Mouse button action xpos ypos =>
        mouse_button_callback button action xpos ypos w
    | Keyboard key action => key_callback key action w
    | CloseRequest => set_shouldClose true w
    end) inputs w.

(** The processing of the pending selection in the main loop, with its
    lines on [cout] and the new title. *)
Definition process_selection (w : World) : World :=
  if (iSelected (game w) >=? 0) && negb (gameOver (game w)) then
    let '(removedCount, st1) :=
      eliminarSimilares ROWS COLS COLOR_TOLERANCE (game w) in
    let w1 := set_game st1 w in
    let w2 :=
      if removedCount >? 0 then
        let st' := set_attempts (attempts st1 + 1) st1 in
        let penalty := attempts st' in
        let st'' := set_score (score st' + (removedCount - penalty)) st' in
        let st3 := if score st'' <? 0 then set_score 0 st'' else st'' in
        print ("Tentativa " +:+ print_int (attempts st3)
               +:+ ": removidos " +:+ print_int removedCount
               +:+ " -> +" +:+ print_int removedCount
               +:+ " - " +:+ print_int penalty
               +:+ " = Score: " +:+ print_int (score st3))
          (set_game st3 w1)
      else w1 in
    let w3 :=
      if negb (anyActiveCell ROWS COLS (game w2)) then
        print ("FIM DE JOGO! Pontuacao final: " +:+ print_int (score (game w2)))
          (set_game (set_gameOver true (game w2)) w2)
      else w2 in
    let w4 := updateWindowTitle w3 in
    set_game (set_iSelected (-1) (game w4)) w4
  else w.

(** The drawing of a frame: one call for every cell that is not
    eliminated, row by row. *)
Definition draw (st : State RandState) : list DrawCall :=
  for_range ROWS (fun i =>
    for_range COLS (fun j (calls : list DrawCall) =>
      if negb (eliminated (grid_at (grid st) i j)) then
        let q := grid_at (grid st) i j in
        let c := color q in
        calls ++ [mkDrawCall (position q) (dimensions q)
                    (mkvec4 (v_r c) (v_g c) (v_b c) (F32.of_int 1))]
      else calls))
    [].

(** One turn of the main loop: the events, the selection, the frame. *)
Definition frame (inputs : list Input) (w : World) : World * list DrawCall :=
  let w1 := glfwPollEvents inputs w in
  let w2 := process_selection w1 in
  (w2, draw (game w2)).

(** [while (!glfwWindowShouldClose(gWindow))], over the inputs of the
    turns to come: the world when the loop ends or the inputs run out, and
    the frames drawn. *)
Fixpoint main_loop (turns : list (list Input)) (w : World)
    : World * list (list DrawCall) :=
  match turns with
  | [] => (w, [])
  | inputs :: turns' =>
      if shouldClose w then (w, [])
      else
        let '(w1, calls) := frame inputs w in
        let '(w2, frames) := main_loop turns' w1 in
        (w2, calls :: frames)
  end.

(** [main] once GLFW, the window and OpenGL are set up: the window has the
    title it was created with, [resetGame] starts the game and the loop
    runs.  [rs] is the generator as [srand] seeded it. *)
Definition main (rs : RandState) (turns : list (list Input))
    : World * list (list DrawCall) :=
  main_loop turns
    (resetGame (mkWorld (static_state ROWS COLS rs) "Jogo das Cores" false [])).

End App.
End App.

(** ** The game inside the program *)

(** The events of the game an input stands for. *)
Definition input_events (i : Input) : list Event :=
  match i with
  | Mouse button action xpos ypos => [MouseButton button action xpos ypos]
  | Keyboard key action => [Key key action]
  | CloseRequest => []
  end.

(** The inputs that close the window: a press of Escape, and the request
    to close. *)
Definition is_close (i : Input) : bool :=
  match i with
  | Keyboard key action => (key =? GLFW_KEY_ESCAPE) && (action =? GLFW_PRESS)
  | CloseRequest => true
  | Mouse _ _ _ _ => false
  end.

(** The turns of the loop that run: all up to the first that closes. *)
Fixpoint executed (turns : list (list Input)) : list (list Input) :=
  match turns with
  | [] => []
  | inputs :: turns' =>
      inputs :: (if existsb is_close inputs then [] else executed turns')
  end.

(** The events of the game in one turn of the loop. *)
Definition turn_events (inputs : list Input) : list Event :=
  flat_map input_events inputs ++ [Frame].

Section AppProperties.

Variables ROWS COLS : nat.
Context {RandState : Type}.
Variable rand : RandState -> Z * RandState.

Local Abbreviation World := (App.World (RandState := RandState)).

Lemma key_callback_game key action (w : World) :
  App.game (App.key_callback ROWS COLS rand key action w)
  = key_callback ROWS COLS rand key action (App.game w).
Proof.
  unfold App.key_callback, key_callback.
  destruct (_ && _); [reflexivity|]. destruct (_ && _); reflexivity.
Qed.

Lemma key_callback_shouldClose key action (w : World) :
  App.shouldClose (App.key_callback ROWS COLS rand key action w)
  = App.shouldClose w || is_close (Keyboard key action).
Proof.
  unfold App.key_callback. simpl.
  destruct ((key =? GLFW_KEY_ESCAPE) && (action =? GLFW_PRESS));
    [simpl; rewrite orb_true_r; reflexivity|].
  rewrite orb_false_r. destruct (_ && _); reflexivity.
Qed.

Lemma process_selection_game (w : World) :
  App.game (App.process_selection ROWS COLS w)
  = process_selection ROWS COLS (App.game w).
Proof.
  unfold App.process_selection, process_selection.
  destruct (_ && _); [|reflexivity].
  destruct (eliminarSimilares ROWS COLS COLOR_TOLERANCE (App.game w))
    as [removedCount st1].
  destruct (removedCount >? 0); simpl.
  - destruct (score st1 + (removedCount - (attempts st1 + 1)) <? 0); simpl;
      destruct (anyActiveCell ROWS COLS _); reflexivity.
  - destruct (anyActiveCell ROWS COLS st1); reflexivity.
Qed.

Lemma process_selection_shouldClose (w : World) :
  App.shouldClose (App.process_selection ROWS COLS w) = App.shouldClose w.
Proof.
  unfold App.process_selection.
  destruct (_ && _); [|reflexivity].
  destruct (eliminarSimilares ROWS COLS COLOR_TOLERANCE (App.game w))
    as [removedCount st1].
  destruct (removedCount >? 0); simpl.
  - destruct (score st1 + (removedCount - (attempts st1 + 1)) <? 0); simpl;
      destruct (anyActiveCell ROWS COLS _); reflexivity.
  - destruct (anyActiveCell ROWS COLS st1); reflexivity.
Qed.

Lemma glfwPollEvents_game inputs (w : World) :
  App.game (App.glfwPollEvents ROWS COLS rand inputs w)
  = run ROWS COLS rand (flat_map input_events inputs) (App.game w)
  /\ App.shouldClose (App.glfwPollEvents ROWS COLS rand inputs w)
     = App.shouldClose w || existsb is_close inputs.
Proof.
  revert w. induction inputs as [|i inputs IH]; intros w.
  - split; [reflexivity|]. simpl. rewrite orb_false_r. reflexivity.
  - unfold App.glfwPollEvents in *. simpl fold_left.
    destruct (IH (match i with
                  | Mouse button action xpos ypos =>
                      App.mouse_button_callback ROWS COLS button action xpos ypos w
                  | Keyboard key action => App.key_callback ROWS COLS rand key action w
                  | CloseRequest => App.set_shouldClose true w
                  end)) as [-> ->].
    destruct i as [b a x y|k a|]; simpl.
    + split; reflexivity.
    + rewrite key_callback_game, key_callback_shouldClose.
      split; [reflexivity|]. simpl. rewrite orb_assoc. reflexivity.
    + split; [reflexivity|]. simpl. rewrite orb_true_r. reflexivity.
Qed.

Lemma frame_game inputs (w : World) :
  App.game (fst (App.frame ROWS COLS rand inputs w))
  = run ROWS COLS rand (turn_events inputs) (App.game w)
  /\ App.shouldClose (fst (App.frame ROWS COLS rand inputs w))
     = App.shouldClose w || existsb is_close inputs.
Proof.
  unfold App.frame, turn_events. simpl.
  rewrite process_selection_game, process_selection_shouldClose.
  destruct (glfwPollEvents_game inputs w) as [-> ->].
  rewrite run_app. split; reflexivity.
Qed.

Lemma main_loop_cons inputs turns (w : World) :
  App.main_loop ROWS COLS rand (inputs :: turns) w
  = if App.shouldClose w then (w, [])
    else
      let '(w1, calls) := App.frame ROWS COLS rand inputs w in
      let '(w2, frames) := App.main_loop ROWS COLS rand turns w1 in
      (w2, calls :: frames).
Proof. reflexivity. Qed.

Lemma main_loop_closed turns (w : World) :
  App.shouldClose w = true -> App.main_loop ROWS COLS rand turns w = (w, []).
Proof.
  intros H. destruct turns; [reflexivity|]. rewrite main_loop_cons, H.
  reflexivity.
Qed.

(** The game inside the program is the game of [run]: after any turns of
    the main loop it is in the state [run] gives for the callbacks and the
    frames of the turns that ran, which are those up to the first with an
    Escape press or a close request; one frame is drawn for each of them,
    and the close flag is set exactly when one of them closed. *)
Lemma main_loop_run turns (w : World) :
  App.shouldClose w = false ->
  let r := App.main_loop ROWS COLS rand turns w in
  App.game (fst r)
  = run ROWS COLS rand (flat_map turn_events (executed turns)) (App.game w)
  /\ length (snd r) = length (executed turns)
  /\ App.shouldClose (fst r) = existsb (existsb is_close) (executed turns).
Proof.
  revert w. induction turns as [|inputs turns IH]; intros w Hc r; subst r.
  - simpl. repeat split. exact Hc.
  - rewrite main_loop_cons, Hc.
    destruct (frame_game inputs w) as [Hg Hs]. rewrite Hc in Hs.
    destruct (App.frame ROWS COLS rand inputs w) as [w1 calls].
    simpl in Hg, Hs. simpl executed.
    destruct (existsb is_close inputs) eqn:Ecl.
    + rewrite (main_loop_closed turns w1 Hs). simpl.
      rewrite Ecl, app_nil_r. repeat split; assumption.
    + specialize (IH w1 Hs). cbv zeta in IH.
      destruct (App.main_loop ROWS COLS rand turns w1) as [w2 frames].
      simpl in IH. destruct IH as (IH1 & IH2 & IH3).
      simpl. rewrite Ecl. simpl. rewrite run_app, <- Hg.
      split; [exact IH1|]. split; [rewrite IH2; reflexivity|exact IH3].
Qed.

(** X15: [main] runs the game of [run] from the initial state: the state of
    the game after any turns of the main loop is the one [run] gives for
    the callbacks and the frames of the turns that ran, which are those up
    to the first with an Escape press or a close request; one frame is
    drawn for each of them, and the loop has ended exactly when one of
    them closed the window. *)
Theorem main_run rs turns :
  let r := App.main ROWS COLS rand rs turns in
  App.game (fst r)
  = run ROWS COLS rand (flat_map turn_events (executed turns))
      (initial_state ROWS COLS rand rs)
  /\ length (snd r) = length (executed turns)
  /\ App.shouldClose (fst r) = existsb (existsb is_close) (executed turns).
Proof.
  apply (main_loop_run turns
           (App.resetGame ROWS COLS rand
              (App.mkWorld (static_state ROWS COLS rs) "Jogo das Cores"
                 false []))).
  reflexivity.
Qed.

(** X16: An Escape press or a close request ends the loop with the turn it
    comes in: the other inputs of that turn still reach the game, the
    selection is processed and the frame drawn, and no later turn runs;
    and a window already closed runs no turn at all. *)
Theorem close_ends_loop inputs turns (w : World) :
  App.shouldClose w = false -> existsb is_close inputs = true ->
  let w1 := fst (App.frame ROWS COLS rand inputs w) in
  App.main_loop ROWS COLS rand (inputs :: turns) w
  = (w1, [snd (App.frame ROWS COLS rand inputs w)])
  /\ App.game w1 = run ROWS COLS rand (turn_events inputs) (App.game w)
  /\ App.shouldClose w1 = true
  /\ forall turns', App.main_loop ROWS COLS rand turns' w1 = (w1, []).
Proof.
  intros Hc Hcl w1. subst w1.
  destruct (frame_game inputs w) as [Hg Hs]. rewrite Hc, Hcl in Hs.
  rewrite main_loop_cons, Hc.
  destruct (App.frame ROWS COLS rand inputs w) as [w1 calls].
  simpl in *. rewrite (main_loop_closed turns w1 Hs).
  repeat split; try assumption.
  intros turns'. apply main_loop_closed, Hs.
Qed.

(** *** The title *)

Definition in_sync (w : World) : Prop :=
  App.title w = App.title_text (App.game w).

Lemma title_text_mouse button action xpos ypos (st : State RandState) :
  App.title_text (mouse_button_callback ROWS COLS button action xpos ypos st)
  = App.title_text st.
Proof.
  unfold mouse_button_callback.
  destruct (_ && _); [|reflexivity]. destruct (_ && _); [|reflexivity].
  destruct (negb _); reflexivity.
Qed.

Lemma key_callback_sync key action (w : World) :
  in_sync w -> in_sync (App.key_callback ROWS COLS rand key action w).
Proof.
  intros H. unfold App.key_callback.
  destruct (_ && _); [exact H|]. destruct (_ && _); [reflexivity|exact H].
Qed.

Lemma process_selection_sync (w : World) :
  in_sync w -> in_sync (App.process_selection ROWS COLS w).
Proof.
  intros H. unfold App.process_selection.
  destruct (_ && _); [|exact H].
  destruct (eliminarSimilares ROWS COLS COLOR_TOLERANCE (App.game w))
    as [removedCount st1].
  reflexivity.
Qed.

Lemma glfwPollEvents_sync inputs (w : World) :
  in_sync w -> in_sync (App.glfwPollEvents ROWS COLS rand inputs w).
Proof.
  revert w. induction inputs as [|i inputs IH]; intros w H; [exact H|].
  unfold App.glfwPollEvents in *. simpl. apply IH.
  destruct i as [b a x y|k a|].
  - unfold in_sync, App.mouse_button_callback. simpl.
    rewrite title_text_mouse. exact H.
  - apply key_callback_sync, H.
  - exact H.
Qed.

Lemma main_loop_sync turns (w : World) :
  in_sync w -> in_sync (fst (App.main_loop ROWS COLS rand turns w)).
Proof.
  revert w. induction turns as [|inputs turns IH]; intros w H; [exact H|].
  rewrite main_loop_cons. destruct (App.shouldClose w); [exact H|].
  assert (in_sync (fst (App.frame ROWS COLS rand inputs w))) as H1
    by (apply process_selection_sync, glfwPollEvents_sync, H).
  destruct (App.frame ROWS COLS rand inputs w) as [w1 calls].
  specialize (IH w1 H1).
  destruct (App.main_loop ROWS COLS rand turns w1) as [w2 frames].
  exact IH.
Qed.

(** X17: The title of the window is never stale: after any turns of the main
    loop it is the text [updateWindowTitle] makes of the score, the
    attempts and the game-over flag as they then are. *)
Theorem title_in_sync rs turns :
  let w := fst (App.main ROWS COLS rand rs turns) in
  App.title w = App.title_text (App.game w).
Proof.
  apply main_loop_sync. reflexivity.
Qed.

(** *** The console *)

(** [s] begins with [p]. *)
Fixpoint starts_with (p s : string) : bool :=
  match p, s with
  | EmptyString, _ => true
  | String a p', String b s' => Ascii.eqb a b && starts_with p' s'
  | String _ _, EmptyString => false
  end.

Lemma starts_with_append p rest : starts_with p (p +:+ rest) = true.
Proof.
  induction p as [|a p IH]; [reflexivity|].
  rewrite append_cons. cbn [starts_with]. rewrite Ascii.eqb_refl. exact IH.
Qed.

Lemma starts_with_other a p b q rest :
  Ascii.eqb a b = false -> starts_with (String a p) (String b q +:+ rest) = false.
Proof.
  intros H. rewrite append_cons. cbn [starts_with]. rewrite H. reflexivity.
Qed.

(** What one more line on [cout] tells: a restart, an attempt, or the end
    of the game. *)
Definition log_line (acc : Z * bool) (line : string) : Z * bool :=
  if starts_with "Jogo reiniciado!" line then (0, false)
  else if starts_with "Tentativa " line then (fst acc + 1, snd acc)
  else if starts_with "FIM DE JOGO!" line then (fst acc, true)
  else acc.

(** What the lines on [cout] tell of the game since its last restart: the
    number of attempts reported, and whether the end of the game was. *)
Definition logged (console : list string) : Z * bool :=
  fold_left log_line console (0, false).

Definition in_log (w : World) : Prop :=
  logged (App.console w) = (attempts (App.game w), gameOver (App.game w)).

Lemma logged_snoc console line :
  logged (console ++ [line]) = log_line (logged console) line.
Proof. unfold logged. rewrite fold_left_app. reflexivity. Qed.

Lemma log_line_attempt acc rest :
  log_line acc ("Tentativa " +:+ rest) = (fst acc + 1, snd acc).
Proof.
  unfold log_line.
  rewrite (starts_with_other "J" _ "T" "entativa " rest eq_refl).
  rewrite starts_with_append. reflexivity.
Qed.

Lemma log_line_over acc rest :
  log_line acc ("FIM DE JOGO! Pontuacao final: " +:+ rest) = (fst acc, true).
Proof.
  unfold log_line.
  rewrite (starts_with_other "J" _ "F" "IM DE JOGO! Pontuacao final: " rest
             eq_refl).
  rewrite (starts_with_other "T" _ "F" "IM DE JOGO! Pontuacao final: " rest
             eq_refl).
  change ("FIM DE JOGO! Pontuacao final: " +:+ rest)
    with ("FIM DE JOGO!" +:+ (" Pontuacao final: " +:+ rest)).
  rewrite starts_with_append. reflexivity.
Qed.

Lemma log_line_restart acc : log_line acc "Jogo reiniciado!" = (0, false).
Proof. reflexivity. Qed.

Lemma key_callback_log key action (w : World) :
  in_log w -> in_log (App.key_callback ROWS COLS rand key action w).
Proof.
  intros H. unfold App.key_callback.
  destruct (_ && _); [exact H|]. destruct (_ && _); [|exact H].
  unfold in_log. simpl. rewrite logged_snoc, log_line_restart.
  destruct (resetGame_counters ROWS COLS rand (App.game w))
    as (-> & _ & -> & _).
  reflexivity.
Qed.

Lemma process_selection_log (w : World) :
  in_log w -> in_log (App.process_selection ROWS COLS w).
Proof.
  intros H. unfold App.process_selection.
  destruct ((iSelected (App.game w) >=? 0) && negb (gameOver (App.game w)))
    eqn:Hp; [|exact H].
  apply andb_true_iff in Hp. destruct Hp as [_ Hg].
  apply negb_true_iff in Hg.
  unfold in_log in *.
  destruct (eliminarSimilares ROWS COLS COLOR_TOLERANCE (App.game w))
    as [removedCount st1] eqn:Ee.
  assert (attempts st1 = attempts (App.game w)
          /\ gameOver st1 = gameOver (App.game w)) as [Ha1 Hg1].
  { unfold eliminarSimilares in Ee.
    destruct (iSelected (App.game w) <? 0); [inversion Ee; split; reflexivity|].
    destruct (for_range ROWS _ _) as [g2 n]. inversion Ee. split; reflexivity. }
  destruct (removedCount >? 0); simpl.
  - destruct (score st1 + (removedCount - (attempts st1 + 1)) <? 0); simpl;
      destruct (anyActiveCell ROWS COLS _); simpl;
      rewrite ?logged_snoc, ?log_line_over, ?log_line_attempt, H; simpl;
      rewrite Ha1, ?Hg1, ?Hg; reflexivity.
  - destruct (anyActiveCell ROWS COLS st1); simpl;
      rewrite ?logged_snoc, ?log_line_over, H; simpl;
      rewrite ?Ha1, ?Hg1, ?Hg; reflexivity.
Qed.

Lemma glfwPollEvents_log inputs (w : World) :
  in_log w -> in_log (App.glfwPollEvents ROWS COLS rand inputs w).
Proof.
  revert w. induction inputs as [|i inputs IH]; intros w H; [exact H|].
  unfold App.glfwPollEvents in *. simpl. apply IH.
  destruct i as [b a x y|k a|].
  - unfold in_log, App.mouse_button_callback. simpl.
    unfold mouse_button_callback.
    destruct (_ && _); [|exact H]. destruct (_ && _); [|exact H].
    destruct (negb _); exact H.
  - apply key_callback_log, H.
  - exact H.
Qed.

Lemma main_loop_log turns (w : World) :
  in_log w -> in_log (fst (App.main_loop ROWS COLS rand turns w)).
Proof.
  revert w. induction turns as [|inputs turns IH]; intros w H; [exact H|].
  rewrite main_loop_cons. destruct (App.shouldClose w); [exact H|].
  assert (in_log (fst (App.frame ROWS COLS rand inputs w))) as H1
    by (apply process_selection_log, glfwPollEvents_log, H).
  destruct (App.frame ROWS COLS rand inputs w) as [w1 calls].
  specialize (IH w1 H1).
  destruct (App.main_loop ROWS COLS rand turns w1) as [w2 frames].
  exact IH.
Qed.

(** X23: The console keeps count with the game: after any turns of the
    main loop, the lines [Tentativa ...] written since the last
    [Jogo reiniciado!] are as many as the attempts, and a line
    [FIM DE JOGO! ...] has been written since then exactly when the game
    is over. *)
Theorem console_in_step rs turns :
  let w := fst (App.main ROWS COLS rand rs turns) in
  logged (App.console w) = (attempts (App.game w), gameOver (App.game w)).
Proof.
  apply main_loop_log. unfold in_log. simpl.
  destruct (resetGame_counters ROWS COLS rand (static_state ROWS COLS rs))
    as (-> & _ & -> & _).
  reflexivity.
Qed.

(** *** The frame *)

(** The draw call of the cell at [p]. *)
Definition draw_call (g : Grid) (p : nat * nat) : DrawCall :=
  let q := grid_at g (fst p) (snd p) in
  mkDrawCall (position q) (dimensions q)
    (mkvec4 (v_r (color q)) (v_g (color q)) (v_b (color q)) (F32.of_int 1)).

Lemma draw_cells (st : State RandState) :
  App.draw ROWS COLS st
  = map (draw_call (grid st)) (List.filter (active (grid st)) (cells ROWS COLS)).
Proof.
  unfold App.draw.
  apply (grid_loop_ind ROWS COLS
           (fun l calls =>
              calls = map (draw_call (grid st)) (List.filter (active (grid st)) l))).
  - reflexivity.
  - intros l i j calls Hi Hj Hnin ->.
    rewrite List.filter_app, map_app. cbn [List.filter].
    change (active (grid st) (i, j))
      with (negb (eliminated (grid_at (grid st) i j))).
    destruct (eliminated (grid_at (grid st) i j)); cbn [negb map];
      [rewrite app_nil_r; reflexivity|reflexivity].
Qed.

Lemma active_eliminated_count g (l : list (nat * nat)) :
  (length (List.filter (active g) l)
   + length (List.filter (is_eliminated g) l))%nat = length l.
Proof.
  induction l as [|p l IH]; [reflexivity|].
  simpl. unfold active at 1, is_eliminated at 1.
  destruct (eliminated (grid_at g (fst p) (snd p))); simpl; lia.
Qed.

(** X19: A frame draws the cells that are not eliminated, each once, row by
    row, at its position and in its size and colour, opaque; with the
    eliminated cells they make up the grid. *)
Theorem draw_active (st : State RandState) :
  App.draw ROWS COLS st
  = map (draw_call (grid st)) (List.filter (active (grid st)) (cells ROWS COLS))
  /\ (forall i j, (i < ROWS)%nat -> (j < COLS)%nat ->
        eliminated (grid_at (grid st) i j) = false ->
        In (draw_call (grid st) (i, j)) (App.draw ROWS COLS st))
  /\ Z.of_nat (length (App.draw ROWS COLS st))
     + Z.of_nat (eliminated_count ROWS COLS (grid st))
     = Z.of_nat ROWS * Z.of_nat COLS.
Proof.
  rewrite draw_cells. split; [reflexivity|]. split.
  - intros i j Hi Hj He. apply in_map, filter_In.
    split; [apply in_cells; split; assumption|].
    unfold active. simpl. rewrite He. reflexivity.
  - rewrite length_map. unfold eliminated_count.
    pose proof (active_eliminated_count (grid st) (cells ROWS COLS)) as H.
    unfold cells in H at 3. rewrite length_prod, !length_seq in H. nia.
Qed.

(** *** The screen when the game is over *)

Hypothesis dims_int : Z.of_nat ROWS * Z.of_nat COLS < 2 ^ 31.

(** X20: On a grid that has cells, the frame of a state the game reaches is
    empty exactly when the game is over: the screen goes black with the
    last cell, and not before. *)
Theorem draw_nothing_iff_gameOver rs evs :
  (0 < ROWS)%nat -> (0 < COLS)%nat ->
  let st := run ROWS COLS rand evs (initial_state ROWS COLS rand rs) in
  App.draw ROWS COLS st = [] <-> gameOver st = true.
Proof.
  intros HR HC st.
  pose proof (run_Inv ROWS COLS rand dims_int evs _
                (initial_state_Inv ROWS COLS rand rs)) as HI.
  assert (untouched ROWS COLS st) as HU.
  { apply (run_untouched ROWS COLS rand dims_int); [apply initial_state_Inv|].
    apply resetGame_untouched, static_state_wf. }
  fold st in HI. destruct HI as (Hwf & Ha & _ & Hgo).
  assert (App.draw ROWS COLS st = [] <-> anyActiveCell ROWS COLS st = false)
    as Hd.
  { rewrite draw_cells, anyActiveCell_false. split.
    - intros H i j Hi Hj. apply map_eq_nil in H.
      pose proof (proj1 (filter_none _ _) H (i, j)
                    (proj2 (in_cells ROWS COLS i j) (conj Hi Hj))) as E.
      apply negb_false_iff in E. exact E.
    - intros H. rewrite (proj2 (filter_none _ _)); [reflexivity|].
      intros [i j] Hin. apply in_cells in Hin. destruct Hin as [Hi Hj].
      unfold active. simpl. rewrite (H i j Hi Hj). reflexivity. }
  rewrite Hd, Hgo. split; [|intros [_ H]; exact H].
  intros Hnone. split; [|exact Hnone].
  destruct (Z.eq_dec (attempts st) 0) as [E0|]; [|lia].
  exfalso. specialize (HU E0). unfold eliminated_count in HU.
  apply length_zero_iff_nil in HU.
  pose proof (proj1 (filter_none _ _) HU (0%nat, 0%nat)
                (proj2 (in_cells ROWS COLS 0 0) (conj HR HC))) as E.
  unfold is_eliminated in E. simpl in E.
  rewrite (proj1 (anyActiveCell_false ROWS COLS st) Hnone 0%nat 0%nat HR HC) in E.
  discriminate.
Qed.

End AppProperties.

(** ** What the title tells *)

Fixpoint no_space (s : string) : bool :=
  match s with
  | EmptyString => true
  | String c s' => negb (Ascii.eqb c " "%char) && no_space s'
  end.

Lemma string_of_uint_no_space d : no_space (NilEmpty.string_of_uint d) = true.
Proof.
  induction d as [|d IH|d IH|d IH|d IH|d IH|d IH|d IH|d IH|d IH|d IH];
    [reflexivity|..];
    cbn [NilEmpty.string_of_uint no_space]; rewrite IH; reflexivity.
Qed.

Lemma print_int_no_space n : no_space (print_int n) = true.
Proof.
  unfold print_int. destruct (Z.to_int n) as [d|d];
    cbn [NilEmpty.string_of_int no_space];
    rewrite string_of_uint_no_space; reflexivity.
Qed.

Lemma print_int_inj n n' : print_int n = print_int n' -> n = n'.
Proof.
  intros H. apply DecimalZ.to_int_inj.
  pose proof (NilEmpty.isi (Z.to_int n)) as H1.
  pose proof (NilEmpty.isi (Z.to_int n')) as H2.
  unfold print_int in H. rewrite H in H1. congruence.
Qed.

Lemma append_inv_head p a b : p +:+ a = p +:+ b -> a = b.
Proof.
  induction p as [|c p IH]; intros H; [exact H|].
  rewrite !append_cons in H. inversion H. apply IH. assumption.
Qed.

Lemma append_nil_r a : a +:+ EmptyString = a.
Proof.
  induction a as [|c a IH]; [reflexivity|].
  rewrite append_cons, IH. reflexivity.
Qed.

Lemma append_space_no_space a r : no_space (a +:+ String " "%char r) = false.
Proof.
  induction a as [|c a IH]; [reflexivity|].
  rewrite append_cons. cbn [no_space]. rewrite IH. apply andb_false_r.
Qed.

(** Two texts without a space, each before a space, are found again. *)
Lemma append_space_inj a a' r r' :
  no_space a = true -> no_space a' = true ->
  a +:+ String " "%char r = a' +:+ String " "%char r' -> a = a' /\ r = r'.
Proof.
  revert a'. induction a as [|c a IH]; intros [|c' a'] Ha Ha' H;
    rewrite ?append_cons in H; cbn [no_space] in *.
  - inversion H. split; reflexivity.
  - inversion H. subst c'. discriminate Ha'.
  - inversion H. subst c. discriminate Ha.
  - inversion H. subst c'.
    apply andb_true_iff in Ha, Ha'.
    destruct (IH a' (proj2 Ha) (proj2 Ha') ltac:(assumption)) as [-> ->].
    split; reflexivity.
Qed.

(** A text of the title's make: two numbers, each before a space or the
    end, tell the numbers and whether the ending is there. *)
Lemma title_parts p1 p2 p3 s s' a a' (g g' : bool) :
  no_space s = true -> no_space s' = true ->
  no_space a = true -> no_space a' = true ->
  p1 +:+ s +:+ String " "%char p2 +:+ a
     +:+ (if g then String " "%char p3 else EmptyString)
  = p1 +:+ s' +:+ String " "%char p2 +:+ a'
       +:+ (if g' then String " "%char p3 else EmptyString) ->
  s = s' /\ a = a' /\ g = g'.
Proof.
  intros Hs Hs' Ha Ha' H.
  apply append_inv_head in H. rewrite !append_cons in H.
  apply append_space_inj in H; [|assumption|assumption].
  destruct H as [-> H]. apply append_inv_head in H.
  split; [reflexivity|].
  destruct g, g'.
  - apply append_space_inj in H; [|assumption|assumption].
    split; [apply H|reflexivity].
  - exfalso. rewrite append_nil_r in H. rewrite <- H in Ha'.
    rewrite append_space_no_space in Ha'. discriminate.
  - exfalso. rewrite append_nil_r in H. rewrite H in Ha.
    rewrite append_space_no_space in Ha. discriminate.
  - rewrite !append_nil_r in H. split; [exact H|reflexivity].
Qed.

(** X18: The title shows the state of play and nothing else: two states have the
    same title exactly when they have the same score, the same attempts
    and the same game-over flag. *)
Theorem title_text_inj {RandState : Type} (st st' : State RandState) :
  App.title_text st = App.title_text st'
  <-> score st = score st' /\ attempts st = attempts st'
      /\ gameOver st = gameOver st'.
Proof.
  split; [|intros (Hs & Ha & Hg); unfold App.title_text;
           rewrite Hs, Ha, Hg; reflexivity].
  intros H.
  destruct (title_parts "Jogo das Cores — Score: " "— Tentativas: "
              "— FIM DE JOGO! Aperte R para reiniciar."
              (print_int (score st)) (print_int (score st'))
              (print_int (attempts st)) (print_int (attempts st'))
              (gameOver st) (gameOver st')
              (print_int_no_space _) (print_int_no_space _)
              (print_int_no_space _) (print_int_no_space _) H)
    as (Hs & Ha & Hg).
  apply print_int_inj in Hs, Ha. repeat split; assumption.
Qed.

(** ** The further properties at work on concrete states *)

(** The pixel 200 lies in the band of cell 1. *)
Lemma cell_index_band_witness : cell_index (F64.of_int 200) QUAD_W = 1.
Proof.
  assert (0 <= 1 < Z.pos exact_dim) as Hc
    by (vm_compute; split; [discriminate|reflexivity]).
  assert (band 1 (F64.of_int 200)) as Hb
    by (unfold band, from_to; repeat split; vm_compute; reflexivity).
  exact (proj1 (cell_index_band 1 (F64.of_int 200) Hc Hb)).
Defined.

(** The last pixel of the window is over a cell. *)
Lemma click_in_window_witness :
  0 <= cell_index (F64.of_int 799) QUAD_W < Z.of_nat COLS.
Proof.
  assert (from_to (F64.of_int 0) (F64.of_int WIDTH) (F64.of_int 799)) as Hx
    by (unfold from_to; repeat split; vm_compute; reflexivity).
  assert (from_to (F64.of_int 0) (F64.of_int HEIGHT) (F64.of_int 599)) as Hy
    by (unfold from_to; repeat split; vm_compute; reflexivity).
  exact (proj1 (click_in_window (initial_state ROWS COLS sample_rand 0)
                  (F64.of_int 799) (F64.of_int 599) Hx Hy)).
Defined.

(** Two clicks at the start of a game: the second one stands. *)
Lemma mouse_button_callback_twice_witness :
  step ROWS COLS sample_rand
    (step ROWS COLS sample_rand (initial_state ROWS COLS sample_rand 0)
       (click 50 50))
    (click 150 50)
  = step ROWS COLS sample_rand (initial_state ROWS COLS sample_rand 0)
      (click 150 50).
Proof.
  pose proof (mouse_button_callback_twice ROWS COLS source_dims
                GLFW_MOUSE_BUTTON_LEFT GLFW_PRESS (F64.of_int 50) (F64.of_int 50)
                GLFW_MOUSE_BUTTON_LEFT GLFW_PRESS (F64.of_int 150) (F64.of_int 50)
                (initial_state ROWS COLS sample_rand 0)) as H.
  assert (selects ROWS COLS GLFW_MOUSE_BUTTON_LEFT GLFW_PRESS
            (F64.of_int 150) (F64.of_int 50)
            (initial_state ROWS COLS sample_rand 0) = true) as Hs
    by (vm_compute; reflexivity).
  rewrite Hs in H. exact H.
Defined.


(** The colour of the second cell of the scenario after its first
    resolution is not changed by the second. *)
Lemma run_same_cell_witness :
  color (grid_at (grid (run 2 2 sample_rand [click 50 150; Frame]
                          scenario_resolved)) 0 1)
  = color (grid_at (grid scenario_resolved) 0 1).
Proof.
  assert (forallb (fun e => negb (is_restart e)) [click 50 150; Frame] = true)
    as Hnr by (vm_compute; reflexivity).
  exact (proj1 (proj2 (proj2
           (run_same_cell 2 2 sample_rand scenario_dims [click 50 150; Frame]
              scenario_resolved 0 1 scenario_resolved_wf Hnr
              ltac:(lia) ltac:(lia))))).
Defined.

Lemma selection_in_bounds_witness :
  let st := run ROWS COLS sample_rand [click 50 50]
              (initial_state ROWS COLS sample_rand 0) in
  let row := to_int (to_uint (iSelected st) / Z.of_nat COLS) in
  let col := to_int (to_uint (iSelected st) mod Z.of_nat COLS) in
  iSelected st = -1
  \/ (0 <= row < Z.of_nat ROWS /\ 0 <= col < Z.of_nat COLS
      /\ iSelected st = row * Z.of_nat COLS + col
      /\ eliminated (grid_at (grid st) (Z.to_nat row) (Z.to_nat col)) = false
      /\ gameOver st = false).
Proof.
  exact (selection_in_bounds ROWS COLS sample_rand source_dims 0 [click 50 50]).
Defined.

Lemma counters_bounded_witness :
  let st := run ROWS COLS sample_rand [click 50 50; Frame]
              (initial_state ROWS COLS sample_rand 0) in
  0 <= attempts st <= Z.of_nat (eliminated_count ROWS COLS (grid st)).
Proof.
  exact (proj1 (counters_bounded ROWS COLS sample_rand source_dims 0
                  [click 50 50; Frame])).
Defined.

(** The program's grid takes 144 calls of [rand()]. *)
Lemma resetGame_draws_witness :
  randState (resetGame ROWS COLS sample_rand (static_state ROWS COLS 0))
  = rand_state sample_rand (3 * (ROWS * COLS)) 0.
Proof.
  assert (5 < ROWS)%nat as Hi by (unfold ROWS; lia).
  assert (7 < COLS)%nat as Hj by (unfold COLS; lia).
  exact (proj1 (resetGame_draws ROWS COLS sample_rand (static_state ROWS COLS 0)
                  5 7 (static_state_wf ROWS COLS 0) Hi Hj)).
Defined.

(** A restart from the scenario after its first resolution is the restart
    from the scenario itself. *)
Lemma resetGame_forgets_witness :
  resetGame 2 2 sample_rand scenario_resolved
  = resetGame 2 2 sample_rand scenario_state.
Proof.
  assert (randState scenario_resolved = randState scenario_state) as Hrs
    by (vm_compute; reflexivity).
  exact (resetGame_forgets 2 2 sample_rand scenario_resolved scenario_state
           (proj1 scenario_resolved_wf) scenario_wf_grid Hrs).
Defined.

(** The two red cells of the scenario go with each other. *)
Lemma eliminarSimilares_symmetric_witness :
  eliminated (grid_at (grid (snd (eliminarSimilares 2 2 COLOR_TOLERANCE
                                    (select 2 0 0 scenario_state)))) 0 1)
  = eliminated (grid_at (grid (snd (eliminarSimilares 2 2 COLOR_TOLERANCE
                                      (select 2 0 1 scenario_state)))) 0 0).
Proof.
  assert ((0%nat, 0%nat) <> (0%nat, 1%nat)) as Hne by discriminate.
  assert (eliminated (grid_at (grid scenario_state) 0 0) = false) as H1
    by reflexivity.
  assert (eliminated (grid_at (grid scenario_state) 0 1) = false) as H2
    by reflexivity.
  exact (eliminarSimilares_symmetric 2 2 scenario_dims COLOR_TOLERANCE
           scenario_state 0 0 0 1 scenario_wf_grid
           ltac:(lia) ltac:(lia) ltac:(lia) ltac:(lia) Hne H1 H2).
Defined.

(** The second red cell has the colour of the first. *)
Lemma eliminarSimilares_same_colour_witness :
  eliminated (grid_at
    (grid (snd (eliminarSimilares 2 2 COLOR_TOLERANCE scenario_clicked))) 0 1)
  = true.
Proof.
  assert (SFleb (S754_zero false) COLOR_TOLERANCE = true) as Ht
    by (vm_compute; reflexivity).
  assert (number3 (color (grid_at (grid scenario_clicked) 0 0))) as Hn
    by (vm_compute; repeat split).
  assert (color (grid_at (grid scenario_clicked) 0 1)
          = color (grid_at (grid scenario_clicked) 0 0)) as Hc
    by (vm_compute; reflexivity).
  exact (eliminarSimilares_same_colour 2 2 scenario_dims COLOR_TOLERANCE
           scenario_clicked 0 0 0 1 scenario_wf_grid scenario_clicked_selected
           ltac:(lia) ltac:(lia) Ht Hn Hc).
Defined.

(** The program as it starts on the 6 x 8 grid. *)
Definition sample_world : App.World :=
  App.resetGame ROWS COLS sample_rand
    (App.mkWorld (static_state ROWS COLS 0) "Jogo das Cores" false []).

(** Escape in the first turn: the click of the turn after it is not seen. *)
Lemma close_ends_loop_witness :
  App.main_loop ROWS COLS sample_rand
    [[Keyboard GLFW_KEY_ESCAPE GLFW_PRESS];
     [Mouse GLFW_MOUSE_BUTTON_LEFT GLFW_PRESS (F64.of_int 50) (F64.of_int 50)]]
    sample_world
  = (fst (App.frame ROWS COLS sample_rand
            [Keyboard GLFW_KEY_ESCAPE GLFW_PRESS] sample_world),
     [snd (App.frame ROWS COLS sample_rand
             [Keyboard GLFW_KEY_ESCAPE GLFW_PRESS] sample_world)]).
Proof.
  assert (App.shouldClose sample_world = false) as Hc by reflexivity.
  assert (existsb is_close [Keyboard GLFW_KEY_ESCAPE GLFW_PRESS] = true) as Hcl
    by reflexivity.
  exact (proj1 (close_ends_loop ROWS COLS sample_rand
                  [Keyboard GLFW_KEY_ESCAPE GLFW_PRESS]
                  [[Mouse GLFW_MOUSE_BUTTON_LEFT GLFW_PRESS
                      (F64.of_int 50) (F64.of_int 50)]]
                  sample_world Hc Hcl)).
Defined.

(** The first frame of a game is not empty. *)
Lemma draw_nothing_iff_gameOver_witness :
  App.draw ROWS COLS (initial_state ROWS COLS sample_rand 0) = []
  <-> gameOver (initial_state ROWS COLS sample_rand 0) = true.
Proof.
  assert (0 < ROWS)%nat as HR by (unfold ROWS; lia).
  assert (0 < COLS)%nat as HC by (unfold COLS; lia).
  exact (draw_nothing_iff_gameOver ROWS COLS sample_rand source_dims 0 [] HR HC).
Defined.

(** The last cell of the program's grid is still at (750, 550) after a
    click and its resolution. *)
Lemma game_cells_witness :
  position (grid_at (grid (run ROWS COLS sample_rand [click 50 50; Frame]
                             (initial_state ROWS COLS sample_rand 0))) 5 7)
  = center 5 7.
Proof.
  assert (5 < ROWS)%nat as Hi by (unfold ROWS; lia).
  assert (7 < COLS)%nat as Hj by (unfold COLS; lia).
  exact (proj1 (game_cells ROWS COLS sample_rand source_dims sample_rand_nonneg
                  0 [click 50 50; Frame] 5 7 Hi Hj)).
Defined.

(** The middle of the last cell of the program's grid is over it. *)
Lemma click_centre_witness :
  cell_index (F64.of_int (7 * 100 + 50)) QUAD_W = 7.
Proof.
  assert (0 <= 5 < Z.pos exact_dim) as Hr
    by (vm_compute; split; [discriminate|reflexivity]).
  assert (0 <= 7 < Z.pos exact_dim) as Hc
    by (vm_compute; split; [discriminate|reflexivity]).
  exact (proj1 (click_centre 5 7 Hr Hc)).
Defined.

(** The score after the first click of a game is at most 47. *)
Lemma best_score_witness :
  score (run ROWS COLS sample_rand [click 50 50; Frame]
           (initial_state ROWS COLS sample_rand 0))
  <= Z.of_nat ROWS * Z.of_nat COLS - 1.
Proof.
  assert (0 < ROWS)%nat as HR by (unfold ROWS; lia).
  assert (0 < COLS)%nat as HC by (unfold COLS; lia).
  exact (proj1 (best_score ROWS COLS sample_rand source_dims 0
                  [click 50 50; Frame] HR HC)).
Defined.

(** * The tolerance test over the real numbers *)

From Stdlib Require Import Reals Lra.
Local Open Scope Z_scope.

(** The rational number a single-precision value stands for, as a numerator
    and a power of two; infinities and NaN are not met here and read 0. *)
Definition SFnum (f : spec_float) : Z :=
  match f with
  | S754_finite s m e =>
      if e <? 0 then cond_Zopp s (Z.pos m) else cond_Zopp s (Z.pos m * 2 ^ e)
  | _ => 0
  end.

Definition SFden (f : spec_float) : Z :=
  match f with
  | S754_finite s m e => if e <? 0 then 2 ^ (- e) else 1
  | _ => 1
  end.

Definition SF2R (f : spec_float) : R := (IZR (SFnum f) / IZR (SFden f))%R.

(** [sqrt((c.r-t.r)^2 + (c.g-t.g)^2 + (c.b-t.b)^2) / sqrt(3)] on the values
    the two colours store, without rounding. *)
Definition real_distance (c t : vec3) : R :=
  (sqrt ((SF2R (v_r c) - SF2R (v_r t)) * (SF2R (v_r c) - SF2R (v_r t))
         + (SF2R (v_g c) - SF2R (v_g t)) * (SF2R (v_g c) - SF2R (v_g t))
         + (SF2R (v_b c) - SF2R (v_b t)) * (SF2R (v_b c) - SF2R (v_b t)))
   / sqrt 3)%R.

Lemma sqrt_ratio_exceeds (S T : R) :
  (0 <= T)%R -> (3 * (T * T) < S)%R -> ~ (sqrt S / sqrt 3 <= T)%R.
Proof.
  intros HT H Hle.
  assert (0 < sqrt 3)%R as H3 by (apply sqrt_lt_R0; lra).
  assert (sqrt S <= T * sqrt 3)%R as H1.
  { apply (Rmult_le_compat_r (sqrt 3)) in Hle; [|lra].
    unfold Rdiv in Hle. rewrite Rmult_assoc, Rinv_l in Hle by lra. lra. }
  assert (T * sqrt 3 = sqrt (3 * (T * T)))%R as H2.
  { rewrite sqrt_mult by nra. rewrite sqrt_square by exact HT. ring. }
  rewrite H2 in H1.
  apply sqrt_le_0 in H1; [lra|nra|nra].
Qed.

(** The levels 3, 15, 87 and 0 as the program stores them. *)
Lemma edge_channels :
  channel 3 = S754_finite false 12632257 (-30)
  /\ channel 15 = S754_finite false 15790321 (-28)
  /\ channel 87 = S754_finite false 11447983 (-25)
  /\ channel 0 = S754_zero false.
Proof. repeat split; vm_compute; reflexivity. Qed.

(** The colour of the levels (3, 15, 87) is farther from black than the
    tolerance 0.2f, by the formula over the reals on the stored values. *)
Lemma edge_real_distance :
  ~ (real_distance (level_colour 3 15 87) (level_colour 0 0 0)
     <= SF2R COLOR_TOLERANCE)%R.
Proof.
  destruct edge_channels as (H3 & H15 & H87 & H0).
  unfold real_distance, SF2R, level_colour, v_r, v_g, v_b. cbn [v_x v_y v_z].
  rewrite H3, H15, H87, H0.
  unfold COLOR_TOLERANCE.
  cbn [SFnum SFden Z.ltb Z.compare cond_Zopp Z.opp].
  change (2 ^ (- (-30))) with 1073741824.
  change (2 ^ (- (-28))) with 268435456.
  change (2 ^ (- (-25))) with 33554432.
  change (2 ^ (- (-26))) with 67108864.
  apply sqrt_ratio_exceeds; lra.
Qed.

(** C1, the claim as stated, fails: with the black cell (0, 0) of
    [edge_grid] selected and the program's tolerance, the cell (0, 1) of
    the levels (3, 15, 87) was not eliminated before the call and is
    eliminated by it, although
    [sqrt((c.r-t.r)^2 + (c.g-t.g)^2 + (c.b-t.b)^2) / sqrt(3)] on the stored
    colours is greater than the tolerance: the single-precision result of
    the program rounds down onto 0.2f. *)
Lemma eliminarSimilares_tolerance_counterexample :
  ~ ((eliminated (grid_at (grid edge_state) 0 1) = false
      /\ eliminated
           (grid_at (grid (snd (eliminarSimilares 1 4 COLOR_TOLERANCE edge_state)))
              0 1) = true)
     <-> (eliminated (grid_at (grid edge_state) 0 1) = false
          /\ (real_distance (color (grid_at (grid edge_state) 0 1))
                (color (grid_at (grid edge_state) 0 0))
              <= SF2R COLOR_TOLERANCE)%R)).
Proof.
  intros [H _].
  assert (eliminated (grid_at (grid edge_state) 0 1) = false
          /\ eliminated
               (grid_at
                  (grid (snd (eliminarSimilares 1 4 COLOR_TOLERANCE edge_state)))
                  0 1) = true) as Hrun
    by (split; vm_compute; reflexivity).
  destruct (H Hrun) as [_ Hle].
  exact (edge_real_distance Hle).
Qed.
